(** * Eaglercraft Server Directory: the entry store, the query engine,
      the import/export codec and the liveness probe of [src/App.jsx]

    The program is a dynamically typed single-file React application.
    Data that enters it from outside (the localStorage snapshot, an
    imported file) is modelled as untyped JSON [value]s, because the code
    reads it without validating it.  The functions that the source
    documents as working on [ServerItem]s (filter and sort, the probe) are
    modelled on the record of the JSDoc typedef; [item_value] is the
    object such a record denotes.  The two comparators that throw on
    other elements of the store are given on values as well.

    Conventions of the model:
    - a JS number is an integer [Z] (vote counts, indices, [Date.now()]);
      the numbers meant are the safe integers, of magnitude below 2^53,
      which a JS number holds exactly and prints in full;
    - a JS string is a [string] of bytes, standing for an ASCII text;
      [toLowerCase], [toUpperCase] and [trim] are the real functions on
      such texts only, and the statements that depend on them say so
      ([ascii_text]);
    - a thrown exception is [None] in the [option] monad, a [try]/[catch]
      is [catch];
    - a [Map] is the list of its entries in insertion order, its keys
      compared as values (what SameValueZero does on strings, numbers,
      booleans, [null] and [undefined]); JS compares an array or object
      key by reference, so the statements about a [Map] are made for
      keys that are [primitive];
    - [JSON.parse], [JSON.stringify] and [localeCompare] belong to the
      host and are parameters of the functions that call them.

    The first part of the file is the model, function by function in the
    order of the source; the second part states and proves the
    properties. *)

From Stdlib Require Import List String Ascii ZArith Bool Lia Permutation.
From Stdlib Require Import DecimalString DecimalZ DecimalPos Sorted.
From Stdlib Require Import OrderedTypeEx.
Import ListNotations.

Set Warnings "-register-all".

Local Open Scope string_scope.
Local Open Scope list_scope.
Local Open Scope Z_scope.

(* ------------------------------------------------------------------ *)
(** ** JavaScript values *)
(* ------------------------------------------------------------------ *)

Inductive value : Type :=
| VUndefined
| VNull
| VBool (b : bool)
| VNum (n : Z)
| VStr (s : string)
| VArr (elems : list value)
| VObj (props : list (string * value)).

(** A record in the loose sense of the import format: a property list. *)
Definition obj : Type := list (string * value).

(** Structural equality of values. *)
Fixpoint value_eqb (a b : value) {struct a} : bool :=
  match a, b with
  | VUndefined, VUndefined => true
  | VNull, VNull => true
  | VBool x, VBool y => Bool.eqb x y
  | VNum x, VNum y => Z.eqb x y
  | VStr x, VStr y => String.eqb x y
  | VArr xs, VArr ys =>
      (fix all2 (xs ys : list value) {struct xs} : bool :=
         match xs, ys with
         | [], [] => true
         | x :: xs', y :: ys' => value_eqb x y && all2 xs' ys'
         | _, _ => false
         end) xs ys
  | VObj ps, VObj qs =>
      (fix all2 (ps qs : list (string * value)) {struct ps} : bool :=
         match ps, qs with
         | [], [] => true
         | (k, x) :: ps', (k', y) :: qs' =>
             String.eqb k k' && value_eqb x y && all2 ps' qs'
         | _, _ => false
         end) ps qs
  | _, _ => false
  end.

(** [SameValueZero], the comparison of [Map] keys.  On primitive values it
    is equality of the values (numbers are integers here, so neither NaN
    nor a signed zero occurs).  Every key the program itself creates is a
    string; on an object or array key JS compares references, which this
    model has not: there the comparison is structural, and two keys that
    are different objects with the same content are taken for one.  What
    is stated of a [Map] is therefore stated for [primitive] keys. *)
Definition same_value_zero (a b : value) : bool := value_eqb a b.

(** A value that is no array and no object: [Map] keys of this kind are
    compared by what they are. *)
Definition primitive (v : value) : bool :=
  match v with
  | VArr _ | VObj _ => false
  | _ => true
  end.

(** [Boolean(v)] / [!!v]. *)
Definition truthy (v : value) : bool :=
  match v with
  | VUndefined | VNull => false
  | VBool b => b
  | VNum n => negb (n =? 0)
  | VStr s => negb (String.eqb s "")
  | VArr _ | VObj _ => true
  end.

(** [a || b]. *)
Definition js_or (a b : value) : value := if truthy a then a else b.

(** Decimal text of an integer, as [Number.prototype.toString] prints an
    integer of magnitude below 1e21. *)
Definition string_of_Z (n : Z) : string := NilZero.string_of_int (Z.to_int n).

Definition string_of_nat (n : nat) : string := string_of_Z (Z.of_nat n).

(** The text [String(v)] returns when it returns: arrays print as their
    elements joined by commas (with [null] and [undefined] elements
    printing as nothing), objects as [[object Object]].  Whether it
    returns is [prints] below; a number is printed as the safe integer
    it stands for. *)
Fixpoint to_string (v : value) : string :=
  match v with
  | VUndefined => "undefined"
  | VNull => "null"
  | VBool true => "true"
  | VBool false => "false"
  | VNum n => string_of_Z n
  | VStr s => s
  | VArr l =>
      (fix join (l : list value) {struct l} : string :=
         match l with
         | [] => ""
         | x :: rest =>
             let sx := match x with
                       | VUndefined | VNull => ""
                       | _ => to_string x
                       end in
             match rest with
             | [] => sx
             | _ :: _ => (sx ++ "," ++ join rest)%string
             end
         end) l
  | VObj _ => "[object Object]"
  end.

(** [Object.hasOwn(ps, k)]. *)
Definition has_own (k : string) (ps : list (string * value)) : bool :=
  existsb (fun kv => String.eqb (fst kv) k) ps.

(** Whether [String(v)] returns.  It calls the method [toString] of an
    object; an own property of that name, which in a value read from
    JSON is no function, hides the inherited method, and the conversion
    throws a TypeError.  An array prints its elements, so it throws when
    one of them does. *)
Fixpoint prints (v : value) : bool :=
  match v with
  | VArr l =>
      (fix all (l : list value) {struct l} : bool :=
         match l with
         | [] => true
         | x :: rest => prints x && all rest
         end) l
  | VObj ps => negb (has_own "toString" ps)
  | _ => true
  end.

(** [String(v)], and the conversion of [v] to a string in [v + " "] and
    in a template literal. *)
Definition String_of (v : value) : option string :=
  if prints v then Some (to_string v) else None.

(** The properties the program reads or writes. *)
Inductive field : Type :=
| f_id | f_name | f_url | f_tags | f_short | f_region | f_votes
| f_community | f_source.

Definition field_name (f : field) : string :=
  match f with
  | f_id => "id" | f_name => "name" | f_url => "url" | f_tags => "tags"
  | f_short => "short" | f_region => "region" | f_votes => "votes"
  | f_community => "community" | f_source => "source"
  end.

Fixpoint own_property (k : string) (ps : obj) : value :=
  match ps with
  | [] => VUndefined
  | (k', v) :: ps' => if String.eqb k' k then v else own_property k ps'
  end.

(** Exceptions: [None] is a throw. *)
Definition throws (A : Type) : Type := option A.

Definition bind {A B : Type} (m : throws A) (k : A -> throws B) : throws B :=
  match m with
  | Some a => k a
  | None => None
  end.

Definition catch {A : Type} (m : throws A) (handler : A) : A :=
  match m with
  | Some a => a
  | None => handler
  end.

Notation "x <- m ;; k" := (bind m (fun x => k))
  (at level 61, m at next level, right associativity).

(** [v.f] for one of the nine property names.  Reading a property of
    [null] or [undefined] throws a TypeError; a number, boolean, string or
    array has none of these nine properties. *)
Definition prop (v : value) (f : field) : throws value :=
  match v with
  | VUndefined | VNull => None
  | VObj ps => Some (own_property (field_name f) ps)
  | VBool _ | VNum _ | VStr _ | VArr _ => Some VUndefined
  end.

(** [l.map(f)] for a callback that may throw. *)
Fixpoint map_throws {A B : Type} (f : A -> throws B) (l : list A)
  : throws (list B) :=
  match l with
  | [] => Some []
  | x :: l' => y <- f x ;; ys <- map_throws f l' ;; Some (y :: ys)
  end.

(** [l.map((x, i) => f(x, i))], the index counted from [i]. *)
Fixpoint mapi_throws {A B : Type} (f : A -> nat -> throws B) (i : nat)
  (l : list A) : throws (list B) :=
  match l with
  | [] => Some []
  | x :: l' => y <- f x i ;; ys <- mapi_throws f (S i) l' ;; Some (y :: ys)
  end.

(* ------------------------------------------------------------------ *)
(** ** [Map]: insertion-ordered, keyed by SameValueZero *)
(* ------------------------------------------------------------------ *)

Module JsMap.

Definition t : Type := list (value * value).

Definition empty : t := [].

(** [m.set(k, v)]: an existing key keeps its place and takes the new
    value, a new key goes to the end. *)
Fixpoint set (k v : value) (m : t) : t :=
  match m with
  | [] => [(k, v)]
  | (k', v') :: m' =>
      if same_value_zero k' k then (k', v) :: m'
      else (k', v') :: set k v m'
  end.

(** [m.has(k)]. *)
Fixpoint has (k : value) (m : t) : bool :=
  match m with
  | [] => false
  | (k', _) :: m' => same_value_zero k' k || has k m'
  end.

(** [m.get(k)], [None] standing for a missing key. *)
Fixpoint get (k : value) (m : t) : option value :=
  match m with
  | [] => None
  | (k', v') :: m' => if same_value_zero k' k then Some v' else get k m'
  end.

(** [new Map(pairs)]. *)
Definition of_pairs (pairs : list (value * value)) : t :=
  fold_left (fun m p => set (fst p) (snd p) m) pairs empty.

(** [[...m.values()]] and [Array.from(m.values())]. *)
Definition values (m : t) : list value := map snd m.

Definition keys (m : t) : list value := map fst m.

End JsMap.

(* ------------------------------------------------------------------ *)
(** ** Types and seed data *)
(* ------------------------------------------------------------------ *)

(** The JSDoc typedef [ServerItem]; a property marked [=] is optional.
    [tags] is optional here because the code reads it with [?.]. *)
Record ServerItem : Type := mkServerItem {
  id : string;
  name : string;
  url : string;
  tags : option (list string);
  short : option string;
  region : option string;
  votes : option Z;
  community : option bool;
  source : option string
}.

Definition opt_prop {A : Type} (k : string) (inj : A -> value)
  (o : option A) : obj :=
  match o with
  | Some a => [(k, inj a)]
  | None => []
  end.

(** The object a [ServerItem] denotes; an absent optional property is not
    a property of the object. *)
Definition item_value (s : ServerItem) : value :=
  VObj ([("id", VStr (id s)); ("name", VStr (name s)); ("url", VStr (url s))]
        ++ opt_prop "tags" (fun ts => VArr (map VStr ts)) (tags s)
        ++ opt_prop "short" VStr (short s)
        ++ opt_prop "region" VStr (region s)
        ++ opt_prop "votes" VNum (votes s)
        ++ opt_prop "community" VBool (community s)
        ++ opt_prop "source" VStr (source s)).

Definition seed (i n u : string) (ts : list string) (sh src : string)
  : ServerItem :=
  mkServerItem i n u (Some ts) (Some sh) None None None (Some src).

Definition SEED_SERVERS : list ServerItem :=
  [ seed "nexo" "NexoX" "wss://nexo-app.net"
      ["PvP"; "Economy"; "Minigames"; "Survival"]
      "Explore endless adventures." "TopEaglerServers";
    seed "bedwetter" "Bedwetter" "wss://bedwetr.bytommy.uk"
      ["PvP"; "Minigames"; "Survival"]
      "Bedwars by Tommy." "TopEaglerServers";
    seed "brandor" "Lost At Brandor" "wss://31066.ddnod.es"
      ["PvP"; "Minigames"]
      "1.8.8 Eagler RPG." "TopEaglerServers";
    seed "nobnot" "noBnoT Anarchy" "wss://eagler.noBnoT.org"
      ["Anarchy"; "PvP"; "Survival"]
      "True anarchy." "TopEaglerServers";
    seed "webmc" "WebMC" "wss://play.webmc.fun"
      ["PvP"; "Economy"; "Minigames"; "Survival"; "Creative"]
      "Oneblock server." "TopEaglerServers";
    seed "carrot" "CarrotCraft Network" "wss://eagler.carrot-craft.org"
      ["PvP"; "Economy"; "Survival"]
      "Survival & Skyblock." "TopEaglerServers";
    seed "cleverteaching" "xdmany4006MC (Clever Teaching)"
      "wss://clever-teaching.com"
      ["PvP"; "Minigames"; "Survival"; "Creative"]
      "Public hub." "TopEaglerServers";
    seed "ricenetwork" "Rice Network x BallCraft" "wss://mc.ricenetwork.xyz"
      ["PvP"; "Economy"; "Minigames"]
      "Diverse network." "TopEaglerServers";
    seed "zentic" "Zentic" "wss://zentic.cc"
      ["PvP"; "Minigames"; "Practice"]
      "Minemen for Eaglercraft." "TopEaglerServers";
    seed "zelz" "ZelzNET" "wss://play.zelz.net"
      ["Minigames"; "Survival"]
      "Active development." "TopEaglerServers";
    seed "arch" "ArchMC" "wss://arch.mc"
      ["PvP"; "Minigames"; "Survival"; "Creative"; "Other"]
      "Popular mixed modes." "servers.eaglercraft.com";
    seed "tuffnet" "TuffNET" "wss://play.tuff.tf"
      ["Survival"; "PvP"; "Other"]
      "Cracked MC; any client." "servers.eaglercraft.com" ].

Definition ALL_TAGS : list string :=
  ["PvP"; "Minigames"; "Survival"; "Creative"; "Economy"; "Factions";
   "Practice"; "Skywars"; "Bedwars"; "Skyblock"; "Anarchy"; "Other"].

Definition STORAGE_KEY : string := "eaglercraft-servers-v1".

(** The store: the array held in the [servers] state of [App]. *)
Definition store : Type := list value.

(** The seed array as the store holds it. *)
Definition seed_store : store := map item_value SEED_SERVERS.

(** [e.f] of a store element, [undefined] when there is none. *)
Definition field_of (e : value) (f : field) : value :=
  catch (prop e f) VUndefined.

(** [e.id] and [e.url] of a store element. *)
Definition entry_id (e : value) : value := field_of e f_id.

Definition entry_url (e : value) : value := field_of e f_url.

(* ------------------------------------------------------------------ *)
(** ** Strings *)
(* ------------------------------------------------------------------ *)

(** The case mappings of the letters A-Z and a-z.  On an ASCII text
    (see [ascii_text]) [toLowerCase] and [toUpperCase] below are the
    functions of JS, which map nothing else there; on other texts the
    functions of JS follow Unicode, depend on the context of a letter and
    may change the length, and these definitions say nothing of them. *)
Definition lower_char (c : ascii) : ascii :=
  let n := nat_of_ascii c in
  if (Nat.leb 65 n && Nat.leb n 90)%bool then ascii_of_nat (n + 32) else c.

Definition upper_char (c : ascii) : ascii :=
  let n := nat_of_ascii c in
  if (Nat.leb 97 n && Nat.leb n 122)%bool then ascii_of_nat (n - 32) else c.

Fixpoint map_chars (f : ascii -> ascii) (s : string) : string :=
  match s with
  | EmptyString => EmptyString
  | String c s' => String (f c) (map_chars f s')
  end.

Definition toLowerCase (s : string) : string := map_chars lower_char s.

(** Not called by the program; the query of one of the specified
    properties is built with it. *)
Definition toUpperCase (s : string) : string := map_chars upper_char s.

(** [s.startsWith(p)]; with [p = "wss://"] this is the test of the
    regular expression [/^wss:\/\//]. *)
Fixpoint starts_with (p s : string) : bool :=
  match p, s with
  | EmptyString, _ => true
  | String a p', String b s' => Ascii.eqb a b && starts_with p' s'
  | String _ _, EmptyString => false
  end.

(** [s.includes(needle)]. *)
Fixpoint includes (s needle : string) : bool :=
  starts_with needle s
  || match s with
     | EmptyString => false
     | String _ s' => includes s' needle
     end.

(** [/^wss:\/\//.test(u)]. *)
Definition is_wss (u : string) : bool := starts_with "wss://" u.

(* ------------------------------------------------------------------ *)
(** ** [Array.prototype.sort] *)
(* ------------------------------------------------------------------ *)

(** [sort] is stable (ECMAScript 2019): with a consistent comparator the
    result is the one ordering that puts [a] before [b] whenever
    [cmp a b < 0] and keeps the input order of elements that compare
    equal.  It is computed here by insertion from the right. *)
Section Sort.

Context {A : Type} (cmp : A -> A -> Z).

Fixpoint insert_sorted (x : A) (l : list A) : list A :=
  match l with
  | [] => [x]
  | y :: l' => if cmp x y <=? 0 then x :: y :: l' else y :: insert_sorted x l'
  end.

Definition sort (l : list A) : list A := fold_right insert_sorted [] l.

End Sort.

(* ------------------------------------------------------------------ *)
(** ** Entry store: [loadServers], [saveServers] *)
(* ------------------------------------------------------------------ *)

(** What [localStorage.getItem(STORAGE_KEY)] does: it throws (storage
    disabled), or returns [null] or the stored text. *)
Inductive stored : Type :=
| GetItemThrows
| GetItem (raw : option string).

Section Storage.

(** [JSON.parse]; [None] is its SyntaxError. *)
Variable JSON_parse : string -> throws value.

(** [JSON.stringify(v, null, space)]. *)
Variable JSON_stringify : value -> nat -> string.

(** [parsed.map((s) => [s.id, s])]. *)
Definition id_pairs (parsed : list value) : throws (list (value * value)) :=
  map_throws (fun s => k <- prop s f_id ;; Some (k, s)) parsed.

(** [if (!byId.has(s.id)) byId.set(s.id, s)]. *)
Definition add_seed (byId : JsMap.t) (s : ServerItem) : JsMap.t :=
  if negb (JsMap.has (VStr (id s)) byId)
  then JsMap.set (VStr (id s)) (item_value s) byId
  else byId.

(** [for (const s of SEED_SERVERS) ...]. *)
Definition add_missing_seeds (byId : JsMap.t) : JsMap.t :=
  fold_left add_seed SEED_SERVERS byId.

(** The body of the [try] block. *)
Definition loadServers_try (st : stored) : throws store :=
  match st with
  | GetItemThrows => None
  | GetItem None => Some seed_store
  | GetItem (Some raw) =>
      if String.eqb raw "" then Some seed_store
      else
        parsed <- JSON_parse raw ;;
        match parsed with
        | VArr elems =>
            pairs <- id_pairs elems ;;
            Some (JsMap.values (add_missing_seeds (JsMap.of_pairs pairs)))
        | _ => Some seed_store
        end
  end.

Definition loadServers (st : stored) : store :=
  catch (loadServers_try st) seed_store.

(** The text [saveServers] hands to [localStorage.setItem]. *)
Definition saveServers (servers : store) : string :=
  JSON_stringify (VArr servers) 0.

End Storage.

(* ------------------------------------------------------------------ *)
(** ** Query engine: the [filtered] memo of [App] *)
(* ------------------------------------------------------------------ *)

(** [o || d] on an optional number and on an optional string. *)
Definition num_or (o : option Z) (d : Z) : Z :=
  match o with
  | Some n => if n =? 0 then d else n
  | None => d
  end.

Definition str_or (o : option string) (d : string) : string :=
  match o with
  | Some s => if String.eqb s "" then d else s
  | None => d
  end.

Definition matchesQ (s : ServerItem) (q : string) : bool :=
  includes (toLowerCase (name s ++ " " ++ url s)) (toLowerCase q).

Definition matchesTags (s : ServerItem) (selected : list string) : bool :=
  (List.length selected =? 0)%nat
  || forallb
       (fun t =>
          match tags s with
          | Some ts => existsb (String.eqb t) ts
          | None => false
          end)
       selected.

Definition by_votes (a b : ServerItem) : Z :=
  num_or (votes b) 0 - num_or (votes a) 0.

Section Query.

(** [a.localeCompare(b)]. *)
Variable localeCompare : string -> string -> Z.

Definition by_name (a b : ServerItem) : Z :=
  localeCompare (name a) (name b).

Definition by_source (a b : ServerItem) : Z :=
  localeCompare (str_or (source a) "zzz") (str_or (source b) "zzz").

(** The memo [filtered] on a store of [ServerItem]s.  The order [sort]
    gives is the one [Array.prototype.sort] is specified to return for a
    comparator that is consistent. *)
Definition filtered (servers : list ServerItem) (q : string)
  (selected : list string) (sort_key : string) : list ServerItem :=
  let out :=
    filter (fun s => matchesQ s q && matchesTags s selected) servers in
  if String.eqb sort_key "name" then sort by_name out
  else if String.eqb sort_key "votes" then sort by_votes out
  else if String.eqb sort_key "source" then sort by_source out
  else out.

(** The same two comparators on elements of the store as they come,
    [ServerItem]s or not.  [a.name.localeCompare(b.name)] throws unless
    [a.name] is a string, which alone has the method, and when [b.name]
    cannot be printed. *)
Definition by_name_value (a b : value) : throws Z :=
  a_name <- prop a f_name ;;
  b_name <- prop b f_name ;;
  match a_name with
  | VStr sa => sb <- String_of b_name ;; Some (localeCompare sa sb)
  | _ => None
  end.

(** [(a.source || "zzz").localeCompare(b.source || "zzz")]. *)
Definition by_source_value (a b : value) : throws Z :=
  a_source <- prop a f_source ;;
  b_source <- prop b f_source ;;
  match js_or a_source (VStr "zzz") with
  | VStr sa =>
      sb <- String_of (js_or b_source (VStr "zzz")) ;;
      Some (localeCompare sa sb)
  | _ => None
  end.

End Query.

(* ------------------------------------------------------------------ *)
(** ** Mutations of the store: [addServer], [importList] *)
(* ------------------------------------------------------------------ *)

Record toast : Type := mkToast {
  title : string;
  description : string;
  destructive : bool
}.

(** The part of the state of [App] the handlers below change. *)
Record App : Type := mkApp {
  servers : store;
  toasts : list toast
}.

(** [addServer(newS)]: the copy [{ ...newS }] goes in front.  When the
    name cannot be printed the template literal of the toast throws,
    after the update of the store has been queued: the entry is stored
    and no toast is given. *)
Definition addServer (newS : obj) (app : App) : App :=
  {| servers := VObj newS :: servers app;
     toasts :=
       toasts app
       ++ match String_of (own_property "name" newS) with
          | Some n => [mkToast "Added" (n ++ " saved locally.") false]
          | None => []
          end |}.

(** [s.trim()], on the ASCII white space: tab, line feed, vertical tab,
    form feed, carriage return and space.  These are the blanks JS strips
    from an ASCII text; JS also strips the blanks of Unicode (the
    no-break space, the byte order mark, ...), of which an ASCII text has
    none. *)
Definition is_space (c : ascii) : bool :=
  let n := nat_of_ascii c in
  (Nat.leb 9 n && Nat.leb n 13) || Nat.eqb n 32.

Fixpoint trim_start (s : string) : string :=
  match s with
  | EmptyString => EmptyString
  | String c s' => if is_space c then trim_start s' else s
  end.

Fixpoint trim_end (s : string) : string :=
  match s with
  | EmptyString => EmptyString
  | String c s' =>
      match trim_end s' with
      | EmptyString =>
          if is_space c then EmptyString else String c EmptyString
      | t => String c t
      end
  end.

Definition trim (s : string) : string := trim_end (trim_start s).

(** The constant [valid] of [AddServerDialog]. *)
Definition valid (name url : string) : bool :=
  negb (String.eqb (trim name) "") && is_wss (trim url).

(** The object the Save button of [AddServerDialog] passes to [onAdd];
    [now] is the value of [Date.now()]. *)
Definition new_server (now : Z) (name url : string) (tags : list string)
  (short : string) : obj :=
  [("id", VStr ("custom-" ++ string_of_Z now));
   ("name", VStr (trim name));
   ("url", VStr (trim url));
   ("tags", VArr (map VStr tags));
   ("short", VStr short);
   ("community", VBool true)].

(** The [onClick] of the Save button; the button is disabled unless
    [valid]. *)
Definition AddServerDialog_save (now : Z) (name url : string)
  (tags : list string) (short : string) (app : App) : App :=
  if valid name url then addServer (new_server now name url tags short) app
  else app.

(** One iteration of the [map] callback of [importList]: record [s] at
    index [i], with [now] the value of [Date.now()].  It throws when [s]
    is [null] or [undefined], and when [String] throws on the name or on
    the address. *)
Definition clean_record (now : Z) (s : value) (i : nat) : throws value :=
  s_id <- prop s f_id ;;
  s_name <- prop s f_name ;;
  s_url <- prop s f_url ;;
  s_tags <- prop s f_tags ;;
  s_short <- prop s f_short ;;
  s_region <- prop s f_region ;;
  s_votes <- prop s f_votes ;;
  s_source <- prop s f_source ;;
  name_ <- String_of (js_or (js_or s_name s_url) (VStr "Unnamed")) ;;
  url_ <- String_of (js_or s_url (VStr "")) ;;
  Some (VObj
    [("id",
      js_or s_id
        (VStr ("import-" ++ string_of_Z now ++ "-" ++ string_of_nat i)));
     ("name", VStr name_);
     ("url", VStr url_);
     ("tags", match s_tags with
              | VArr ts => VArr (filter truthy ts)
              | _ => VArr []
              end);
     ("short", js_or s_short (VStr ""));
     ("region", js_or s_region (VStr ""));
     ("votes", match s_votes with
               | VNum n => VNum n
               | _ => VUndefined
               end);
     ("community", VBool true);
     ("source", js_or s_source (VStr "import"))]).

(** The [map] callback of [importList]; [now i] is what [Date.now()]
    returns in the iteration of index [i]. *)
Definition clean_at (now : nat -> Z) (s : value) (i : nat) : throws value :=
  clean_record (now i) s i.

(** The filter callback [(s) => /^wss:\/\//.test(s.url)]. *)
Definition has_wss_url (s : value) : bool :=
  is_wss (to_string (entry_url s)).

(** The constant [cleaned] of [importList]. *)
Definition cleaned (now : nat -> Z) (list_ : list value)
  : throws (list value) :=
  mapped <- mapi_throws (clean_at now) 0%nat list_ ;;
  Some (filter has_wss_url mapped).

(** [p.id || p.url]. *)
Definition entry_key (p : value) : throws value :=
  p_id <- prop p f_id ;;
  p_url <- prop p f_url ;;
  Some (js_or p_id p_url).

(** [for (const s of cleaned) byKey.set(s.id || s.url, s)]. *)
Fixpoint set_all (byKey : JsMap.t) (entries : list value) : throws JsMap.t :=
  match entries with
  | [] => Some byKey
  | s :: rest => k <- entry_key s ;; set_all (JsMap.set k s byKey) rest
  end.

(** The updater [importList] passes to [setServers]. *)
Definition merge (prev : store) (entries : list value) : throws store :=
  pairs <- map_throws (fun p => k <- entry_key p ;; Some (k, p)) prev ;;
  byKey <- set_all (JsMap.of_pairs pairs) entries ;;
  Some (JsMap.values byKey).

Definition importList (now : nat -> Z) (list_ : list value) (prev : store)
  : throws store :=
  c <- cleaned now list_ ;; merge prev c.

(* ------------------------------------------------------------------ *)
(** ** Import and export buttons: [ImportExport] *)
(* ------------------------------------------------------------------ *)

(** The errors of the host that the import handler can catch. *)
Inductive host_error : Type := ReadError | SyntaxError | TypeError.

(** What the file input holds, and what reading it gives. *)
Inductive chosen_file : Type :=
| NoFile                   (* no file was chosen *)
| Unreadable               (* [f.text()] rejects *)
| FileText (text : string).

Definition imported_toast (parsed : list value) : toast :=
  mkToast "Imported"
    ("Loaded " ++ string_of_nat (List.length parsed) ++ " servers.") false.

Definition failed_toast (err : string) : toast :=
  mkToast "Import failed" err true.

Section ImportExport.

Variable JSON_parse : string -> throws value.
Variable JSON_stringify : value -> nat -> string.

(** [String(err)] for an error thrown by the host. *)
Variable String_of_error : host_error -> string.

Definition notify (t : toast) (app : App) : App :=
  {| servers := servers app; toasts := toasts app ++ [t] |}.

(** The [onChange] handler of the file input.  The result is [None] when
    an error escapes the handler (the updater of [setServers] runs outside
    its [try]). *)
Definition onChange (file : chosen_file) (now : nat -> Z) (app : App)
  : throws App :=
  match file with
  | NoFile => Some app
  | Unreadable => Some (notify (failed_toast (String_of_error ReadError)) app)
  | FileText text =>
      match JSON_parse text with
      | None => Some (notify (failed_toast (String_of_error SyntaxError)) app)
      | Some (VArr parsed) =>
          match cleaned now parsed with
          | None =>
              Some (notify (failed_toast (String_of_error TypeError)) app)
          | Some c =>
              s <- merge (servers app) c ;;
              Some (notify (imported_toast parsed)
                      {| servers := s; toasts := toasts app |})
          end
      | Some _ => Some (notify (failed_toast "Error: Invalid JSON") app)
      end
  end.

(** The text of the file the export button offers for download. *)
Definition export_json (servers : store) : string :=
  JSON_stringify (VArr servers) 2.

End ImportExport.

(* ------------------------------------------------------------------ *)
(** ** Liveness probe: [quickPing] *)
(* ------------------------------------------------------------------ *)

(** What [new WebSocket(s.url)] does: it returns a socket, or throws [e],
    given here as the text [String(e)]. *)
Inductive construction : Type :=
| Constructed
| Threw (e : string).

(** What the event loop can deliver to one invocation. *)
Inductive probe_event : Type :=
| Open          (* the socket fires [open] *)
| Error         (* the socket fires [error] *)
| TimerFired.   (* the 3000 ms timeout elapses *)

(** The variables one invocation of [quickPing] closes over, and what it
    has done to the outside. *)
Record probe : Type := mkProbe {
  done : bool;               (* the latch *)
  timer_pending : bool;      (* set, neither cleared nor fired *)
  ws : bool;                 (* the socket exists, handlers installed *)
  close_calls : nat;         (* calls of [ws.close()] *)
  reported : list toast;     (* calls of [toast] *)
  pingingId : option string  (* the [pingingId] state of [App] *)
}.

Definition timeoutMs : Z := 3000.

Definition status_toast (s : ServerItem) (what : string) (bad : bool)
  : toast :=
  mkToast "Status" (name s ++ ": " ++ what) bad.

(** The callback given to [setTimeout]. *)
Definition on_timeout (s : ServerItem) (p : probe) : probe :=
  if negb (done p) then
    {| done := true;
       timer_pending := timer_pending p;
       ws := ws p;
       close_calls := if ws p then S (close_calls p) else close_calls p;
       reported := reported p ++ [status_toast s "timed out" true];
       pingingId := None |}
  else p.

(** [ws.onopen]. *)
Definition onopen (s : ServerItem) (p : probe) : probe :=
  if done p then p
  else
    {| done := true;
       timer_pending := false;
       ws := ws p;
       close_calls := S (close_calls p);
       reported :=
         reported p ++ [status_toast s "online (socket opened)" false];
       pingingId := None |}.

(** [ws.onerror]. *)
Definition onerror (s : ServerItem) (p : probe) : probe :=
  if done p then p
  else
    {| done := true;
       timer_pending := false;
       ws := ws p;
       close_calls := close_calls p;
       reported := reported p ++ [status_toast s "unreachable" true];
       pingingId := None |}.

(** The synchronous part of [quickPing(s)]. *)
Definition quickPing (s : ServerItem) (c : construction) : probe :=
  match c with
  | Constructed =>
      {| done := false; timer_pending := true; ws := true;
         close_calls := 0%nat; reported := []; pingingId := Some (id s) |}
  | Threw e =>
      {| done := false; timer_pending := false; ws := false;
         close_calls := 0%nat; reported := [status_toast s e true];
         pingingId := None |}
  end.

(** The event loop: a timeout runs its callback once, and only while it
    is pending; a socket event runs the handler installed on the socket. *)
Definition deliver (s : ServerItem) (p : probe) (ev : probe_event) : probe :=
  match ev with
  | TimerFired =>
      if timer_pending p then
        on_timeout s
          {| done := done p; timer_pending := false; ws := ws p;
             close_calls := close_calls p; reported := reported p;
             pingingId := pingingId p |}
      else p
  | Open => if ws p then onopen s p else p
  | Error => if ws p then onerror s p else p
  end.

Definition run (s : ServerItem) (p : probe) (evs : list probe_event)
  : probe :=
  fold_left (deliver s) evs p.

(** The toast each event produces when it is the first to arrive. *)
Definition outcome_toast (s : ServerItem) (ev : probe_event) : toast :=
  match ev with
  | Open => status_toast s "online (socket opened)" false
  | Error => status_toast s "unreachable" true
  | TimerFired => status_toast s "timed out" true
  end.

(* ------------------------------------------------------------------ *)
(** ** Class names: [cn] *)
(* ------------------------------------------------------------------ *)

(** [l.join(sep)]: [null] and [undefined] elements print as nothing. *)
Fixpoint join (sep : string) (l : list value) : string :=
  match l with
  | [] => ""
  | x :: rest =>
      let sx := match x with
                | VUndefined | VNull => ""
                | _ => to_string x
                end in
      match rest with
      | [] => sx
      | _ :: _ => (sx ++ sep ++ join sep rest)%string
      end
  end.

(** [cn(...parts)]. *)
Definition cn (parts : list value) : string := join " " (filter truthy parts).

(* ------------------------------------------------------------------ *)
(** ** Tag check boxes: [Filters] and [AddServerDialog] *)
(* ------------------------------------------------------------------ *)

(** [selected.includes(t)], what the box of the tag [t] shows. *)
Definition checked (t : string) (selected : list string) : bool :=
  existsb (String.eqb t) selected.

(** The [onCheckedChange] handler of the box of [t]; [c] is the truth
    value of the state the box reports. *)
Definition onCheckedChange (c : bool) (t : string) (selected : list string)
  : list string :=
  if c then selected ++ [t]
  else filter (fun x => negb (String.eqb x t)) selected.

(* ------------------------------------------------------------------ *)
(** ** Theme: [useTheme] *)
(* ------------------------------------------------------------------ *)

Definition THEME_KEY : string := "eaglercraft-theme".

(** The second operand of the initializer; [matchMedia] is [None] when
    [window.matchMedia] is missing, and otherwise what the query
    [(prefers-color-scheme: dark)] matches. *)
Definition system_theme (matchMedia : option bool) : string :=
  match matchMedia with
  | Some true => "dark"
  | _ => "light"
  end.

(** The initializer of the [theme] state; [st] is what
    [localStorage.getItem(THEME_KEY)] does.  Nothing catches a throw. *)
Definition initial_theme (st : stored) (matchMedia : option bool)
  : throws string :=
  match st with
  | GetItemThrows => None
  | GetItem None => Some (system_theme matchMedia)
  | GetItem (Some t) =>
      Some (if String.eqb t "" then system_theme matchMedia else t)
  end.

(** The updater of [toggle]. *)
Definition toggle (t : string) : string :=
  if String.eqb t "dark" then "light" else "dark".

(** The effect: whether the root element has the class [dark], and what
    [localStorage.setItem(THEME_KEY, theme)] stores. *)
Definition dark_class (theme : string) : bool := String.eqb theme "dark".

Definition persisted_theme (theme : string) : stored := GetItem (Some theme).

(* ------------------------------------------------------------------ *)
(** ** Vocabulary of the statements *)
(* ------------------------------------------------------------------ *)

(** The ids of a store, in order. *)
Definition ids (l : store) : list value := map entry_id l.

(** The store invariant: no two entries share an id. *)
Definition unique_ids (l : store) : Prop := NoDup (ids l).

(** Some entry of [l] has the id [k]. *)
Definition id_in (k : value) (l : store) : bool :=
  existsb (fun e => same_value_zero (entry_id e) k) l.

(** The first entry of [l] whose id is [k]. *)
Definition find_by_id (k : value) (l : store) : option value :=
  find (fun e => same_value_zero (entry_id e) k) l.

(** The key under which a merge files an entry, in the words of the
    specification: the id of the entry if it has one (a truthy one), and
    its address otherwise. *)
Definition key_of (p : value) : value :=
  if truthy (entry_id p) then entry_id p else entry_url p.

(** The loop [for (const s of entries) byKey.set(s.id || s.url, s)] over
    entries that can all be read. *)
Definition upsert_all (byKey : JsMap.t) (entries : list value) : JsMap.t :=
  fold_left (fun m s => JsMap.set (key_of s) s m) entries byKey.

Definition find_by_key (k : value) (l : store) : option value :=
  find (fun e => same_value_zero (key_of e) k) l.

(** Neither [null] nor [undefined]: a value whose properties can be read. *)
Definition readable (v : value) : bool :=
  match v with
  | VUndefined | VNull => false
  | _ => true
  end.

Definition is_record (v : value) : bool :=
  match v with
  | VObj _ => true
  | _ => false
  end.

(** A sequence of records: an array whose elements are all objects. *)
Definition record_sequence (v : value) : bool :=
  match v with
  | VArr elems => forallb is_record elems
  | _ => false
  end.

Definition is_array (v : value) : bool :=
  match v with
  | VArr _ => true
  | _ => false
  end.

(** Every entry of the [Map] is filed under its own key [kf]. *)
Definition keyed (kf : value -> value) (m : JsMap.t) : Prop :=
  Forall (fun kv => fst kv = kf (snd kv)) m.

(** The argument of [new Map] that files each entry under its key. *)
Definition index (kf : value -> value) (l : list value)
  : list (value * value) :=
  map (fun e => (kf e, e)) l.

(** Decoding the text of a file, as the import handler does it: parse,
    insist on an array, sanitize.  [None] is a failure of the whole
    import. *)
Definition decode (JSON_parse : string -> throws value) (now : nat -> Z)
  (text : string) : throws (list value) :=
  parsed <- JSON_parse text ;;
  match parsed with
  | VArr list_ => cleaned now list_
  | _ => None
  end.

(** The vote count of an entry, an absent one counting as 0. *)
Definition voteCount (s : ServerItem) : Z :=
  match votes s with
  | Some n => n
  | None => 0
  end.

(** A click on the box of the tag [t]: the box reports the opposite of
    what it shows. *)
Definition click_tag (t : string) (selected : list string) : list string :=
  onCheckedChange (negb (checked t selected)) t selected.

(** What the user can do to the store: save the dialog, or pick a file
    to import (with whatever the host and the clock do meanwhile). *)
Inductive user_step : App -> App -> Prop :=
| save_step (now : Z) (name url : string) (tags : list string)
    (short : string) (app : App) :
    user_step app (AddServerDialog_save now name url tags short app)
| import_step (JSON_parse : string -> throws value)
    (String_of_error : host_error -> string) (file : chosen_file)
    (now : nat -> Z) (app app' : App) :
    onChange JSON_parse String_of_error file now app = Some app' ->
    user_step app app'.

Inductive reachable (start : App) : App -> Prop :=
| reach_start : reachable start start
| reach_step (app app' : App) :
    reachable start app -> user_step app app' -> reachable start app'.

(** The keys of [ks] in the order in which they first appear. *)
Definition first_seen (ks : list value) : list value :=
  fold_left
    (fun seen k =>
       if existsb (fun k' => same_value_zero k' k) seen then seen
       else seen ++ [k])
    ks [].

(** The source label of an entry as the sort by source counts it: an
    entry without a label, or with an empty one, counts as labelled
    [zzz]. *)
Definition sourceLabel (s : ServerItem) : string :=
  match source s with
  | Some l => if String.eqb l "" then "zzz" else l
  | None => "zzz"
  end.

Definition is_string (v : value) : bool :=
  match v with
  | VStr _ => true
  | _ => false
  end.

(** An ASCII text: on such a string [toLowerCase], [toUpperCase] and
    [trim] do what the functions of JS do. *)
Definition ascii_char (c : ascii) : bool := Nat.ltb (nat_of_ascii c) 128.

Fixpoint ascii_text (s : string) : bool :=
  match s with
  | EmptyString => true
  | String c s' => ascii_char c && ascii_text s'
  end.

(** An entry whose name and address are ASCII texts. *)
Definition ascii_item (s : ServerItem) : bool :=
  ascii_text (name s) && ascii_text (url s).

(** A value that [String] prints as [to_string] says: it holds no object
    with an own [toString], and no number beyond the safe integers
    (which JS prints rounded, or with an exponent). *)
Fixpoint printable (v : value) : bool :=
  match v with
  | VNum n => Z.abs n <=? 9007199254740991
  | VArr l =>
      (fix all (l : list value) {struct l} : bool :=
         match l with
         | [] => true
         | x :: rest => printable x && all rest
         end) l
  | VObj ps => negb (has_own "toString" ps)
  | _ => true
  end.

(** The two values of a record that [importList] prints: the name or,
    without one, the address or the text [Unnamed]; and the address or
    the empty text. *)
Definition shown_name (s : value) : value :=
  if truthy (field_of s f_name) then field_of s f_name
  else if truthy (field_of s f_url) then field_of s f_url
  else VStr "Unnamed".

Definition shown_url (s : value) : value :=
  if truthy (field_of s f_url) then field_of s f_url else VStr "".

(** The address a decoded record gets: the text of the address of the
    record, or the empty text when the record has none. *)
Definition address_of_record (r : obj) : string :=
  to_string (shown_url (VObj r)).

(** A record that [importList] can decode: its properties can be read,
    and its name and address can be printed. *)
Definition decodes (s : value) : bool :=
  readable s && prints (shown_name s) && prints (shown_url s).

(** A comparison of strings that is a consistent comparator in the sense
    of ECMAScript, for which alone the order [Array.prototype.sort]
    returns is specified. *)
Definition consistent (cmp : string -> string -> Z) : Prop :=
  (forall a, cmp a a = 0)
  /\ (forall a b, cmp a b < 0 <-> cmp b a > 0)
  /\ (forall a b c, cmp a b <= 0 -> cmp b c <= 0 -> cmp a c <= 0).

(** A string without the character [-]. *)
Fixpoint no_dash (s : string) : bool :=
  match s with
  | EmptyString => true
  | String c s' => negb (Ascii.eqb c "-") && no_dash s'
  end.

(** A comparison of strings with which the host could compare: the order
    of the bytes. *)
Definition byte_order (a b : string) : Z :=
  match String.compare a b with
  | Lt => -1
  | Eq => 0
  | Gt => 1
  end.

(* ------------------------------------------------------------------ *)
(** ** Sample data *)
(* ------------------------------------------------------------------ *)

(** A double quote, and a quoted JSON string without escapes. *)
Definition dq : string := String (ascii_of_nat 34) EmptyString.

Definition quoted (s : string) : string := (dq ++ s ++ dq)%string.

Fixpoint join_with (sep : string) (l : list string) : string :=
  match l with
  | [] => ""
  | [x] => x
  | x :: rest => (x ++ sep ++ join_with sep rest)%string
  end.

(** The compact JSON text of an array of objects with string properties,
    as [JSON.stringify] writes it. *)
Definition json_member (kv : string * string) : string :=
  (quoted (fst kv) ++ ":" ++ quoted (snd kv))%string.

Definition json_object (members : list (string * string)) : string :=
  ("{" ++ join_with "," (map json_member members) ++ "}")%string.

Definition json_array (objects : list (list (string * string))) : string :=
  ("[" ++ join_with "," (map json_object objects) ++ "]")%string.

Definition string_obj (members : list (string * string)) : obj :=
  map (fun kv => (fst kv, VStr (snd kv))) members.

(** A host parser that knows one text: it reads [text] as [v] and rejects
    everything else. *)
Definition parse_only (text : string) (v : value) : string -> throws value :=
  fun raw => if String.eqb raw text then Some v else None.

(** A snapshot with an override of the seed [nexo] and a custom entry. *)
Definition sample_persisted : list (list (string * string)) :=
  [ [("id", "nexo"); ("name", "My Nexo"); ("url", "wss://my.nexo.example")];
    [("id", "custom-1"); ("name", "Mine"); ("url", "wss://mine.example")] ].

(** A snapshot of two records without an id and with addresses that are
    not [wss://] addresses. *)
Definition sample_no_ids : list (list (string * string)) :=
  [ [("name", "A"); ("url", "ws://a.example")];
    [("name", "B"); ("url", "ws://b.example")] ].

(** An import file with one record whose address is no [wss://] address. *)
Definition sample_bad : list (list (string * string)) :=
  [ [("name", "Bad"); ("url", "ftp://nope")] ].

(** An import file with one good and one bad record. *)
Definition sample_mixed : list (list (string * string)) :=
  [ [("name", "Good"); ("url", "wss://good.example")];
    [("name", "Bad"); ("url", "ftp://nope")] ].

(** An entry whose address is no [wss://] address, and the text of the
    export of a store that holds it alone. *)
Definition sample_ws_entry : ServerItem :=
  mkServerItem "a" "A" "ws://a.example" None None None None None None.

Definition sample_ws_export : string :=
  json_array [ [("id", "a"); ("name", "A"); ("url", "ws://a.example")] ].

(** Two entries with [wss://] addresses, and the text of their export. *)
Definition sample_entries : list ServerItem :=
  [ mkServerItem "a" "A" "wss://a.example" None None None None None None;
    mkServerItem "b" "B" "wss://b.example" None None None None None None ].

Definition sample_export : string :=
  json_array [ [("id", "a"); ("name", "A"); ("url", "wss://a.example")];
               [("id", "b"); ("name", "B"); ("url", "wss://b.example")] ].

(** A host whose every error prints as the same text. *)
Definition sample_error_text : host_error -> string := fun _ => "error".

(** A snapshot of one such record. *)
Definition sample_plain : list (list (string * string)) :=
  [ [("name", "Plain"); ("url", "ws://plain.example")] ].

(** The store after one save of the dialog on the seeds, and a host
    that writes a store as a text of its own. *)
Definition sample_saved_store : store :=
  VObj (new_server 1700000000000 " Mine " "wss://mine.example " ["PvP"] "")
  :: seed_store.

Definition sample_stringify : value -> nat -> string :=
  fun _ _ => "[saved]".

(** The decoded records of a file that overrides the seed [nexo] and
    brings a new entry. *)
Definition sample_decoded : list value :=
  [ VObj [("id", VStr "nexo"); ("name", VStr "My Nexo");
          ("url", VStr "wss://my.nexo.example")];
    VObj [("id", VStr "custom-1"); ("name", VStr "Mine");
          ("url", VStr "wss://mine.example")] ].

(** A clock that stands still. *)
Definition sample_clock : nat -> Z := fun _ => 1700000000001%Z.

(** The application after that save, and the import of a file with one
    good and one bad record. *)
Definition sample_saved : App :=
  AddServerDialog_save 1700000000000 " Mine " "wss://mine.example " ["PvP"] ""
    (mkApp seed_store []).

Definition sample_import (app : App) : throws App :=
  onChange
    (parse_only (json_array sample_mixed)
       (VArr (map VObj (map string_obj sample_mixed))))
    sample_error_text (FileText (json_array sample_mixed)) sample_clock app.

(* ------------------------------------------------------------------ *)
(** ** Values: equality *)
(* ------------------------------------------------------------------ *)

Lemma value_nested_ind (P : value -> Prop) :
  P VUndefined -> P VNull ->
  (forall b, P (VBool b)) -> (forall n, P (VNum n)) ->
  (forall s, P (VStr s)) ->
  (forall l, Forall P l -> P (VArr l)) ->
  (forall ps, Forall (fun kv => P (snd kv)) ps -> P (VObj ps)) ->
  forall v, P v.
Proof.
  intros Hu Hn Hb Hz Hs Ha Ho.
  fix IH 1.
  intros [ | | b | n | s | l | ps ].
  - exact Hu.
  - exact Hn.
  - apply Hb.
  - apply Hz.
  - apply Hs.
  - apply Ha. induction l as [ | x l IHl ]; constructor.
    + apply IH.
    + exact IHl.
  - apply Ho. induction ps as [ | [k x] ps IHps ]; constructor.
    + apply IH.
    + exact IHps.
Qed.

Lemma value_eqb_refl (v : value) : value_eqb v v = true.
Proof.
  induction v as [ | | b | n | s | l IHl | ps IHps ] using value_nested_ind;
    simpl; auto.
  - now destruct b.
  - apply Z.eqb_refl.
  - apply String.eqb_refl.
  - induction IHl as [ | x l Hx _ IH ]; auto.
    now rewrite Hx, IH.
  - induction IHps as [ | [k x] ps Hx _ IH ]; auto.
    simpl in Hx. now rewrite String.eqb_refl, Hx, IH.
Qed.

Lemma value_eqb_sound (a : value) : forall b, value_eqb a b = true -> a = b.
Proof.
  induction a as [ | | x | x | x | l IHl | ps IHps ] using value_nested_ind;
    intros [ | | y | y | y | l' | ps' ]; simpl; try discriminate; auto.
  - intros H. apply Bool.eqb_prop in H. now subst.
  - intros H. apply Z.eqb_eq in H. now subst.
  - intros H. apply String.eqb_eq in H. now subst.
  - intros H. f_equal. revert l' H.
    induction IHl as [ | x l Hx _ IH ]; intros [ | y l' ]; try discriminate;
      auto.
    intros H. apply andb_true_iff in H as [H1 H2].
    f_equal; auto.
  - intros H. f_equal. revert ps' H.
    induction IHps as [ | [k x] ps Hx _ IH ]; intros [ | [k' y] ps' ];
      try discriminate; auto.
    intros H. apply andb_true_iff in H as [H12 H3].
    apply andb_true_iff in H12 as [H1 H2].
    apply String.eqb_eq in H1. simpl in Hx. apply Hx in H2.
    subst. f_equal. auto.
Qed.

Lemma same_value_zero_eq (a b : value) : same_value_zero a b = true <-> a = b.
Proof.
  unfold same_value_zero. split.
  - apply value_eqb_sound.
  - intros ->. apply value_eqb_refl.
Qed.

Lemma same_value_zero_refl (a : value) : same_value_zero a a = true.
Proof. now apply same_value_zero_eq. Qed.

Lemma same_value_zero_neq (a b : value) :
  same_value_zero a b = false <-> a <> b.
Proof.
  rewrite <- same_value_zero_eq.
  destruct (same_value_zero a b); split; intros; congruence.
Qed.

Lemma same_value_zero_sym (a b : value) :
  same_value_zero a b = same_value_zero b a.
Proof.
  destruct (same_value_zero a b) eqn:E.
  - apply same_value_zero_eq in E. subst. symmetry.
    apply same_value_zero_refl.
  - symmetry. apply same_value_zero_neq. apply same_value_zero_neq in E.
    congruence.
Qed.

(* ------------------------------------------------------------------ *)
(** ** Lists searched by a key *)
(* ------------------------------------------------------------------ *)

Section FindByKey.

Variable kf : value -> value.

Lemma find_key_some (k e : value) (l : list value) :
  find (fun e => same_value_zero (kf e) k) l = Some e -> In e l /\ kf e = k.
Proof.
  intros H. apply find_some in H as [H1 H2].
  split; [ exact H1 | now apply same_value_zero_eq ].
Qed.

Lemma find_key_none (k : value) (l : list value) :
  find (fun e => same_value_zero (kf e) k) l = None <-> ~ In k (map kf l).
Proof.
  induction l as [ | x l IH ]; simpl.
  - tauto.
  - destruct (same_value_zero (kf x) k) eqn:E.
    + apply same_value_zero_eq in E. split; [ discriminate | tauto ].
    + apply same_value_zero_neq in E. rewrite IH. tauto.
Qed.

Lemma find_key_unique (e : value) (l : list value) :
  NoDup (map kf l) -> In e l ->
  find (fun x => same_value_zero (kf x) (kf e)) l = Some e.
Proof.
  induction l as [ | x l IH ]; simpl; intros Hnd Hin.
  - contradiction.
  - inversion Hnd as [ | ? ? Hx Hl ]; subst.
    destruct Hin as [ -> | Hin ].
    + now rewrite same_value_zero_refl.
    + destruct (same_value_zero (kf x) (kf e)) eqn:E.
      * apply same_value_zero_eq in E. exfalso. apply Hx. rewrite E.
        now apply in_map.
      * now apply IH.
Qed.

Lemma find_key_app (k : value) (l1 l2 : list value) :
  find (fun e => same_value_zero (kf e) k) (l1 ++ l2)
  = match find (fun e => same_value_zero (kf e) k) l1 with
    | Some e => Some e
    | None => find (fun e => same_value_zero (kf e) k) l2
    end.
Proof.
  induction l1 as [ | x l1 IH ]; simpl; auto.
  now destruct (same_value_zero (kf x) k).
Qed.

Lemma find_key_last (l1 l2 : list value) (e : value) :
  ~ In (kf e) (map kf l2) ->
  find (fun x => same_value_zero (kf x) (kf e)) (rev (l1 ++ e :: l2))
  = Some e.
Proof.
  intros H. rewrite rev_app_distr. simpl. rewrite <- app_assoc. simpl.
  rewrite find_key_app.
  assert (E : find (fun x => same_value_zero (kf x) (kf e)) (rev l2) = None).
  { apply find_key_none. rewrite map_rev. intros H'. apply H.
    now apply in_rev in H'. }
  rewrite E. simpl. now rewrite same_value_zero_refl.
Qed.

Lemma NoDup_map_In_eq (l : list value) (a b : value) :
  NoDup (map kf l) -> In a l -> In b l -> kf a = kf b -> a = b.
Proof.
  induction l as [ | x l IH ]; simpl; intros Hnd Ha Hb Hab.
  - contradiction.
  - inversion Hnd as [ | ? ? Hx Hl ]; subst.
    destruct Ha as [ -> | Ha ], Hb as [ -> | Hb ]; auto.
    + exfalso. apply Hx. rewrite Hab. now apply in_map.
    + exfalso. apply Hx. rewrite <- Hab. now apply in_map.
Qed.

End FindByKey.

(* ------------------------------------------------------------------ *)
(** ** Facts about [Map] *)
(* ------------------------------------------------------------------ *)

Lemma has_In (k : value) (m : JsMap.t) :
  JsMap.has k m = true <-> In k (JsMap.keys m).
Proof.
  induction m as [ | [k' v'] m IH ]; simpl.
  - split; [ discriminate | tauto ].
  - rewrite orb_true_iff, IH, same_value_zero_eq. tauto.
Qed.

Lemma has_false_In (k : value) (m : JsMap.t) :
  JsMap.has k m = false <-> ~ In k (JsMap.keys m).
Proof.
  rewrite <- has_In. destruct (JsMap.has k m); split; congruence.
Qed.

Lemma get_has (k : value) (m : JsMap.t) :
  JsMap.has k m = true <-> exists v, JsMap.get k m = Some v.
Proof.
  induction m as [ | [k' v'] m IH ]; simpl.
  - split; [ discriminate | intros [v H]; discriminate ].
  - destruct (same_value_zero k' k); simpl.
    + split; auto. intros _. now exists v'.
    + exact IH.
Qed.

Lemma get_not_has (k : value) (m : JsMap.t) :
  JsMap.has k m = false -> JsMap.get k m = None.
Proof.
  intros H. destruct (JsMap.get k m) as [ v | ] eqn:E; auto.
  assert (JsMap.has k m = true) by (apply get_has; now exists v).
  congruence.
Qed.

Lemma get_set (k v k' : value) (m : JsMap.t) :
  JsMap.get k' (JsMap.set k v m)
  = if same_value_zero k k' then Some v else JsMap.get k' m.
Proof.
  induction m as [ | [k1 v1] m IH ]; simpl.
  - reflexivity.
  - destruct (same_value_zero k1 k) eqn:E1; simpl.
    + apply same_value_zero_eq in E1. subst k1.
      now destruct (same_value_zero k k').
    + rewrite IH.
      destruct (same_value_zero k1 k') eqn:E2; auto.
      apply same_value_zero_eq in E2. subst k'.
      rewrite same_value_zero_sym, E1. reflexivity.
Qed.

Lemma set_fresh (k v : value) (m : JsMap.t) :
  JsMap.has k m = false -> JsMap.set k v m = m ++ [(k, v)].
Proof.
  induction m as [ | [k1 v1] m IH ]; simpl; auto.
  intros H. apply orb_false_iff in H as [H1 H2].
  rewrite H1. f_equal. auto.
Qed.

Lemma keys_set (k v : value) (m : JsMap.t) :
  JsMap.keys (JsMap.set k v m)
  = if JsMap.has k m then JsMap.keys m else JsMap.keys m ++ [k].
Proof.
  induction m as [ | [k1 v1] m IH ]; simpl; auto.
  destruct (same_value_zero k1 k); simpl; auto.
  rewrite IH. now destruct (JsMap.has k m).
Qed.

Lemma NoDup_snoc {A : Type} (x : A) (l : list A) :
  NoDup l -> ~ In x l -> NoDup (l ++ [x]).
Proof.
  intros Hl Hx. apply NoDup_rev in Hl.
  rewrite <- (rev_involutive (l ++ [x])). apply NoDup_rev.
  rewrite rev_app_distr. simpl. constructor; auto.
  now rewrite <- in_rev.
Qed.

Lemma NoDup_keys_set (k v : value) (m : JsMap.t) :
  NoDup (JsMap.keys m) -> NoDup (JsMap.keys (JsMap.set k v m)).
Proof.
  intros H. rewrite keys_set.
  destruct (JsMap.has k m) eqn:E; auto.
  apply NoDup_snoc; auto. now apply has_false_In.
Qed.

Lemma of_pairs_snoc (ps : list (value * value)) (p : value * value) :
  JsMap.of_pairs (ps ++ [p])
  = JsMap.set (fst p) (snd p) (JsMap.of_pairs ps).
Proof. unfold JsMap.of_pairs. now rewrite fold_left_app. Qed.

Lemma NoDup_keys_of_pairs (ps : list (value * value)) :
  NoDup (JsMap.keys (JsMap.of_pairs ps)).
Proof.
  induction ps as [ | p ps IH ] using rev_ind.
  - constructor.
  - rewrite of_pairs_snoc. now apply NoDup_keys_set.
Qed.

(** A [Map] whose keys are pairwise different is the [Map] built from its
    own entries. *)
Lemma of_pairs_self (ps : list (value * value)) :
  NoDup (map fst ps) -> JsMap.of_pairs ps = ps.
Proof.
  induction ps as [ | p ps IH ] using rev_ind; intros H.
  - reflexivity.
  - rewrite of_pairs_snoc. rewrite map_app in H. simpl in H.
    assert (Hps : NoDup (map fst ps)).
    { apply NoDup_remove_1 with (l' := []) in H.
      now rewrite app_nil_r in H. }
    rewrite IH by exact Hps.
    rewrite set_fresh; [ now destruct p | ].
    apply has_false_In.
    apply NoDup_remove_2 with (l' := []) in H. now rewrite app_nil_r in H.
Qed.

(** Two [Map]s with the same keys in the same order and the same value at
    every key are the same. *)
Lemma map_ext_get (m1 : JsMap.t) :
  forall m2 : JsMap.t,
  NoDup (JsMap.keys m1) -> JsMap.keys m1 = JsMap.keys m2 ->
  (forall k, JsMap.get k m1 = JsMap.get k m2) -> m1 = m2.
Proof.
  induction m1 as [ | [k1 v1] m1 IH ]; intros [ | [k2 v2] m2 ] Hnd Hk Hg;
    simpl in *; try discriminate; auto.
  injection Hk as -> Hk.
  inversion Hnd as [ | ? ? Hx Hl ]; subst.
  pose proof (Hg k2) as Hg2. rewrite same_value_zero_refl in Hg2.
  injection Hg2 as ->.
  f_equal. apply IH; auto.
  intros k. specialize (Hg k).
  destruct (same_value_zero k2 k) eqn:E; auto.
  apply same_value_zero_eq in E. subst k.
  rewrite !get_not_has; auto; apply has_false_In; congruence.
Qed.

(* ------------------------------------------------------------------ *)
(** ** [Map]s that index a list of entries by a key of the entry *)
(* ------------------------------------------------------------------ *)

Section Keyed.

Variable kf : value -> value.

Lemma keyed_set (k v : value) (m : JsMap.t) :
  keyed kf m -> k = kf v -> keyed kf (JsMap.set k v m).
Proof.
  intros Hm ->. induction m as [ | [k1 v1] m IH ]; simpl.
  - repeat constructor.
  - inversion Hm as [ | ? ? H1 H2 ]; subst.
    destruct (same_value_zero k1 (kf v)) eqn:E.
    + apply same_value_zero_eq in E. constructor; [ exact E | exact H2 ].
    + constructor; [ exact H1 | now apply IH ].
Qed.

Lemma keyed_of_pairs (l : list value) :
  keyed kf (JsMap.of_pairs (index kf l)).
Proof.
  induction l as [ | x l IH ] using rev_ind.
  - constructor.
  - unfold index. rewrite map_app. simpl. rewrite of_pairs_snoc.
    now apply keyed_set.
Qed.

Lemma keyed_index (m : JsMap.t) : keyed kf m -> index kf (JsMap.values m) = m.
Proof.
  induction 1 as [ | [k v] m H _ IH ]; simpl; auto.
  simpl in H. subst k. f_equal. exact IH.
Qed.

Lemma keyed_keys (m : JsMap.t) :
  keyed kf m -> JsMap.keys m = map kf (JsMap.values m).
Proof.
  induction 1 as [ | [k v] m H _ IH ]; simpl; auto.
  simpl in H. subst k. f_equal. exact IH.
Qed.

Lemma keyed_find (k : value) (m : JsMap.t) :
  keyed kf m ->
  find (fun e => same_value_zero (kf e) k) (JsMap.values m) = JsMap.get k m.
Proof.
  induction 1 as [ | [k1 v1] m H _ IH ]; simpl; auto.
  simpl in H. subst k1. now rewrite IH.
Qed.

(** Looking a key up in [new Map(l.map(e => [key(e), e]))] finds the last
    entry of [l] with that key. *)
Lemma get_of_pairs (k : value) (l : list value) :
  JsMap.get k (JsMap.of_pairs (index kf l))
  = find (fun e => same_value_zero (kf e) k) (rev l).
Proof.
  induction l as [ | x l IH ] using rev_ind.
  - reflexivity.
  - unfold index. rewrite map_app. simpl. rewrite of_pairs_snoc. simpl.
    rewrite get_set, rev_app_distr. simpl.
    destruct (same_value_zero (kf x) k); auto.
Qed.

Lemma of_pairs_index_NoDup (l : list value) :
  NoDup (map kf l) -> JsMap.of_pairs (index kf l) = index kf l.
Proof.
  intros H. apply of_pairs_self. unfold index. rewrite map_map. exact H.
Qed.

Lemma values_index (l : list value) : JsMap.values (index kf l) = l.
Proof.
  unfold JsMap.values, index. rewrite map_map. simpl. apply map_id.
Qed.

End Keyed.

(* ------------------------------------------------------------------ *)
(** ** Callbacks that may throw *)
(* ------------------------------------------------------------------ *)

Lemma map_throws_total {A B : Type} (f : A -> throws B) (g : A -> B)
  (l : list A) :
  Forall (fun x => f x = Some (g x)) l -> map_throws f l = Some (map g l).
Proof.
  induction 1 as [ | x l Hx _ IH ]; simpl; auto.
  now rewrite Hx, IH.
Qed.

Lemma map_throws_fails {A B : Type} (f : A -> throws B) (l : list A) (x : A) :
  In x l -> f x = None -> map_throws f l = None.
Proof.
  induction l as [ | y l IH ]; simpl; intros Hin Hx.
  - contradiction.
  - destruct Hin as [ -> | Hin ].
    + now rewrite Hx.
    + destruct (f y); simpl; auto. now rewrite IH.
Qed.

Lemma mapi_throws_total {A B : Type} (f : A -> nat -> throws B)
  (g : A -> nat -> B) (l : list A) :
  forall i,
  (forall x j, In x l -> f x j = Some (g x j)) ->
  exists ys, mapi_throws f i l = Some ys
             /\ List.length ys = List.length l
             /\ forall j x, nth_error l j = Some x ->
                            nth_error ys j = Some (g x (i + j)%nat).
Proof.
  induction l as [ | x l IH ]; intros i H; simpl.
  - exists []. repeat split; auto. intros [ | j ] x; discriminate.
  - rewrite (H x i) by now left. simpl.
    destruct (IH (S i)) as [ys [E [Hlen Hnth]]].
    { intros y j Hy. apply H. now right. }
    rewrite E. simpl. exists (g x i :: ys). repeat split.
    + simpl. now rewrite Hlen.
    + intros [ | j ] y; simpl.
      * intros [= ->]. now rewrite Nat.add_0_r.
      * intros Hy. rewrite (Hnth j y Hy). f_equal. f_equal. lia.
Qed.

Lemma readable_prop (v : value) (f : field) :
  readable v = true -> prop v f = Some (field_of v f).
Proof. destruct v; simpl; auto; discriminate. Qed.

Lemma unreadable_prop (v : value) (f : field) :
  readable v = false -> prop v f = None.
Proof. destruct v; simpl; auto; discriminate. Qed.

Lemma readable_entry_key (v : value) :
  readable v = true -> entry_key v = Some (key_of v).
Proof. destruct v; simpl; auto; discriminate. Qed.

Lemma unreadable_entry_key (v : value) :
  readable v = false -> entry_key v = None.
Proof. destruct v; simpl; auto; discriminate. Qed.

Lemma readable_dec (l : list value) :
  Forall (fun v => readable v = true) l
  \/ exists x, In x l /\ readable x = false.
Proof.
  induction l as [ | x l [IH | [y [Hy1 Hy2]]] ].
  - left. constructor.
  - destruct (readable x) eqn:E.
    + left. now constructor.
    + right. exists x. split; [ now left | exact E ].
  - right. exists y. split; [ now right | exact Hy2 ].
Qed.

Lemma id_pairs_readable (l : list value) :
  Forall (fun v => readable v = true) l ->
  id_pairs l = Some (index entry_id l).
Proof.
  intros H. unfold id_pairs, index. apply map_throws_total.
  eapply Forall_impl; [ | exact H ].
  intros v Hv. unfold entry_id. now rewrite (readable_prop v f_id Hv).
Qed.

Lemma id_pairs_unreadable (l : list value) (x : value) :
  In x l -> readable x = false -> id_pairs l = None.
Proof.
  intros Hin Hx. unfold id_pairs.
  apply map_throws_fails with (x := x); auto.
  now rewrite (unreadable_prop x f_id Hx).
Qed.

(* ------------------------------------------------------------------ *)
(** ** [loadServers] *)
(* ------------------------------------------------------------------ *)

Lemma entry_id_item (s : ServerItem) : entry_id (item_value s) = VStr (id s).
Proof. reflexivity. Qed.

Lemma entry_url_item (s : ServerItem) :
  entry_url (item_value s) = VStr (url s).
Proof. reflexivity. Qed.

Lemma has_index_id_in (k : value) (l : store) :
  JsMap.has k (index entry_id l) = id_in k l.
Proof.
  induction l as [ | x l IH ]; simpl; auto. now rewrite IH.
Qed.

Lemma keyed_add_seeds (seeds : list ServerItem) :
  forall m, keyed entry_id m -> keyed entry_id (fold_left add_seed seeds m).
Proof.
  induction seeds as [ | s seeds IH ]; simpl; auto.
  intros m Hm. apply IH. unfold add_seed.
  destruct (negb (JsMap.has (VStr (id s)) m)); auto.
  now apply keyed_set.
Qed.

Lemma NoDup_keys_add_seeds (seeds : list ServerItem) :
  forall m, NoDup (JsMap.keys m) ->
            NoDup (JsMap.keys (fold_left add_seed seeds m)).
Proof.
  induction seeds as [ | s seeds IH ]; simpl; auto.
  intros m Hm. apply IH. unfold add_seed.
  destruct (negb (JsMap.has (VStr (id s)) m)); auto.
  now apply NoDup_keys_set.
Qed.

(** After the seed loop a key holds what it held before, and a key that
    held nothing holds the first seed of that id. *)
Lemma get_add_seeds (k : value) (seeds : list ServerItem) :
  forall m,
  JsMap.get k (fold_left add_seed seeds m)
  = match JsMap.get k m with
    | Some e => Some e
    | None => find_by_id k (map item_value seeds)
    end.
Proof.
  induction seeds as [ | s seeds IH ]; intros m.
  - simpl. now destruct (JsMap.get k m).
  - cbn [fold_left map]. rewrite IH. unfold find_by_id. cbn [find].
    rewrite entry_id_item. fold (find_by_id k (map item_value seeds)).
    unfold add_seed.
    destruct (JsMap.has (VStr (id s)) m) eqn:Hhas; cbn [negb].
    + destruct (JsMap.get k m) as [ e | ] eqn:Hget; auto.
      destruct (same_value_zero (VStr (id s)) k) eqn:E; auto.
      apply same_value_zero_eq in E. subst k.
      apply get_has in Hhas as [v Hv]. congruence.
    + rewrite get_set.
      destruct (same_value_zero (VStr (id s)) k) eqn:E; auto.
      apply same_value_zero_eq in E. subst k.
      now rewrite (get_not_has _ _ Hhas).
Qed.

Lemma has_app (k : value) (m1 m2 : JsMap.t) :
  JsMap.has k (m1 ++ m2) = JsMap.has k m1 || JsMap.has k m2.
Proof.
  induction m1 as [ | [k1 v1] m1 IH ]; simpl; auto.
  now rewrite IH, orb_assoc.
Qed.

Lemma filter_map_comm {A B : Type} (p : B -> bool) (f : A -> B) (l : list A) :
  filter p (map f l) = map f (filter (fun x => p (f x)) l).
Proof.
  induction l as [ | x l IH ]; simpl; auto.
  destruct (p (f x)); simpl; now rewrite IH.
Qed.

(** With seeds of pairwise different ids the loop appends, in order, the
    seeds whose id the [Map] did not hold. *)
Lemma add_seeds_append (seeds : list ServerItem) :
  NoDup (map id seeds) ->
  forall m,
  fold_left add_seed seeds m
  = m ++ index entry_id
           (map item_value
              (filter (fun s => negb (JsMap.has (VStr (id s)) m)) seeds)).
Proof.
  induction seeds as [ | s seeds IH ]; simpl; intros Hnd m.
  - now rewrite app_nil_r.
  - inversion Hnd as [ | ? ? Hs Hrest ]; subst.
    rewrite (IH Hrest). unfold add_seed.
    destruct (JsMap.has (VStr (id s)) m) eqn:Hhas; simpl; auto.
    rewrite (set_fresh _ _ _ Hhas), <- app_assoc. simpl.
    do 4 f_equal. apply filter_ext_in.
    intros s' Hs'. rewrite has_app. simpl.
    destruct (same_value_zero (VStr (id s)) (VStr (id s'))) eqn:E.
    + apply same_value_zero_eq in E. injection E as E.
      exfalso. apply Hs. rewrite E. now apply in_map.
    + unfold same_value_zero in E. simpl in E.
      now rewrite E, !orb_false_r.
Qed.

Lemma NoDup_seed_ids : NoDup (map id SEED_SERVERS).
Proof.
  repeat constructor; simpl; intuition discriminate.
Qed.

Section LoadFacts.

Variable JSON_parse : string -> throws value.

(** What [loadServers] returns for an array whose elements can all be
    read. *)
Lemma loadServers_array (raw : string) (l : list value) :
  raw <> "" -> JSON_parse raw = Some (VArr l) ->
  Forall (fun v => readable v = true) l ->
  loadServers JSON_parse (GetItem (Some raw))
  = JsMap.values (add_missing_seeds (JsMap.of_pairs (index entry_id l))).
Proof.
  intros Hraw Hparse Hl. unfold loadServers, loadServers_try.
  apply String.eqb_neq in Hraw. rewrite Hraw, Hparse. cbn [bind].
  rewrite (id_pairs_readable l Hl). reflexivity.
Qed.

Lemma loadServers_unreadable (raw : string) (l : list value) (x : value) :
  JSON_parse raw = Some (VArr l) -> In x l -> readable x = false ->
  loadServers JSON_parse (GetItem (Some raw)) = seed_store.
Proof.
  intros Hparse Hin Hx. unfold loadServers, loadServers_try.
  destruct (String.eqb raw ""); auto.
  rewrite Hparse. cbn [bind].
  rewrite (id_pairs_unreadable l x Hin Hx). reflexivity.
Qed.

End LoadFacts.

Lemma keyed_merged (l : list value) :
  keyed entry_id (add_missing_seeds (JsMap.of_pairs (index entry_id l))).
Proof. apply keyed_add_seeds, keyed_of_pairs. Qed.

Lemma unique_ids_merged (l : list value) :
  unique_ids
    (JsMap.values (add_missing_seeds (JsMap.of_pairs (index entry_id l)))).
Proof.
  unfold unique_ids, ids. rewrite <- keyed_keys by apply keyed_merged.
  apply NoDup_keys_add_seeds, NoDup_keys_of_pairs.
Qed.

(** The union by id: an id is looked up among the persisted entries first
    (the last one of that id), then among the seeds. *)
Lemma find_by_id_merged (k : value) (l : list value) :
  find_by_id k
    (JsMap.values (add_missing_seeds (JsMap.of_pairs (index entry_id l))))
  = match find_by_id k (rev l) with
    | Some e => Some e
    | None => find_by_id k seed_store
    end.
Proof.
  unfold find_by_id at 1. rewrite keyed_find by apply keyed_merged.
  unfold add_missing_seeds. rewrite get_add_seeds, get_of_pairs.
  reflexivity.
Qed.

Lemma NoDup_map_injective {A B : Type} (f : A -> B) (l : list A) :
  (forall a b, f a = f b -> a = b) -> NoDup l -> NoDup (map f l).
Proof.
  intros Hf. induction 1 as [ | x l Hx _ IH ]; simpl; constructor; auto.
  intros H. apply in_map_iff in H as [y [Hy1 Hy2]].
  apply Hf in Hy1. now subst.
Qed.

Lemma unique_ids_seed_store : unique_ids seed_store.
Proof.
  unfold unique_ids, ids, seed_store. rewrite map_map.
  rewrite (map_ext _ (fun s => VStr (id s))) by apply entry_id_item.
  rewrite <- (map_map id VStr).
  apply NoDup_map_injective; [ | apply NoDup_seed_ids ].
  intros a b H. now injection H.
Qed.

(** What follows from the two facts above about any store [loaded] that
    resolves ids in [persisted] first and in the seed set second. *)
Lemma union_by_id_origin (loaded persisted : store) :
  unique_ids loaded ->
  (forall k,
     find_by_id k loaded
     = match find_by_id k (rev persisted) with
       | Some e => Some e
       | None => find_by_id k seed_store
       end) ->
  forall e, In e loaded ->
    In e persisted
    \/ (In e seed_store /\ ~ In (entry_id e) (ids persisted)).
Proof.
  intros Huniq Hfind e He.
  pose proof (find_key_unique entry_id e loaded Huniq He) as Hf.
  change (find_by_id (entry_id e) loaded = Some e) in Hf.
  rewrite Hfind in Hf.
  destruct (find_by_id (entry_id e) (rev persisted)) as [ e' | ] eqn:E.
  - injection Hf as ->. apply find_key_some in E as [E _].
    left. apply in_rev. exact E.
  - right. split.
    + apply find_key_some in Hf. apply Hf.
    + apply find_key_none in E. unfold ids. rewrite map_rev in E.
      intros H. apply E. apply in_rev in H. exact H.
Qed.

Lemma union_by_id_seeds (loaded persisted : store) :
  (forall k,
     find_by_id k loaded
     = match find_by_id k (rev persisted) with
       | Some e => Some e
       | None => find_by_id k seed_store
       end) ->
  forall k, In k (ids seed_store) -> In k (ids loaded).
Proof.
  intros Hfind k Hk.
  destruct (find_by_id k loaded) as [ e | ] eqn:E.
  - apply find_key_some in E as [E1 E2]. subst k. apply in_map. exact E1.
  - exfalso. rewrite Hfind in E.
    destruct (find_by_id k (rev persisted)); [ discriminate | ].
    apply find_key_none in E. apply E. exact Hk.
Qed.

Lemma merged_unique_persisted (persisted : store) :
  unique_ids persisted ->
  JsMap.values (add_missing_seeds (JsMap.of_pairs (index entry_id persisted)))
  = persisted
    ++ filter (fun s => negb (id_in (entry_id s) persisted)) seed_store.
Proof.
  intros Hnd. unfold add_missing_seeds.
  rewrite (of_pairs_index_NoDup entry_id persisted Hnd).
  rewrite (add_seeds_append _ NoDup_seed_ids).
  unfold JsMap.values. rewrite map_app.
  change (map snd (index entry_id persisted))
    with (JsMap.values (index entry_id persisted)).
  rewrite values_index. f_equal.
  match goal with
  | |- map snd (index entry_id ?l) = _ =>
      change (map snd (index entry_id l))
        with (JsMap.values (index entry_id l))
  end.
  rewrite values_index. unfold seed_store.
  rewrite filter_map_comm. f_equal. apply filter_ext.
  intros s. rewrite has_index_id_in. reflexivity.
Qed.

(** C1.  Let the stored text be non-empty and parse to the array of
    records [E1], whose ids are strings or other primitive values (or
    are missing), so that the [Map] compares them as values.  Then the
    store [loadServers] returns
    - contains every id of the seed set;
    - is the union by id of [E1] and the seeds whose id is not in [E1]: it
      has one entry per id, an id is resolved in [E1] first (to the last
      entry of that id) and in the seed set otherwise, and every returned
      entry comes from [E1] or is a seed whose id [E1] lacks; when the ids
      of [E1] are pairwise different, it is [E1] followed by those seeds;
    - for an id of [E1] (in particular one that is also a seed id) holds
      the entry of [E1], with all its field values. *)
Theorem loadServers_union_by_id (JSON_parse : string -> throws value)
  (raw : string) (E1 : list obj) :
  raw <> "" -> JSON_parse raw = Some (VArr (map VObj E1)) ->
  Forall (fun r => primitive (own_property "id" r) = true) E1 ->
  (forall k, In k (ids seed_store) ->
             In k (ids (loadServers JSON_parse (GetItem (Some raw)))))
  /\ unique_ids (loadServers JSON_parse (GetItem (Some raw)))
  /\ (forall k,
        find_by_id k (loadServers JSON_parse (GetItem (Some raw)))
        = match find_by_id k (rev (map VObj E1)) with
          | Some e => Some e
          | None => find_by_id k seed_store
          end)
  /\ (forall e,
        In e (loadServers JSON_parse (GetItem (Some raw))) ->
        In e (map VObj E1)
        \/ (In e seed_store /\ ~ In (entry_id e) (ids (map VObj E1))))
  /\ (unique_ids (map VObj E1) ->
        loadServers JSON_parse (GetItem (Some raw))
        = map VObj E1
          ++ filter (fun s => negb (id_in (entry_id s) (map VObj E1)))
               seed_store)
  /\ (forall e,
        In e (loadServers JSON_parse (GetItem (Some raw))) ->
        In (entry_id e) (ids (map VObj E1)) ->
        In e (map VObj E1)).
Proof.
  intros Hraw Hparse _.
  assert (Hread : Forall (fun v => readable v = true) (map VObj E1)).
  { apply Forall_forall. intros v Hv.
    apply in_map_iff in Hv as [o [<- _]]. reflexivity. }
  rewrite (loadServers_array JSON_parse raw _ Hraw Hparse Hread).
  pose proof (unique_ids_merged (map VObj E1)) as Huniq.
  pose proof (fun k => find_by_id_merged k (map VObj E1)) as Hfind.
  pose proof (union_by_id_origin _ _ Huniq Hfind) as Hfrom.
  refine (conj _ (conj Huniq (conj Hfind (conj Hfrom (conj _ _))))).
  - exact (union_by_id_seeds _ _ Hfind).
  - apply merged_unique_persisted.
  - intros e He Hid. destruct (Hfrom e He) as [ H | [_ H] ].
    + exact H.
    + exfalso. apply H. exact Hid.
Qed.

(** C1 at a snapshot that overrides the seed [nexo] and adds an entry. *)
Lemma loadServers_union_by_id_witness :
  json_array sample_persisted <> ""
  /\ parse_only (json_array sample_persisted)
       (VArr (map VObj (map string_obj sample_persisted)))
       (json_array sample_persisted)
     = Some (VArr (map VObj (map string_obj sample_persisted)))
  /\ Forall (fun r => primitive (own_property "id" r) = true)
       (map string_obj sample_persisted)
  /\ unique_ids
       (loadServers
          (parse_only (json_array sample_persisted)
             (VArr (map VObj (map string_obj sample_persisted))))
          (GetItem (Some (json_array sample_persisted))))
  /\ find_by_id (VStr "nexo")
       (loadServers
          (parse_only (json_array sample_persisted)
             (VArr (map VObj (map string_obj sample_persisted))))
          (GetItem (Some (json_array sample_persisted))))
     = Some (VObj [("id", VStr "nexo"); ("name", VStr "My Nexo");
                   ("url", VStr "wss://my.nexo.example")]).
Proof.
  assert (H1 : json_array sample_persisted <> "") by discriminate.
  assert (H2 : parse_only (json_array sample_persisted)
                 (VArr (map VObj (map string_obj sample_persisted)))
                 (json_array sample_persisted)
               = Some (VArr (map VObj (map string_obj sample_persisted))))
    by reflexivity.
  assert (H3 : Forall (fun r => primitive (own_property "id" r) = true)
                 (map string_obj sample_persisted))
    by (repeat constructor).
  destruct (loadServers_union_by_id _ _ _ H1 H2 H3) as [_ [U [F _]]].
  refine (conj H1 (conj H2 (conj H3 (conj U _)))).
  rewrite F. reflexivity.
Defined.

Lemma In_existsb (x : value) (l : list value) :
  In x l -> existsb (same_value_zero x) l = true.
Proof.
  intros H. apply existsb_exists. exists x. split; auto.
  apply same_value_zero_refl.
Qed.

Lemma find_by_id_some (k e : value) (l : store) :
  find_by_id k l = Some e -> In e l /\ entry_id e = k.
Proof. apply find_key_some. Qed.

Lemma find_last_of_id (l1 l2 : list value) (e : value) :
  ~ In (entry_id e) (ids l2) ->
  find_by_id (entry_id e) (rev (l1 ++ e :: l2)) = Some e.
Proof. apply find_key_last. Qed.

(** The last entry of an id in the array is in what [loadServers]
    returns. *)
Lemma merged_keeps_last (l1 l2 : list value) (e : value) :
  ~ In (entry_id e) (ids l2) ->
  In e (JsMap.values
          (add_missing_seeds
             (JsMap.of_pairs (index entry_id (l1 ++ e :: l2))))).
Proof.
  intros Hlast.
  pose proof (find_by_id_merged (entry_id e) (l1 ++ e :: l2)) as Hf.
  rewrite (find_last_of_id _ _ _ Hlast) in Hf.
  exact (proj1 (find_by_id_some _ _ _ Hf)).
Qed.

(** C10, as stated, fails: of two persisted records without an id only
    the second is in the loaded store. *)
Lemma loadServers_retains_all_counterexample :
  ~ (forall (JSON_parse : string -> throws value) (raw : string)
            (E1 : list obj),
        raw <> "" -> JSON_parse raw = Some (VArr (map VObj E1)) ->
        forall r, In r E1 ->
                  In (VObj r)
                    (loadServers JSON_parse (GetItem (Some raw)))).
Proof.
  intros H.
  specialize
    (H (parse_only (json_array sample_no_ids)
          (VArr (map VObj (map string_obj sample_no_ids))))
       (json_array sample_no_ids) (map string_obj sample_no_ids)).
  assert (H1 : json_array sample_no_ids <> "") by discriminate.
  specialize (H H1 eq_refl
                (string_obj [("name", "A"); ("url", "ws://a.example")])
                (or_introl eq_refl)).
  apply In_existsb in H. vm_compute in H. discriminate.
Qed.

(** C10, amended.  [loadServers] validates no address and no field of a
    persisted record: whatever its address and its fields, a record of the
    persisted array is in the loaded store if no later record of the array
    has the same id (a missing id counting as the id [undefined]); so
    every record is kept when the ids are pairwise different. *)
Theorem loadServers_keeps_unvalidated (JSON_parse : string -> throws value)
  (raw : string) (E1 : list obj) :
  raw <> "" -> JSON_parse raw = Some (VArr (map VObj E1)) ->
  (forall l1 r l2,
      E1 = l1 ++ r :: l2 ->
      ~ In (entry_id (VObj r)) (ids (map VObj l2)) ->
      In (VObj r) (loadServers JSON_parse (GetItem (Some raw))))
  /\ (unique_ids (map VObj E1) ->
      forall r, In r E1 ->
                In (VObj r) (loadServers JSON_parse (GetItem (Some raw)))).
Proof.
  intros Hraw Hparse.
  assert (Hread : Forall (fun v => readable v = true) (map VObj E1)).
  { apply Forall_forall. intros v Hv.
    apply in_map_iff in Hv as [o [<- _]]. reflexivity. }
  rewrite (loadServers_array JSON_parse raw _ Hraw Hparse Hread).
  split.
  - intros l1 r l2 -> Hlast.
    replace (map VObj (l1 ++ r :: l2))
      with (map VObj l1 ++ VObj r :: map VObj l2)
      by (rewrite map_app; reflexivity).
    now apply merged_keeps_last.
  - intros Hnd r Hr. rewrite (merged_unique_persisted _ Hnd).
    apply in_or_app. left. now apply in_map.
Qed.

(** C10 at a snapshot of one record without id and with a [ws://]
    address: the record is in the loaded store. *)
Lemma loadServers_keeps_unvalidated_witness :
  json_array sample_plain <> ""
  /\ parse_only (json_array sample_plain)
       (VArr (map VObj (map string_obj sample_plain)))
       (json_array sample_plain)
     = Some (VArr (map VObj (map string_obj sample_plain)))
  /\ In (VObj [("name", VStr "Plain"); ("url", VStr "ws://plain.example")])
       (loadServers
          (parse_only (json_array sample_plain)
             (VArr (map VObj (map string_obj sample_plain))))
          (GetItem (Some (json_array sample_plain))))
  /\ has_wss_url
       (VObj [("name", VStr "Plain"); ("url", VStr "ws://plain.example")])
     = false.
Proof.
  assert (H1 : json_array sample_plain <> "") by discriminate.
  assert (H2 : parse_only (json_array sample_plain)
                 (VArr (map VObj (map string_obj sample_plain)))
                 (json_array sample_plain)
               = Some (VArr (map VObj (map string_obj sample_plain))))
    by reflexivity.
  refine (conj H1 (conj H2 (conj _ eq_refl))).
  apply (proj1 (loadServers_keeps_unvalidated _ _ _ H1 H2)
           [] (string_obj [("name", "Plain"); ("url", "ws://plain.example")])
           []).
  - reflexivity.
  - intros [].
Defined.

(* ------------------------------------------------------------------ *)
(** ** [loadServers]: the fallback *)
(* ------------------------------------------------------------------ *)

Lemma loadServers_cases (JSON_parse : string -> throws value) (st : stored) :
  loadServers JSON_parse st = seed_store
  \/ exists l,
       loadServers JSON_parse st
       = JsMap.values (add_missing_seeds (JsMap.of_pairs (index entry_id l))).
Proof.
  destruct st as [ | [ raw | ] ]; try (left; reflexivity).
  destruct (String.eqb raw "") eqn:Hraw.
  { left. unfold loadServers, loadServers_try. rewrite Hraw. reflexivity. }
  apply String.eqb_neq in Hraw.
  destruct (JSON_parse raw) as [ v | ] eqn:Hparse.
  - destruct v as [ | | b | n | s | l | ps ];
      try (left; unfold loadServers, loadServers_try;
           apply String.eqb_neq in Hraw; rewrite Hraw, Hparse; reflexivity).
    destruct (readable_dec l) as [ Hl | [x [Hx1 Hx2]] ].
    + right. exists l. now apply loadServers_array.
    + left. now apply loadServers_unreadable with (l := l) (x := x).
  - left. unfold loadServers, loadServers_try.
    apply String.eqb_neq in Hraw. rewrite Hraw, Hparse. reflexivity.
Qed.

(** C9, as stated, fails: the stored text [[1]] parses to an array that
    is not a sequence of records, and [loadServers] returns thirteen
    elements, the number 1 and the twelve seeds. *)
Lemma loadServers_fallback_counterexample :
  ~ (forall (JSON_parse : string -> throws value) (raw : string) (v : value),
        JSON_parse raw = Some v -> record_sequence v = false ->
        loadServers JSON_parse (GetItem (Some raw)) = seed_store).
Proof.
  intros H.
  specialize (H (parse_only "[1]" (VArr [VNum 1])) "[1]" (VArr [VNum 1])
                eq_refl eq_refl).
  apply (f_equal (@List.length value)) in H.
  vm_compute in H. discriminate.
Qed.

(** C9, amended.  [loadServers] returns the seed set alone whenever
    reading the storage throws, nothing is stored, the stored text is
    empty, the text fails to parse, the parsed value is not an array, or
    the array has a [null] element; and whenever anything else in the
    [try] block throws.  [loadServers] is a total function: none of these
    failures leaves it.  An array without a [null] element is not
    rejected, records or not: each of its elements that no later element
    shares its id with is in the returned store. *)
Theorem loadServers_fallback (JSON_parse : string -> throws value)
  (st : stored) :
  (st = GetItemThrows
   \/ st = GetItem None
   \/ (exists raw,
         st = GetItem (Some raw)
         /\ (raw = ""
             \/ JSON_parse raw = None
             \/ (exists v, JSON_parse raw = Some v /\ is_array v = false)
             \/ (exists l x, JSON_parse raw = Some (VArr l)
                             /\ In x l /\ readable x = false)))
   \/ loadServers_try JSON_parse st = None ->
   loadServers JSON_parse st = seed_store)
  /\ (forall raw l1 e l2,
        st = GetItem (Some raw) -> raw <> "" ->
        JSON_parse raw = Some (VArr (l1 ++ e :: l2)) ->
        Forall (fun v => readable v = true) (l1 ++ e :: l2) ->
        ~ In (entry_id e) (ids l2) ->
        In e (loadServers JSON_parse st)).
Proof.
  split.
  - intros [ -> | [ -> | [ [raw [-> H]] | H ] ] ]; try reflexivity.
    + unfold loadServers, loadServers_try.
      destruct H as [ -> | [ H | [ [v [H1 H2]] | [l [x [H1 [H2 H3]]]] ] ] ].
      * reflexivity.
      * destruct (String.eqb raw ""); [ reflexivity | ].
        rewrite H. reflexivity.
      * destruct (String.eqb raw ""); [ reflexivity | ].
        rewrite H1. destruct v; try reflexivity. discriminate.
      * destruct (String.eqb raw ""); [ reflexivity | ].
        rewrite H1. cbn [bind].
        rewrite (id_pairs_unreadable l x H2 H3). reflexivity.
    + unfold loadServers. rewrite H. reflexivity.
  - intros raw l1 e l2 -> Hraw Hparse Hread Hlast.
    rewrite (loadServers_array JSON_parse raw _ Hraw Hparse Hread).
    now apply merged_keeps_last.
Qed.

(** C9 at the stored text [{}], which parses to an object. *)
Lemma loadServers_fallback_witness :
  (exists raw,
      GetItem (Some "{}") = GetItem (Some raw)
      /\ (raw = ""
          \/ parse_only "{}" (VObj []) raw = None
          \/ (exists v, parse_only "{}" (VObj []) raw = Some v
                        /\ is_array v = false)
          \/ (exists l x, parse_only "{}" (VObj []) raw = Some (VArr l)
                          /\ In x l /\ readable x = false)))
  /\ loadServers (parse_only "{}" (VObj [])) (GetItem (Some "{}"))
     = seed_store.
Proof.
  assert (H : exists raw,
             GetItem (Some "{}") = GetItem (Some raw)
             /\ (raw = ""
                 \/ parse_only "{}" (VObj []) raw = None
                 \/ (exists v, parse_only "{}" (VObj []) raw = Some v
                               /\ is_array v = false)
                 \/ (exists l x, parse_only "{}" (VObj []) raw = Some (VArr l)
                                 /\ In x l /\ readable x = false))).
  { exists "{}". split; [ reflexivity | ].
    right. right. left. exists (VObj []). split; reflexivity. }
  split; [ exact H | ].
  apply (proj1 (loadServers_fallback (parse_only "{}" (VObj []))
                  (GetItem (Some "{}")))).
  right. right. left. exact H.
Defined.

(* ------------------------------------------------------------------ *)
(** ** [merge]: the updater of [importList] *)
(* ------------------------------------------------------------------ *)

Lemma set_all_readable (entries : list value) :
  Forall (fun v => readable v = true) entries ->
  forall m, set_all m entries = Some (upsert_all m entries).
Proof.
  induction 1 as [ | x l Hx _ IH ]; intros m; simpl; auto.
  rewrite (readable_entry_key x Hx). simpl. apply IH.
Qed.

Lemma set_all_unreadable (entries : list value) (x : value) :
  In x entries -> readable x = false -> forall m, set_all m entries = None.
Proof.
  induction entries as [ | y l IH ]; simpl; intros Hin Hx m.
  - contradiction.
  - destruct Hin as [ -> | Hin ].
    + now rewrite (unreadable_entry_key x Hx).
    + destruct (entry_key y); simpl; auto.
Qed.

Lemma key_pairs_readable (prev : store) :
  Forall (fun v => readable v = true) prev ->
  map_throws (fun p => k <- entry_key p ;; Some (k, p)) prev
  = Some (index key_of prev).
Proof.
  intros H. unfold index. apply map_throws_total.
  eapply Forall_impl; [ | exact H ].
  intros v Hv. now rewrite (readable_entry_key v Hv).
Qed.

Lemma merge_readable (prev entries : list value) :
  Forall (fun v => readable v = true) prev ->
  Forall (fun v => readable v = true) entries ->
  merge prev entries
  = Some (JsMap.values
            (upsert_all (JsMap.of_pairs (index key_of prev)) entries)).
Proof.
  intros Hp He. unfold merge.
  rewrite (key_pairs_readable prev Hp). cbn [bind].
  rewrite (set_all_readable entries He). reflexivity.
Qed.

Lemma merge_unreadable (prev entries : list value) (x : value) :
  In x prev \/ In x entries -> readable x = false ->
  merge prev entries = None.
Proof.
  intros Hin Hx. unfold merge.
  destruct (readable_dec prev) as [ Hp | [y [Hy1 Hy2]] ].
  - rewrite (key_pairs_readable prev Hp). cbn [bind].
    destruct Hin as [ Hin | Hin ].
    + rewrite Forall_forall in Hp. rewrite (Hp x Hin) in Hx. discriminate.
    + rewrite (set_all_unreadable entries x Hin Hx). reflexivity.
  - rewrite (map_throws_fails _ prev y Hy1); auto.
    now rewrite (unreadable_entry_key y Hy2).
Qed.

Lemma merge_some_readable (prev entries r : list value) :
  merge prev entries = Some r ->
  Forall (fun v => readable v = true) prev
  /\ Forall (fun v => readable v = true) entries.
Proof.
  intros H.
  destruct (readable_dec prev) as [ Hp | [y [Hy1 Hy2]] ].
  - destruct (readable_dec entries) as [ He | [y [Hy1 Hy2]] ]; auto.
    rewrite (merge_unreadable prev entries y (or_intror Hy1) Hy2) in H.
    discriminate.
  - rewrite (merge_unreadable prev entries y (or_introl Hy1) Hy2) in H.
    discriminate.
Qed.

Lemma keyed_upsert_all (entries : list value) :
  forall m, keyed key_of m -> keyed key_of (upsert_all m entries).
Proof.
  induction entries as [ | x l IH ]; simpl; auto.
  intros m Hm. apply IH. now apply keyed_set.
Qed.

Lemma NoDup_keys_upsert_all (entries : list value) :
  forall m, NoDup (JsMap.keys m) -> NoDup (JsMap.keys (upsert_all m entries)).
Proof.
  induction entries as [ | x l IH ]; simpl; auto.
  intros m Hm. apply IH. now apply NoDup_keys_set.
Qed.

(** After the loop a key holds the last entry of that key, or what it
    held before when no entry has that key. *)
Lemma get_upsert_all (k : value) (entries : list value) :
  forall m,
  JsMap.get k (upsert_all m entries)
  = match find_by_key k (rev entries) with
    | Some e => Some e
    | None => JsMap.get k m
    end.
Proof.
  induction entries as [ | x l IH ]; intros m.
  - reflexivity.
  - cbn [upsert_all fold_left].
    fold (upsert_all (JsMap.set (key_of x) x m) l).
    rewrite IH. cbn [rev]. unfold find_by_key. rewrite find_key_app.
    destruct (find (fun e => same_value_zero (key_of e) k) (rev l)); auto.
    rewrite get_set. cbn [find].
    destruct (same_value_zero (key_of x) k); auto.
Qed.

Lemma keys_upsert_all_present (entries : list value) :
  forall m,
  (forall x, In x entries -> JsMap.has (key_of x) m = true) ->
  JsMap.keys (upsert_all m entries) = JsMap.keys m.
Proof.
  induction entries as [ | x l IH ]; intros m H.
  - reflexivity.
  - cbn [upsert_all fold_left].
    fold (upsert_all (JsMap.set (key_of x) x m) l).
    assert (Hk : JsMap.keys (JsMap.set (key_of x) x m) = JsMap.keys m).
    { rewrite keys_set, (H x); auto. now left. }
    rewrite IH.
    + exact Hk.
    + intros y Hy. apply has_In. rewrite Hk. apply has_In. apply H.
      now right.
Qed.

Lemma values_set_Forall (P : value -> Prop) (k v : value) (m : JsMap.t) :
  Forall P (JsMap.values m) -> P v ->
  Forall P (JsMap.values (JsMap.set k v m)).
Proof.
  intros Hm Hv. induction m as [ | [k1 v1] m IH ]; simpl.
  - repeat constructor. exact Hv.
  - simpl in Hm. inversion Hm as [ | ? ? H1 H2 ]; subst.
    destruct (same_value_zero k1 k); simpl; constructor; auto.
Qed.

Lemma values_of_pairs_Forall (P : value -> Prop) (kf : value -> value)
  (l : list value) :
  Forall P l -> Forall P (JsMap.values (JsMap.of_pairs (index kf l))).
Proof.
  induction l as [ | x l IH ] using rev_ind; intros H.
  - constructor.
  - apply Forall_app in H as [H1 H2]. inversion H2; subst.
    unfold index. rewrite map_app. simpl. rewrite of_pairs_snoc. simpl.
    apply values_set_Forall; auto.
Qed.

Lemma values_upsert_all_Forall (P : value -> Prop) (entries : list value) :
  Forall P entries ->
  forall m, Forall P (JsMap.values m) ->
            Forall P (JsMap.values (upsert_all m entries)).
Proof.
  induction 1 as [ | x l Hx _ IH ]; intros m Hm; simpl; auto.
  apply IH. now apply values_set_Forall.
Qed.

(** The store after a merge of readable lists, as a [Map]. *)
Lemma merged_map_facts (prev entries : list value) :
  let m := upsert_all (JsMap.of_pairs (index key_of prev)) entries in
  keyed key_of m
  /\ NoDup (JsMap.keys m)
  /\ (forall k,
        JsMap.get k m
        = match find_by_key k (rev entries) with
          | Some e => Some e
          | None => find_by_key k (rev prev)
          end)
  /\ (forall P : value -> Prop,
        Forall P prev -> Forall P entries -> Forall P (JsMap.values m)).
Proof.
  cbv zeta. repeat split.
  - apply keyed_upsert_all, keyed_of_pairs.
  - apply NoDup_keys_upsert_all, NoDup_keys_of_pairs.
  - intros k. rewrite get_upsert_all, get_of_pairs. reflexivity.
  - intros P Hp He. apply values_upsert_all_Forall; auto.
    now apply values_of_pairs_Forall.
Qed.

(** Merging the same entries into the merged [Map] again changes
    nothing. *)
Lemma upsert_all_again (m0 : JsMap.t) (entries : list value) :
  NoDup (JsMap.keys m0) ->
  upsert_all (upsert_all m0 entries) entries = upsert_all m0 entries.
Proof.
  intros Hnd.
  assert (Hhas : forall x, In x entries ->
                   JsMap.has (key_of x) (upsert_all m0 entries) = true).
  { intros x Hx. apply get_has. rewrite get_upsert_all.
    destruct (find_by_key (key_of x) (rev entries)) as [ e | ] eqn:E.
    - now exists e.
    - exfalso. apply find_key_none in E. apply E. rewrite map_rev.
      apply in_rev. rewrite rev_involutive. now apply in_map. }
  apply map_ext_get.
  - now do 2 apply NoDup_keys_upsert_all.
  - now apply keys_upsert_all_present.
  - intros k. rewrite !get_upsert_all.
    now destruct (find_by_key k (rev entries)).
Qed.

(** C6.  Let the keys of the stored entries and of the already decoded
    list [X] be strings or other primitive values, which the [Map]
    compares as values; the key of an entry is its id if it has one, and
    its address otherwise ([key_of]).  Merging [X] a second time changes
    nothing: if [merge prev X] is the store [r], then [merge r X] is [r]
    again, the same entries in the same order.  [merge] upserts by that
    key: in [r] a key holds the last entry of [X] with that key, and
    otherwise the last stored entry with that key; no two entries of [r]
    have the same key.  [merge] returns a store whenever no element of
    [prev] or [X] is [null] or [undefined]. *)
Theorem merge_idempotent (prev X : list value) :
  Forall (fun e => primitive (key_of e) = true) prev ->
  Forall (fun e => primitive (key_of e) = true) X ->
  (forall r, merge prev X = Some r -> merge r X = Some r)
  /\ (forall r k,
        merge prev X = Some r ->
        find_by_key k r
        = match find_by_key k (rev X) with
          | Some e => Some e
          | None => find_by_key k (rev prev)
          end)
  /\ (forall r, merge prev X = Some r -> NoDup (map key_of r))
  /\ (Forall (fun v => readable v = true) prev ->
      Forall (fun v => readable v = true) X ->
      exists r, merge prev X = Some r).
Proof.
  intros _ _.
  destruct (merged_map_facts prev X) as [Hkeyed [Hnd [Hget Hall]]].
  cbv zeta in Hkeyed, Hnd, Hget, Hall.
  refine (conj _ (conj _ (conj _ _))).
  - intros r Hr.
    destruct (merge_some_readable _ _ _ Hr) as [Hp Hx].
    rewrite (merge_readable prev X Hp Hx) in Hr. injection Hr as <-.
    rewrite merge_readable; auto.
    rewrite (keyed_index key_of _ Hkeyed).
    rewrite of_pairs_self by exact Hnd.
    rewrite upsert_all_again by apply NoDup_keys_of_pairs.
    reflexivity.
  - intros r k Hr.
    destruct (merge_some_readable _ _ _ Hr) as [Hp Hx].
    rewrite (merge_readable prev X Hp Hx) in Hr. injection Hr as <-.
    unfold find_by_key at 1. rewrite (keyed_find key_of k _ Hkeyed).
    apply Hget.
  - intros r Hr.
    destruct (merge_some_readable _ _ _ Hr) as [Hp Hx].
    rewrite (merge_readable prev X Hp Hx) in Hr. injection Hr as <-.
    rewrite <- (keyed_keys key_of _ Hkeyed). exact Hnd.
  - intros Hp Hx. eexists. apply merge_readable; auto.
Qed.

Lemma seed_store_primitive_keys :
  Forall (fun e => primitive (key_of e) = true) seed_store.
Proof.
  apply Forall_forall.
  apply (proj1 (forallb_forall (fun e => primitive (key_of e)) seed_store)).
  vm_compute. reflexivity.
Qed.

(** C6 at the seeds and a file that overrides the seed [nexo] and brings
    a new entry. *)
Lemma merge_idempotent_witness :
  Forall (fun e => primitive (key_of e) = true) sample_decoded
  /\ exists r,
       merge seed_store sample_decoded = Some r
       /\ List.length r = 13%nat
       /\ merge r sample_decoded = Some r.
Proof.
  assert (H : Forall (fun e => primitive (key_of e) = true) sample_decoded)
    by (repeat constructor).
  split; [ exact H | ].
  destruct (merge seed_store sample_decoded) as [ r | ] eqn:E;
    [ | vm_compute in E; discriminate ].
  exists r. split; [ reflexivity | ].
  split; [ vm_compute in E; injection E as <-; reflexivity | ].
  exact (proj1 (merge_idempotent seed_store sample_decoded
                  seed_store_primitive_keys H) r E).
Defined.

(* ------------------------------------------------------------------ *)
(** ** [cleaned]: the sanitized import *)
(* ------------------------------------------------------------------ *)

Lemma truthy_js_or (a d : value) :
  truthy d = true -> truthy (js_or a d) = true.
Proof. intros H. unfold js_or. now destruct (truthy a) eqn:E. Qed.

Lemma truthy_id_key (v : value) :
  truthy (entry_id v) = true -> key_of v = entry_id v.
Proof.
  destruct v as [ | | b | n | s | l | ps ]; try discriminate.
  unfold key_of, entry_key, entry_id, field_of, prop, bind, catch, js_or.
  intros H. now rewrite H.
Qed.

Lemma String_of_some (v : value) (t : string) :
  String_of v = Some t -> prints v = true /\ t = to_string v.
Proof.
  unfold String_of. destruct (prints v); [ | discriminate ].
  intros [= <-]. now split.
Qed.

Lemma String_of_prints (v : value) :
  prints v = true -> String_of v = Some (to_string v).
Proof. unfold String_of. now intros ->. Qed.

Lemma String_of_throws (v : value) : prints v = false -> String_of v = None.
Proof. unfold String_of. now intros ->. Qed.

(** What one decoded record looks like. *)
Lemma clean_record_some (now : Z) (s : value) (i : nat) (y : value) :
  clean_record now s i = Some y ->
  readable y = true
  /\ entry_id y
     = js_or (entry_id s)
         (VStr ("import-" ++ string_of_Z now ++ "-" ++ string_of_nat i))
  /\ truthy (entry_id y) = true
  /\ entry_url y = VStr (to_string (js_or (entry_url s) (VStr ""))).
Proof.
  intros H.
  assert (Hs : readable s = true).
  { destruct s; try reflexivity; discriminate. }
  unfold clean_record in H.
  rewrite !(readable_prop s _ Hs) in H. cbn [bind] in H.
  destruct (String_of (js_or (js_or (field_of s f_name) (field_of s f_url))
                         (VStr "Unnamed"))) as [ name_ | ] eqn:Hn;
    [ | discriminate ].
  destruct (String_of (js_or (field_of s f_url) (VStr ""))) as [ url_ | ]
    eqn:Hu; [ | discriminate ].
  cbn [bind] in H. injection H as <-.
  apply String_of_some in Hu as [_ ->].
  refine (conj eq_refl (conj eq_refl (conj _ eq_refl))).
  change (truthy
            (js_or (entry_id s)
               (VStr
                  ("import-" ++ string_of_Z now ++ "-" ++ string_of_nat i)))
          = true).
  apply truthy_js_or. reflexivity.
Qed.

(** A record is decoded when its properties can be read and its name and
    address can be printed, and only then. *)
Lemma clean_record_readable (now : Z) (s : value) (i : nat) :
  readable s = true ->
  prints (js_or (js_or (field_of s f_name) (field_of s f_url))
            (VStr "Unnamed")) = true ->
  prints (js_or (field_of s f_url) (VStr "")) = true ->
  exists y, clean_record now s i = Some y.
Proof.
  intros Hs Hn Hu. unfold clean_record.
  rewrite !(readable_prop s _ Hs). cbn [bind].
  rewrite (String_of_prints _ Hn), (String_of_prints _ Hu). cbn [bind].
  eexists. reflexivity.
Qed.

Lemma clean_record_unprintable (now : Z) (s : value) (i : nat) :
  prints (js_or (js_or (field_of s f_name) (field_of s f_url))
            (VStr "Unnamed")) = false
  \/ prints (js_or (field_of s f_url) (VStr "")) = false ->
  clean_record now s i = None.
Proof.
  intros H. destruct (readable s) eqn:Hs.
  - unfold clean_record. rewrite !(readable_prop s _ Hs). cbn [bind].
    destruct H as [ H | H ].
    + now rewrite (String_of_throws _ H).
    + rewrite (String_of_throws _ H).
      now destruct (String_of
                      (js_or (js_or (field_of s f_name) (field_of s f_url))
                         (VStr "Unnamed"))).
  - unfold clean_record. now rewrite (unreadable_prop s f_id Hs).
Qed.

Lemma clean_at_some (now : nat -> Z) (s : value) (i : nat) (y : value) :
  clean_at now s i = Some y ->
  readable y = true
  /\ entry_id y
     = js_or (entry_id s)
         (VStr ("import-" ++ string_of_Z (now i) ++ "-" ++ string_of_nat i))
  /\ truthy (entry_id y) = true
  /\ entry_url y = VStr (to_string (js_or (entry_url s) (VStr ""))).
Proof. apply clean_record_some. Qed.

Lemma clean_at_readable (now : nat -> Z) (s : value) (i : nat) :
  readable s = true ->
  prints (js_or (js_or (field_of s f_name) (field_of s f_url))
            (VStr "Unnamed")) = true ->
  prints (js_or (field_of s f_url) (VStr "")) = true ->
  exists y, clean_at now s i = Some y.
Proof. apply clean_record_readable. Qed.

Lemma shown_name_js_or (s : value) :
  js_or (js_or (field_of s f_name) (field_of s f_url)) (VStr "Unnamed")
  = shown_name s.
Proof.
  unfold shown_name, js_or.
  destruct (truthy (field_of s f_name)) eqn:Hn.
  - now rewrite Hn.
  - reflexivity.
Qed.

Lemma shown_url_js_or (s : value) :
  js_or (field_of s f_url) (VStr "") = shown_url s.
Proof. reflexivity. Qed.

Lemma clean_at_decodes (now : nat -> Z) (s : value) (i : nat) :
  decodes s = true -> exists y, clean_at now s i = Some y.
Proof.
  unfold decodes. intros H.
  apply andb_prop in H as [H Hu]. apply andb_prop in H as [Hs Hn].
  apply clean_at_readable; auto. now rewrite shown_name_js_or.
Qed.

Lemma clean_at_fails (now : nat -> Z) (s : value) (i : nat) :
  decodes s = false -> clean_at now s i = None.
Proof.
  unfold decodes. intros H.
  destruct (readable s) eqn:Hs.
  - apply clean_record_unprintable.
    rewrite shown_name_js_or, shown_url_js_or.
    destruct (prints (shown_name s)); [ right; exact H | now left ].
  - unfold clean_at, clean_record. now rewrite (unreadable_prop s f_id Hs).
Qed.

Lemma mapi_throws_fails {A B : Type} (f : A -> nat -> throws B)
  (l : list A) (x : A) :
  In x l -> (forall j, f x j = None) ->
  forall i, mapi_throws f i l = None.
Proof.
  induction l as [ | y l IH ]; intros Hin Hx i; [ contradiction | ].
  cbn [mapi_throws]. destruct Hin as [ -> | Hin ].
  - now rewrite Hx.
  - destruct (f y i); cbn [bind]; auto. now rewrite (IH Hin Hx (S i)).
Qed.

(** [cleaned] returns exactly when every record decodes. *)
Lemma cleaned_decodes (now : nat -> Z) (l : list value) :
  Forall (fun s => decodes s = true) l -> exists c, cleaned now l = Some c.
Proof.
  intros Hl. unfold cleaned.
  destruct (mapi_throws_total (clean_at now)
              (fun s i => catch (clean_at now s i) VUndefined) l 0%nat)
    as [ys [E _]].
  { intros x j Hx. rewrite Forall_forall in Hl.
    destruct (clean_at_decodes now x j (Hl x Hx)) as [y Hy].
    now rewrite Hy. }
  rewrite E. cbn [bind]. now eexists.
Qed.

Lemma cleaned_fails (now : nat -> Z) (l : list value) (x : value) :
  In x l -> decodes x = false -> cleaned now l = None.
Proof.
  intros Hin Hx. unfold cleaned.
  rewrite (mapi_throws_fails (clean_at now) l x Hin
             (fun j => clean_at_fails now x j Hx) 0%nat).
  reflexivity.
Qed.

Lemma cleaned_some_decodes (now : nat -> Z) (l c : list value) :
  cleaned now l = Some c -> Forall (fun s => decodes s = true) l.
Proof.
  intros H. apply Forall_forall. intros x Hx.
  destruct (decodes x) eqn:E; auto.
  rewrite (cleaned_fails now l x Hx E) in H. discriminate.
Qed.

Lemma mapi_throws_In {A B : Type} (f : A -> nat -> throws B) (l : list A) :
  forall i ys, mapi_throws f i l = Some ys ->
  forall y, In y ys -> exists x j, In x l /\ f x j = Some y.
Proof.
  induction l as [ | x l IH ]; simpl; intros i ys H y Hy.
  - injection H as <-. contradiction.
  - destruct (f x i) as [ y0 | ] eqn:E0; [ | discriminate ]. simpl in H.
    destruct (mapi_throws f (S i) l) as [ ys' | ] eqn:E1; [ | discriminate ].
    simpl in H. injection H as <-.
    destruct Hy as [ <- | Hy ].
    + exists x, i. split; auto.
    + destruct (IH _ _ E1 y Hy) as [x' [j [H1 H2]]].
      exists x', j. split; auto.
Qed.

Lemma cleaned_entries (now : nat -> Z) (list_ c : list value) :
  cleaned now list_ = Some c ->
  Forall (fun e => readable e = true
                   /\ truthy (entry_id e) = true
                   /\ has_wss_url e = true) c.
Proof.
  unfold cleaned. intros H.
  destruct (mapi_throws (clean_at now) 0 list_) as [ mapped | ] eqn:E;
    [ | discriminate ].
  simpl in H. injection H as <-.
  apply Forall_forall. intros e He. apply filter_In in He as [He Hw].
  destruct (mapi_throws_In _ _ _ _ E e He) as [x [j [_ Hx]]].
  apply clean_at_some in Hx as [H1 [_ [H2 _]]]. auto.
Qed.

(* ------------------------------------------------------------------ *)
(** ** The store invariant *)
(* ------------------------------------------------------------------ *)

Lemma unique_ids_of_unique_keys (prev r : store) :
  NoDup (map key_of r) -> unique_ids prev ->
  Forall (fun v => In v prev \/ truthy (entry_id v) = true) r ->
  unique_ids r.
Proof.
  unfold unique_ids, ids. intros Hk Hprev.
  induction r as [ | v r IH ]; intros Hall; simpl.
  - constructor.
  - inversion Hk as [ | ? ? Hv Hr ]; subst.
    inversion Hall as [ | ? ? Hv' Hr' ]; subst.
    constructor; [ | now apply IH ].
    intros Hin. apply in_map_iff in Hin as [w [Hw1 Hw2]].
    apply Hv. apply in_map_iff. exists w. split; [ | exact Hw2 ].
    destruct (truthy (entry_id v)) eqn:T.
    + rewrite (truthy_id_key v T).
      rewrite <- Hw1 in T. rewrite (truthy_id_key w T). exact Hw1.
    + destruct Hv' as [ Hv' | Hv' ]; [ | congruence ].
      rewrite Forall_forall in Hr'.
      destruct (Hr' w Hw2) as [ Hw' | Hw' ]; [ | congruence ].
      now rewrite (NoDup_map_In_eq entry_id prev w v Hprev Hw' Hv' Hw1).
Qed.

Lemma unique_ids_loadServers (JSON_parse : string -> throws value)
  (st : stored) :
  unique_ids (loadServers JSON_parse st).
Proof.
  destruct (loadServers_cases JSON_parse st) as [ -> | [l ->] ].
  - apply unique_ids_seed_store.
  - apply unique_ids_merged.
Qed.

Lemma importList_some (now : nat -> Z) (list_ : list value) (prev r : store) :
  importList now list_ prev = Some r ->
  exists c, cleaned now list_ = Some c /\ merge prev c = Some r.
Proof.
  unfold importList. destruct (cleaned now list_) as [ c | ]; simpl.
  - intros H. now exists c.
  - discriminate.
Qed.

Lemma unique_ids_merge (prev c r : store) :
  unique_ids prev ->
  Forall (fun e => truthy (entry_id e) = true) c ->
  merge prev c = Some r -> unique_ids r.
Proof.
  intros Hprev Hc Hr.
  destruct (merge_some_readable _ _ _ Hr) as [Hp Hx].
  rewrite (merge_readable prev c Hp Hx) in Hr. injection Hr as <-.
  destruct (merged_map_facts prev c) as [Hkeyed [Hnd [_ Hall]]].
  cbv zeta in Hkeyed, Hnd, Hall.
  apply (unique_ids_of_unique_keys prev).
  { rewrite <- (keyed_keys key_of _ Hkeyed). exact Hnd. }
  { exact Hprev. }
  apply Hall.
  - apply Forall_forall. intros v Hv. now left.
  - eapply Forall_impl; [ | exact Hc ]. intros v Hv. now right.
Qed.

(** C2, as stated, fails for [add]: [addServer] puts the new entry in
    front without looking at the ids.  The dialog names a new entry after
    the clock, [custom-] followed by [Date.now()]; two saves for which the
    clock reads the same leave two entries of one id. *)
Lemma addServer_unique_ids_counterexample :
  ~ (forall (newS : obj) (app : App),
        unique_ids (servers app) ->
        unique_ids (servers (addServer newS app))).
Proof.
  intros H.
  specialize
    (H (new_server 1700000000000 "Mine" "wss://mine.example" [] "")
       (AddServerDialog_save 1700000000000 "Other" "wss://other.example"
          [] "" (mkApp seed_store []))).
  assert (Hbefore :
            unique_ids
              (servers
                 (AddServerDialog_save 1700000000000 "Other"
                    "wss://other.example" [] "" (mkApp seed_store [])))).
  { unfold unique_ids, ids.
    change (NoDup (VStr "custom-1700000000000" :: map entry_id seed_store)).
    constructor; [ | exact unique_ids_seed_store ].
    intros Hin. apply In_existsb in Hin. vm_compute in Hin. discriminate. }
  specialize (H Hbefore).
  unfold unique_ids in H. inversion H as [ | ? ? Hhead _ ].
  apply Hhead. left. reflexivity.
Qed.

(** C2, amended.  Ids and keys are taken to be strings or other
    primitive values, which a [Map] compares as values.  Then no two
    entries of the store share an id
    - after [loadServers], whatever the storage holds; where a persisted
      entry and a seed have the same id the store holds the persisted one
      (and of several persisted entries of one id the last);
    - after [importList], if none did before; an imported entry that is
      the last of its id in the decoded list is then the entry the store
      holds for that id, replacing a stored one;
    - after [addServer], exactly when none did before and the id of the
      new entry is not the id of a stored entry ([addServer] itself does
      not check this).
    [importList] returns a store exactly when no element of the store is
    [null] or [undefined] and every record of the imported list decodes:
    it is neither [null] nor [undefined], and its name and address can
    be printed. *)
Theorem store_unique_ids :
  (forall (JSON_parse : string -> throws value) (st : stored),
      (forall raw l,
          st = GetItem (Some raw) -> JSON_parse raw = Some (VArr l) ->
          Forall (fun e => primitive (entry_id e) = true) l) ->
      unique_ids (loadServers JSON_parse st))
  /\ (forall (JSON_parse : string -> throws value) (raw : string)
             (persisted : list value) (k : value),
        raw <> "" -> JSON_parse raw = Some (VArr persisted) ->
        Forall (fun v => readable v = true) persisted ->
        Forall (fun e => primitive (entry_id e) = true) persisted ->
        find_by_id k (loadServers JSON_parse (GetItem (Some raw)))
        = match find_by_id k (rev persisted) with
          | Some e => Some e
          | None => find_by_id k seed_store
          end)
  /\ (forall (now : nat -> Z) (list_ : list value) (prev r : store),
        unique_ids prev ->
        Forall (fun e => primitive (key_of e) = true) prev ->
        Forall (fun s => primitive (entry_id s) = true) list_ ->
        importList now list_ prev = Some r ->
        unique_ids r
        /\ forall c l1 e l2,
             cleaned now list_ = Some c -> c = l1 ++ e :: l2 ->
             ~ In (entry_id e) (ids l2) ->
             find_by_id (entry_id e) r = Some e)
  /\ (forall (now : nat -> Z) (list_ : list value) (prev : store),
        (exists r, importList now list_ prev = Some r)
        <-> Forall (fun s => decodes s = true) list_
            /\ Forall (fun v => readable v = true) prev)
  /\ (forall (newS : obj) (app : App),
        unique_ids (servers (addServer newS app))
        <-> unique_ids (servers app)
            /\ ~ In (entry_id (VObj newS)) (ids (servers app))).
Proof.
  refine (conj (fun p st _ => unique_ids_loadServers p st)
            (conj _ (conj _ (conj _ _)))).
  - intros JSON_parse raw persisted k Hraw Hparse Hread _.
    rewrite (loadServers_array JSON_parse raw _ Hraw Hparse Hread).
    apply find_by_id_merged.
  - intros now list_ prev r Hprev _ _ Hr.
    destruct (importList_some _ _ _ _ Hr) as [c [Hc Hm]].
    pose proof (cleaned_entries _ _ _ Hc) as Hall.
    assert (Htruthy : Forall (fun e => truthy (entry_id e) = true) c).
    { eapply Forall_impl; [ | exact Hall ]. now intros v [_ [H _]]. }
    pose proof (unique_ids_merge prev c r Hprev Htruthy Hm) as Hu.
    split; [ exact Hu | ].
    intros c' l1 e l2 Hc' -> Hlast.
    rewrite Hc in Hc'. injection Hc' as Hc'. subst c.
    rewrite Forall_forall in Htruthy.
    assert (Hkey : forall v, In v (l1 ++ e :: l2) -> key_of v = entry_id v).
    { intros v Hv. apply truthy_id_key. now apply Htruthy. }
    assert (Hin : In e r).
    { destruct (merge_some_readable _ _ _ Hm) as [Hp Hx].
      rewrite (merge_readable _ _ Hp Hx) in Hm. injection Hm as <-.
      destruct (merged_map_facts prev (l1 ++ e :: l2)) as [Hk [_ [Hget _]]].
      cbv zeta in Hk, Hget.
      specialize (Hget (key_of e)).
      unfold find_by_key in Hget at 1.
      rewrite find_key_last in Hget.
      - rewrite <- (keyed_find key_of _ _ Hk) in Hget.
        apply find_key_some in Hget. apply Hget.
      - rewrite Hkey by (apply in_or_app; right; now left).
        intros H. apply Hlast. unfold ids.
        apply in_map_iff in H as [w [Hw1 Hw2]].
        apply in_map_iff. exists w. split; auto.
        rewrite <- Hw1. symmetry. apply Hkey.
        apply in_or_app. right. now right. }
    apply (find_key_unique entry_id e r Hu Hin).
  - intros now list_ prev. split.
    + intros [r Hr]. destruct (importList_some _ _ _ _ Hr) as [c [Hc Hm]].
      split; [ exact (cleaned_some_decodes now list_ c Hc) | ].
      exact (proj1 (merge_some_readable _ _ _ Hm)).
    + intros [Hl Hp]. unfold importList.
      destruct (cleaned_decodes now list_ Hl) as [c Hc].
      rewrite Hc. cbn [bind]. eexists. apply merge_readable; auto.
      pose proof (cleaned_entries _ _ _ Hc) as Hall.
      eapply Forall_impl; [ | exact Hall ]. now intros v [H _].
  - intros newS app. unfold addServer, unique_ids, ids.
    cbn [servers map]. rewrite NoDup_cons_iff. tauto.
Qed.

(* ------------------------------------------------------------------ *)
(** ** Import: what is dropped and what is reported *)
(* ------------------------------------------------------------------ *)

Lemma printable_prints (v : value) : printable v = true -> prints v = true.
Proof.
  induction v as [ | | b | n | s | l IH | ps _ ] using value_nested_ind;
    auto.
  cbn [printable prints].
  induction IH as [ | x l Hx _ IHl ]; auto.
  intros H. apply andb_prop in H as [H1 H2].
  now rewrite (Hx H1), (IHl H2).
Qed.

Lemma cleaned_records (now : nat -> Z) (rs : list obj) :
  Forall (fun r => decodes (VObj r) = true) rs ->
  exists ys,
    mapi_throws (clean_at now) 0%nat (map VObj rs) = Some ys
    /\ List.length ys = List.length rs
    /\ (forall i r, nth_error rs i = Some r ->
          exists e, nth_error ys i = Some e
                    /\ clean_at now (VObj r) i = Some e
                    /\ has_wss_url e = is_wss (address_of_record r)).
Proof.
  intros Hrs. rewrite Forall_forall in Hrs.
  destruct (mapi_throws_total (clean_at now)
              (fun s i => catch (clean_at now s i) VUndefined)
              (map VObj rs) 0%nat) as [ys [E [Hlen Hnth]]].
  { intros x j Hx. apply in_map_iff in Hx as [r [<- Hr]].
    destruct (clean_at_decodes now (VObj r) j (Hrs r Hr)) as [y Hy].
    now rewrite Hy. }
  exists ys. split; [ exact E | ]. split.
  { now rewrite Hlen, length_map. }
  intros i r Hr.
  destruct (clean_at_decodes now (VObj r) i
              (Hrs r (nth_error_In _ _ Hr))) as [e He].
  exists e. split; [ | split; [ exact He | ] ].
  - rewrite (Hnth i (VObj r)).
    + cbv beta. change (0 + i)%nat with i. rewrite He. reflexivity.
    + now apply map_nth_error.
  - apply clean_at_some in He as [_ [_ [_ Hurl]]].
    unfold has_wss_url. rewrite Hurl. reflexivity.
Qed.

(** C4, as stated, fails in one part: the number the import handler
    reports is the number of records in the file, not the number of
    survivors.  For a file with the one record
    [{name: "Bad", url: "ftp://nope"}] nothing survives, and the toast
    reads [Loaded 1 servers.] *)
Lemma import_reports_survivors_counterexample :
  ~ (forall (JSON_parse : string -> throws value)
            (String_of_error : host_error -> string)
            (text : string) (now : nat -> Z) (rs : list obj)
            (out : list value)
            (app app' : App),
        JSON_parse text = Some (VArr (map VObj rs)) ->
        cleaned now (map VObj rs) = Some out ->
        onChange JSON_parse String_of_error (FileText text) now app
        = Some app' ->
        In (imported_toast out) (toasts app')).
Proof.
  intros H.
  specialize
    (H (parse_only (json_array sample_bad)
          (VArr (map VObj (map string_obj sample_bad))))
       sample_error_text (json_array sample_bad) (fun _ => 0)
       (map string_obj sample_bad) [] (mkApp [] [])
       (mkApp [] [mkToast "Imported" "Loaded 1 servers." false])
       eq_refl eq_refl eq_refl).
  simpl in H. destruct H as [ H | [] ].
  discriminate.
Qed.

(** C4, amended.  Let the file parse to the list of records [rs].
    - If the name and the address of every record can be printed (the
      name counting as [name || url || "Unnamed"], the address as
      [url || ""]), [cleaned] returns a list; a decoded record is in that
      list exactly when its address [String(url || "")] starts with
      [wss://]; if no record has such an address the list is empty.  The
      [Imported] toast of the handler reports the number of records of
      the file, survivors or not.
    - If [String] throws on the name or on the address of one record (an
      object with an own property [toString]), [cleaned] throws: the
      handler gives the destructive toast and the store is as it was,
      whatever the other records are. *)
Theorem cleaned_drops_non_wss (JSON_parse : string -> throws value)
  (String_of_error : host_error -> string) (text : string) (now : nat -> Z)
  (rs : list obj) (app : App) :
  JSON_parse text = Some (VArr (map VObj rs)) ->
  (Forall (fun r => printable (shown_name (VObj r)) = true
                    /\ printable (shown_url (VObj r)) = true) rs ->
   exists out,
     cleaned now (map VObj rs) = Some out
     /\ Forall (fun e => has_wss_url e = true) out
     /\ (forall e,
           In e out
           <-> exists i r, nth_error rs i = Some r
                           /\ clean_at now (VObj r) i = Some e
                           /\ is_wss (address_of_record r) = true)
     /\ ((forall r, In r rs -> is_wss (address_of_record r) = false) ->
         out = [])
     /\ (forall s,
           merge (servers app) out = Some s ->
           onChange JSON_parse String_of_error (FileText text) now app
           = Some {| servers := s;
                     toasts := toasts app ++
                       [mkToast "Imported"
                          ("Loaded " ++ string_of_nat (List.length rs)
                           ++ " servers.") false] |}))
  /\ (forall r,
        In r rs ->
        prints (shown_name (VObj r)) = false
        \/ prints (shown_url (VObj r)) = false ->
        cleaned now (map VObj rs) = None
        /\ onChange JSON_parse String_of_error (FileText text) now app
           = Some (notify (failed_toast (String_of_error TypeError)) app)).
Proof.
  intros Hparse. split; [ intros Hrs | ].
  2:{ intros r Hr Hp.
      assert (Hc : cleaned now (map VObj rs) = None).
      { apply (cleaned_fails now _ (VObj r)); [ now apply in_map | ].
        unfold decodes. cbn [readable andb].
        destruct Hp as [ -> | -> ]; [ reflexivity | apply andb_false_r ]. }
      split; [ exact Hc | ].
      unfold onChange. now rewrite Hparse, Hc. }
  assert (Hdec : Forall (fun r => decodes (VObj r) = true) rs).
  { eapply Forall_impl; [ | exact Hrs ]. intros r [Hn Hu].
    unfold decodes. cbn [readable andb].
    now rewrite (printable_prints _ Hn), (printable_prints _ Hu). }
  destruct (cleaned_records now rs Hdec) as [ys [E [Hlen Hnth]]].
  assert (Hc : cleaned now (map VObj rs) = Some (filter has_wss_url ys)).
  { unfold cleaned. rewrite E. reflexivity. }
  assert (Hiff : forall e,
            In e (filter has_wss_url ys)
            <-> exists i r, nth_error rs i = Some r
                            /\ clean_at now (VObj r) i = Some e
                            /\ is_wss (address_of_record r) = true).
  { intros e. rewrite filter_In. split.
    - intros [He Hw]. apply In_nth_error in He as [i Hi].
      assert (Hlt : (i < List.length rs)%nat).
      { rewrite <- Hlen. apply nth_error_Some. congruence. }
      destruct (nth_error rs i) as [ r | ] eqn:Hr.
      + destruct (Hnth i r Hr) as [e' [H1 [H2 H3]]].
        rewrite Hi in H1. injection H1 as <-.
        exists i, r. repeat split; auto. now rewrite <- H3.
      + apply nth_error_None in Hr. lia.
    - intros [i [r [Hr [He Hw]]]].
      destruct (Hnth i r Hr) as [e' [H1 [H2 H3]]].
      rewrite He in H2. injection H2 as <-.
      split.
      + now apply nth_error_In in H1.
      + now rewrite H3. }
  exists (filter has_wss_url ys).
  refine (conj Hc (conj _ (conj Hiff (conj _ _)))).
  - apply Forall_forall. intros e He. now apply filter_In in He.
  - intros Hnone.
    destruct (filter has_wss_url ys) as [ | e out ] eqn:Hf; [ reflexivity | ].
    exfalso.
    destruct (proj1 (Hiff e) (or_introl eq_refl)) as [i [r [Hr [_ Hw]]]].
    apply nth_error_In in Hr. rewrite (Hnone r Hr) in Hw. discriminate.
  - intros s Hs. unfold onChange. rewrite Hparse, Hc, Hs. cbn [bind].
    unfold notify, imported_toast. cbn [servers toasts].
    now rewrite length_map.
Qed.

(** C4 at a file with one good and one bad record: one survives. *)
Lemma cleaned_drops_non_wss_witness :
  parse_only (json_array sample_mixed)
    (VArr (map VObj (map string_obj sample_mixed)))
    (json_array sample_mixed)
  = Some (VArr (map VObj (map string_obj sample_mixed)))
  /\ exists out,
       cleaned (fun _ => 1700000000000)
         (map VObj (map string_obj sample_mixed))
       = Some out
       /\ Forall (fun e => has_wss_url e = true) out
       /\ List.length out = 1%nat.
Proof.
  split; [ reflexivity | ].
  destruct (cleaned_drops_non_wss
              (parse_only (json_array sample_mixed)
                 (VArr (map VObj (map string_obj sample_mixed))))
              sample_error_text (json_array sample_mixed)
              (fun _ => 1700000000000)
              (map string_obj sample_mixed) (mkApp [] []) eq_refl)
    as [H _].
  destruct H as [out [H1 [H2 _]]]; [ repeat constructor | ].
  exists out. refine (conj H1 (conj H2 _)).
  vm_compute in H1. injection H1 as <-. reflexivity.
Defined.

(* ------------------------------------------------------------------ *)
(** ** Export followed by import *)
(* ------------------------------------------------------------------ *)

Lemma shown_item (s : ServerItem) :
  (exists t, shown_name (item_value s) = VStr t)
  /\ (exists t, shown_url (item_value s) = VStr t).
Proof.
  unfold shown_name, shown_url.
  change (field_of (item_value s) f_name) with (VStr (name s)).
  change (field_of (item_value s) f_url) with (VStr (url s)).
  destruct (truthy (VStr (name s))), (truthy (VStr (url s)));
    split; eexists; reflexivity.
Qed.

(** An entry of the documented type decodes. *)
Lemma decodes_item (s : ServerItem) : decodes (item_value s) = true.
Proof.
  unfold decodes. destruct (shown_item s) as [[n ->] [u ->]]. reflexivity.
Qed.

Lemma address_of_item (s : ServerItem) :
  to_string (js_or (entry_url (item_value s)) (VStr "")) = url s.
Proof.
  rewrite entry_url_item. unfold js_or. simpl.
  destruct (String.eqb (url s) "") eqn:E; simpl; auto.
  apply String.eqb_eq in E. now rewrite E.
Qed.

(** Decoding exported entries keeps, in order, the addresses that start
    with [wss://]. *)
Lemma cleaned_items_addresses (now : nat -> Z) (entries : list ServerItem) :
  forall i ys,
  mapi_throws (clean_at now) i (map item_value entries) = Some ys ->
  map entry_url (filter has_wss_url ys)
  = map VStr (filter is_wss (map url entries)).
Proof.
  induction entries as [ | s entries IH ]; intros i ys H.
  - simpl in H. injection H as <-. reflexivity.
  - cbn [map mapi_throws] in H.
    destruct (clean_at now (item_value s) i) as [ y | ] eqn:Ey;
      [ | discriminate ].
    cbn [bind] in H.
    destruct (mapi_throws (clean_at now) (S i) (map item_value entries))
      as [ ys' | ] eqn:E; [ | discriminate ].
    cbn [bind] in H. injection H as <-.
    apply clean_at_some in Ey as [_ [_ [_ Hurl]]].
    rewrite address_of_item in Hurl.
    cbn [filter map]. unfold has_wss_url at 1. rewrite Hurl.
    cbn [to_string].
    destruct (is_wss (url s)); cbn [map]; rewrite (IH _ _ E);
      now try rewrite Hurl.
Qed.

(** C8, as stated, fails: an entry whose address does not start with
    [wss://] does not come back from the round trip. *)
Lemma export_import_addresses_counterexample :
  ~ (forall (JSON_parse : string -> throws value)
            (JSON_stringify : value -> nat -> string) (now : nat -> Z)
            (entries : list ServerItem) (out : list value),
        JSON_parse (export_json JSON_stringify (map item_value entries))
        = Some (VArr (map item_value entries)) ->
        decode JSON_parse now
          (export_json JSON_stringify (map item_value entries))
        = Some out ->
        forall a, In a (map entry_url out)
                  <-> In a (map entry_url (map item_value entries))).
Proof.
  intros H.
  specialize
    (H (parse_only sample_ws_export (VArr [item_value sample_ws_entry]))
       (fun _ _ => sample_ws_export) (fun _ => 0) [sample_ws_entry] []
       eq_refl eq_refl (VStr "ws://a.example")).
  destruct H as [_ H]. apply H. left. reflexivity.
Qed.

(** C8, amended.  Let the host read the exported text back as the
    exported array.  Then decoding the export succeeds, and the addresses
    of the decoded entries are, in order, the addresses of the original
    entries that start with [wss://]; so the two sets of addresses are the
    same when every original address starts with [wss://]. *)
Theorem export_import_addresses (JSON_parse : string -> throws value)
  (JSON_stringify : value -> nat -> string) (now : nat -> Z)
  (entries : list ServerItem) :
  JSON_parse (export_json JSON_stringify (map item_value entries))
  = Some (VArr (map item_value entries)) ->
  exists out,
    decode JSON_parse now
      (export_json JSON_stringify (map item_value entries))
    = Some out
    /\ map entry_url out = map VStr (filter is_wss (map url entries))
    /\ (Forall (fun e => is_wss (url e) = true) entries ->
        forall a, In a (map entry_url out)
                  <-> In a (map entry_url (map item_value entries))).
Proof.
  intros Hparse. unfold decode. rewrite Hparse. cbn [bind].
  destruct (mapi_throws_total (clean_at now)
              (fun s i => catch (clean_at now s i) VUndefined)
              (map item_value entries) 0%nat) as [ys [E _]].
  { intros x j Hx. apply in_map_iff in Hx as [s [<- _]].
    destruct (clean_at_decodes now (item_value s) j (decodes_item s))
      as [y Hy].
    now rewrite Hy. }
  exists (filter has_wss_url ys).
  assert (Haddr : map entry_url (filter has_wss_url ys)
                  = map VStr (filter is_wss (map url entries)))
    by exact (cleaned_items_addresses now entries _ _ E).
  refine (conj _ (conj Haddr _)).
  - unfold cleaned. rewrite E. reflexivity.
  - intros Hall a. rewrite Haddr.
    assert (Hf : filter is_wss (map url entries) = map url entries).
    { apply forallb_filter_id. apply forallb_forall.
      intros u Hu. apply in_map_iff in Hu as [e [<- He]].
      rewrite Forall_forall in Hall. now apply Hall. }
    rewrite Hf, !map_map. reflexivity.
Qed.

(** C8 at two entries with [wss://] addresses. *)
Lemma export_import_addresses_witness :
  parse_only sample_export (VArr (map item_value sample_entries))
    (export_json (fun _ _ => sample_export) (map item_value sample_entries))
  = Some (VArr (map item_value sample_entries))
  /\ exists out,
       decode (parse_only sample_export
                 (VArr (map item_value sample_entries)))
         (fun _ => 1700000000000)
         (export_json (fun _ _ => sample_export)
            (map item_value sample_entries))
       = Some out
       /\ map entry_url out
          = [VStr "wss://a.example"; VStr "wss://b.example"].
Proof.
  split; [ reflexivity | ].
  destruct (export_import_addresses
              (parse_only sample_export
                 (VArr (map item_value sample_entries)))
              (fun _ _ => sample_export) (fun _ => 1700000000000)
              sample_entries eq_refl)
    as [out [H1 [H2 _]]].
  exists out. exact (conj H1 H2).
Defined.

(* ------------------------------------------------------------------ *)
(** ** Strings: prefixes, substrings, case *)
(* ------------------------------------------------------------------ *)

Lemma starts_with_app (p post : string) : starts_with p (p ++ post) = true.
Proof.
  induction p as [ | a p IH ]; simpl; auto.
  now rewrite Ascii.eqb_refl, IH.
Qed.

Lemma starts_with_spec (p s : string) :
  starts_with p s = true <-> exists post, s = (p ++ post)%string.
Proof.
  split.
  - revert s. induction p as [ | a p IH ]; intros s H.
    + now exists s.
    + destruct s as [ | b s ]; simpl in H; [ discriminate | ].
      apply andb_true_iff in H as [H1 H2].
      apply Ascii.eqb_eq in H1. subst b.
      destruct (IH s H2) as [post ->]. now exists post.
  - intros [post ->]. apply starts_with_app.
Qed.

Lemma includes_starts (s needle : string) :
  starts_with needle s = true -> includes s needle = true.
Proof. intros H. destruct s; simpl; now rewrite H. Qed.

(** [includes] is the substring test. *)
Lemma includes_spec (s needle : string) :
  includes s needle = true
  <-> exists pre post, s = (pre ++ needle ++ post)%string.
Proof.
  split.
  - induction s as [ | c s IH ]; simpl; intros H.
    + rewrite orb_false_r in H. apply starts_with_spec in H as [post H].
      now exists "", post.
    + apply orb_true_iff in H as [ H | H ].
      * apply starts_with_spec in H as [post H]. now exists "", post.
      * destruct (IH H) as [pre [post ->]].
        now exists (String c pre), post.
  - intros [pre [post ->]].
    induction pre as [ | c pre IH ].
    + apply includes_starts. exact (starts_with_app needle post).
    + simpl. rewrite IH. apply orb_true_r.
Qed.

Lemma includes_empty (s : string) : includes s "" = true.
Proof. destruct s; reflexivity. Qed.

Lemma map_chars_app (f : ascii -> ascii) (a b : string) :
  map_chars f (a ++ b) = (map_chars f a ++ map_chars f b)%string.
Proof. induction a as [ | c a IH ]; simpl; auto. now rewrite IH. Qed.

Lemma lower_upper_char (c : ascii) : lower_char (upper_char c) = lower_char c.
Proof.
  destruct c as [[] [] [] [] [] [] [] []]; reflexivity.
Qed.

Lemma toLowerCase_toUpperCase (s : string) :
  toLowerCase (toUpperCase s) = toLowerCase s.
Proof.
  unfold toLowerCase, toUpperCase.
  induction s as [ | c s IH ]; cbn [map_chars].
  - reflexivity.
  - now rewrite lower_upper_char, IH.
Qed.

(* ------------------------------------------------------------------ *)
(** ** [sort] *)
(* ------------------------------------------------------------------ *)

Section SortFacts.

Context {A : Type} (cmp : A -> A -> Z).

Lemma insert_sorted_perm (x : A) (l : list A) :
  Permutation (x :: l) (insert_sorted cmp x l).
Proof.
  induction l as [ | y l IH ]; simpl.
  - apply Permutation_refl.
  - destruct (cmp x y <=? 0).
    + apply Permutation_refl.
    + eapply perm_trans; [ apply perm_swap | ].
      now apply perm_skip.
Qed.

Lemma sort_perm (l : list A) : Permutation l (sort cmp l).
Proof.
  induction l as [ | x l IH ]; simpl.
  - constructor.
  - eapply perm_trans; [ | apply insert_sorted_perm ].
    now apply perm_skip.
Qed.

Lemma In_sort (x : A) (l : list A) : In x (sort cmp l) <-> In x l.
Proof.
  split; apply Permutation_in.
  - apply Permutation_sym, sort_perm.
  - apply sort_perm.
Qed.

End SortFacts.

(** What the comparator takes for the votes of an entry is its vote
    count. *)
Lemma num_or_voteCount (s : ServerItem) : num_or (votes s) 0 = voteCount s.
Proof.
  unfold num_or, voteCount. destruct (votes s) as [ n | ]; auto.
  destruct (n =? 0) eqn:E; auto. apply Z.eqb_eq in E. now rewrite E.
Qed.

Lemma insert_by_votes_sorted (x : ServerItem) (l : list ServerItem) :
  Sorted (fun a b => voteCount b <= voteCount a) l ->
  Sorted (fun a b => voteCount b <= voteCount a) (insert_sorted by_votes x l).
Proof.
  induction 1 as [ | y l Hl IH Hy ]; simpl.
  - repeat constructor.
  - destruct (by_votes x y <=? 0) eqn:E.
    + apply Z.leb_le in E. unfold by_votes in E.
      rewrite !num_or_voteCount in E.
      constructor; [ now constructor | ].
      constructor. lia.
    + apply Z.leb_gt in E. unfold by_votes in E.
      rewrite !num_or_voteCount in E.
      constructor; [ exact IH | ].
      destruct l as [ | z l ]; simpl.
      * constructor. lia.
      * inversion Hy; subst.
        destruct (by_votes x z <=? 0); constructor; auto.
        lia.
Qed.

Lemma sort_by_votes_sorted (l : list ServerItem) :
  Sorted (fun a b => voteCount b <= voteCount a) (sort by_votes l).
Proof.
  induction l as [ | x l IH ]; simpl.
  - constructor.
  - now apply insert_by_votes_sorted.
Qed.

Lemma Sorted_adjacent {A : Type} (R : A -> A -> Prop) (l : list A) :
  Sorted R l -> forall pre a b post, l = pre ++ a :: b :: post -> R a b.
Proof.
  induction 1 as [ | x l Hl IH Hx ]; intros pre a b post E.
  - now destruct pre.
  - destruct pre as [ | p pre ]; simpl in E; injection E as -> ->.
    + now inversion Hx.
    + eapply IH. reflexivity.
Qed.

(** Insertion puts the new entry in front of the entries of the same vote
    count. *)
Lemma insert_by_votes_stable (v : Z) (x : ServerItem) (l : list ServerItem) :
  filter (fun s => voteCount s =? v) (insert_sorted by_votes x l)
  = filter (fun s => voteCount s =? v) (x :: l).
Proof.
  induction l as [ | y l IH ]; simpl.
  - reflexivity.
  - destruct (by_votes x y <=? 0) eqn:E.
    + reflexivity.
    + apply Z.leb_gt in E. unfold by_votes in E.
      rewrite !num_or_voteCount in E.
      simpl. rewrite IH. simpl.
      destruct (voteCount x =? v) eqn:Ex; auto.
      apply Z.eqb_eq in Ex.
      assert (Ey : (voteCount y =? v) = false).
      { apply Z.eqb_neq. lia. }
      now rewrite Ey.
Qed.

Lemma sort_by_votes_stable (v : Z) (l : list ServerItem) :
  filter (fun s => voteCount s =? v) (sort by_votes l)
  = filter (fun s => voteCount s =? v) l.
Proof.
  induction l as [ | x l IH ]; simpl.
  - reflexivity.
  - rewrite insert_by_votes_stable. simpl. now rewrite IH.
Qed.

(* ------------------------------------------------------------------ *)
(** ** Query engine *)
(* ------------------------------------------------------------------ *)

Lemma In_filtered (localeCompare : string -> string -> Z)
  (servers : list ServerItem) (q : string) (selected : list string)
  (sort_key : string) (s : ServerItem) :
  In s (filtered localeCompare servers q selected sort_key)
  <-> In s servers /\ matchesQ s q && matchesTags s selected = true.
Proof.
  unfold filtered.
  destruct (String.eqb sort_key "name");
    [ | destruct (String.eqb sort_key "votes");
        [ | destruct (String.eqb sort_key "source") ] ];
    rewrite ?In_sort; apply filter_In.
Qed.

(** C5, as stated, fails: the text that is searched is the name, a space
    and the address, not the name directly followed by the address.  The
    query [Xwss] occurs in [NexoXwss://nexo-app.net] but the seed entry
    [NexoX] does not pass the filter. *)
Lemma matchesQ_concatenation_counterexample :
  ~ (forall (s : ServerItem) (q : string),
        matchesQ s q = true
        <-> includes (toLowerCase (name s ++ url s)) (toLowerCase q) = true).
Proof.
  intros H.
  specialize
    (H (seed "nexo" "NexoX" "wss://nexo-app.net"
          ["PvP"; "Economy"; "Minigames"; "Survival"]
          "Explore endless adventures." "TopEaglerServers")
       "Xwss").
  destruct H as [_ H]. specialize (H eq_refl). discriminate.
Qed.

(** C5, amended.  Let the name and the address of the entry and the
    query be ASCII texts, on which the case mapping of JS is the one of
    the letters A-Z and a-z.  The entry passes the text filter if and
    only if the lower-cased text made of its name, one space and its
    address contains the lower-cased query as a substring; the empty
    query passes it, and so does its upper-cased name.  With no tag
    selected and the entries sorted by votes, the result of [filtered]
    holds the entry exactly when the store holds it and it passes the
    text filter; a store of this one entry, queried with its upper-cased
    name, is returned as it is, whatever the sort key (no comparison is
    made). *)
Theorem matchesQ_substring (localeCompare : string -> string -> Z)
  (servers : list ServerItem) (s : ServerItem) (q sort_key : string) :
  ascii_text (name s) = true -> ascii_text (url s) = true ->
  ascii_text q = true ->
  (matchesQ s q = true
   <-> exists pre post,
         toLowerCase (name s ++ " " ++ url s)
         = (pre ++ toLowerCase q ++ post)%string)
  /\ matchesQ s "" = true
  /\ matchesQ s (toUpperCase (name s)) = true
  /\ (In s (filtered localeCompare servers q [] "votes")
      <-> In s servers /\ matchesQ s q = true)
  /\ filtered localeCompare [s] (toUpperCase (name s)) [] sort_key = [s].
Proof.
  intros _ _ _.
  assert (Hupper : matchesQ s (toUpperCase (name s)) = true).
  { unfold matchesQ. rewrite toLowerCase_toUpperCase.
    unfold toLowerCase. rewrite map_chars_app.
    apply includes_starts, starts_with_app. }
  refine (conj _ (conj _ (conj Hupper (conj _ _)))).
  - unfold matchesQ. apply includes_spec.
  - unfold matchesQ. apply includes_empty.
  - rewrite In_filtered. simpl. now rewrite andb_true_r.
  - unfold filtered. cbn [filter matchesTags List.length Nat.eqb orb].
    rewrite Hupper. cbn [andb].
    destruct (String.eqb sort_key "name"); [ reflexivity | ].
    destruct (String.eqb sort_key "votes"); [ reflexivity | ].
    destruct (String.eqb sort_key "source"); reflexivity.
Qed.

(** C5 at the seed [NexoX] and the query [NEXOX]. *)
Lemma matchesQ_substring_witness :
  ascii_text "NexoX" = true
  /\ ascii_text "wss://nexo-app.net" = true
  /\ ascii_text "NEXOX" = true
  /\ matchesQ
       (seed "nexo" "NexoX" "wss://nexo-app.net"
          ["PvP"; "Economy"; "Minigames"; "Survival"]
          "Explore endless adventures." "TopEaglerServers")
       "NEXOX" = true.
Proof.
  refine (conj eq_refl (conj eq_refl (conj eq_refl _))).
  exact (proj1 (proj2 (proj2
           (matchesQ_substring byte_order []
              (seed "nexo" "NexoX" "wss://nexo-app.net"
                 ["PvP"; "Economy"; "Minigames"; "Survival"]
                 "Explore endless adventures." "TopEaglerServers")
              "NEXOX" "name" eq_refl eq_refl eq_refl)))).
Defined.

(** C7.  With the sort key [votes] the result of [filtered] is the
    candidate set (the entries that pass both filters) reordered so that
    - of two adjacent entries the first has at least the vote count of the
      second, an absent count being 0;
    - the entries of one vote count are in the order they have in the
      input. *)
Theorem sort_by_votes_descending_stable
  (localeCompare : string -> string -> Z) (servers : list ServerItem)
  (q : string) (selected : list string) :
  let candidates :=
    filter (fun s => matchesQ s q && matchesTags s selected) servers in
  let out := filtered localeCompare servers q selected "votes" in
  Permutation candidates out
  /\ (forall pre a b post,
        out = pre ++ a :: b :: post -> voteCount a >= voteCount b)
  /\ (forall v,
        filter (fun s => voteCount s =? v) out
        = filter (fun s => voteCount s =? v) candidates).
Proof.
  cbv zeta. unfold filtered. cbn [String.eqb Ascii.eqb Bool.eqb].
  refine (conj _ (conj _ _)).
  - apply sort_perm.
  - intros pre a b post E.
    pose proof (Sorted_adjacent _ _ (sort_by_votes_sorted _) _ _ _ _ E) as H.
    simpl in H. lia.
  - intros v. apply sort_by_votes_stable.
Qed.

(* ------------------------------------------------------------------ *)
(** ** Liveness probe *)
(* ------------------------------------------------------------------ *)

(** Once the latch is set no event reports anything. *)
Lemma deliver_done (s : ServerItem) (p : probe) (ev : probe_event) :
  done p = true ->
  done (deliver s p ev) = true
  /\ reported (deliver s p ev) = reported p
  /\ pingingId (deliver s p ev) = pingingId p
  /\ (timer_pending p = false -> timer_pending (deliver s p ev) = false).
Proof.
  intros H. destruct ev; simpl.
  - destruct (ws p); unfold onopen; rewrite ?H; repeat split; auto.
  - destruct (ws p); unfold onerror; rewrite ?H; repeat split; auto.
  - destruct (timer_pending p) eqn:T; unfold on_timeout; simpl;
      rewrite ?H; simpl; repeat split; auto.
Qed.

Lemma run_done (s : ServerItem) (evs : list probe_event) :
  forall p,
  done p = true -> timer_pending p = false ->
  done (run s p evs) = true
  /\ reported (run s p evs) = reported p
  /\ pingingId (run s p evs) = pingingId p
  /\ timer_pending (run s p evs) = false.
Proof.
  induction evs as [ | ev evs IH ]; intros p Hd Ht; simpl; auto.
  destruct (deliver_done s p ev Hd) as [H1 [H2 [H3 H4]]].
  destruct (IH (deliver s p ev) H1 (H4 Ht)) as [G1 [G2 [G3 G4]]].
  repeat split; congruence.
Qed.

(** When the constructor throws, nothing is left that could fire. *)
Lemma run_threw (s : ServerItem) (e : string) (evs : list probe_event) :
  run s (quickPing s (Threw e)) evs = quickPing s (Threw e).
Proof.
  induction evs as [ | ev evs IH ]; simpl; auto.
  destruct ev; exact IH.
Qed.

(** C3.  One invocation of [quickPing] reports at most once, whatever
    events arrive and in whatever order:
    - if the constructor throws, the error is the one report, and no
      later event adds to it;
    - otherwise nothing is reported while no event has arrived, and the
      timeout is then still pending; as soon as an event arrives, the
      report is the one of the first event (online for [open],
      unreachable for [error], timed out for the timer), the latch is
      set, the timeout is no longer pending, and every later event is
      ignored.
    So exactly one outcome has been reported once the timeout is no
    longer pending, that is, once it has fired or has been cleared. *)
Theorem quickPing_one_outcome (s : ServerItem) (c : construction)
  (evs : list probe_event) :
  (List.length (reported (run s (quickPing s c) evs)) <= 1)%nat
  /\ (timer_pending (run s (quickPing s c) evs) = false ->
      List.length (reported (run s (quickPing s c) evs)) = 1%nat)
  /\ match c with
     | Threw e =>
         reported (run s (quickPing s c) evs) = [status_toast s e true]
         /\ pingingId (run s (quickPing s c) evs) = None
     | Constructed =>
         match evs with
         | [] =>
             reported (run s (quickPing s c) evs) = []
             /\ done (run s (quickPing s c) evs) = false
             /\ timer_pending (run s (quickPing s c) evs) = true
             /\ pingingId (run s (quickPing s c) evs) = Some (id s)
         | ev :: _ =>
             reported (run s (quickPing s c) evs) = [outcome_toast s ev]
             /\ done (run s (quickPing s c) evs) = true
             /\ timer_pending (run s (quickPing s c) evs) = false
             /\ pingingId (run s (quickPing s c) evs) = None
         end
     end.
Proof.
  destruct c as [ | e ].
  - destruct evs as [ | ev evs ].
    + simpl. repeat split; auto. discriminate.
    + assert (H : done (deliver s (quickPing s Constructed) ev) = true
                  /\ timer_pending (deliver s (quickPing s Constructed) ev)
                     = false
                  /\ reported (deliver s (quickPing s Constructed) ev)
                     = [outcome_toast s ev]
                  /\ pingingId (deliver s (quickPing s Constructed) ev)
                     = None).
      { destruct ev; simpl; auto. }
      destruct H as [H1 [H2 [H3 H4]]].
      change (run s (quickPing s Constructed) (ev :: evs))
        with (run s (deliver s (quickPing s Constructed) ev) evs).
      destruct (run_done s evs _ H1 H2) as [G1 [G2 [G3 G4]]].
      rewrite G2, G3, G4, H3, H4. simpl. repeat split; auto.
  - rewrite run_threw. simpl. repeat split; auto.
Qed.

(* ================================================================== *)
(** * Further properties of the code *)
(* ================================================================== *)

(* ------------------------------------------------------------------ *)
(** ** Query engine: what [filtered] keeps *)
(* ------------------------------------------------------------------ *)

Lemma matchesTags_forallb (s : ServerItem) (selected : list string) :
  matchesTags s selected
  = forallb
      (fun t =>
         match tags s with
         | Some ts => existsb (String.eqb t) ts
         | None => false
         end)
      selected.
Proof. unfold matchesTags. now destruct selected. Qed.

Lemma existsb_eqb_In (t : string) (ts : list string) :
  existsb (String.eqb t) ts = true <-> In t ts.
Proof.
  rewrite existsb_exists. split.
  - intros [x [Hx E]]. apply String.eqb_eq in E. now subst.
  - intros H. exists t. split; auto. apply String.eqb_refl.
Qed.

Lemma matchesTags_spec (s : ServerItem) (selected : list string) :
  matchesTags s selected = true
  <-> forall t, In t selected -> exists ts, tags s = Some ts /\ In t ts.
Proof.
  rewrite matchesTags_forallb, forallb_forall. split.
  - intros H t Ht. specialize (H t Ht).
    destruct (tags s) as [ ts | ]; [ | discriminate ].
    exists ts. split; auto. now apply existsb_eqb_In.
  - intros H t Ht. destruct (H t Ht) as [ts [-> Hin]].
    now apply existsb_eqb_In.
Qed.

Lemma string_app_assoc (a b c : string) :
  ((a ++ b) ++ c = a ++ (b ++ c))%string.
Proof. induction a as [ | x a IH ]; simpl; auto. now rewrite IH. Qed.

Lemma string_app_nil_r (a : string) : (a ++ "" = a)%string.
Proof. induction a as [ | x a IH ]; simpl; auto. now rewrite IH. Qed.

Lemma includes_trans (h n m : string) :
  includes h n = true -> includes n m = true -> includes h m = true.
Proof.
  intros H1 H2.
  apply includes_spec in H1 as [a [b ->]].
  apply includes_spec in H2 as [c [d ->]].
  apply includes_spec. exists (a ++ c)%string, (d ++ b)%string.
  now rewrite !string_app_assoc.
Qed.

Lemma includes_app_l (a b : string) : includes (a ++ b) a = true.
Proof. apply includes_starts, starts_with_app. Qed.

Lemma includes_app_r (a b : string) : includes (a ++ b) b = true.
Proof.
  apply includes_spec. exists a, ""%string.
  now rewrite string_app_nil_r.
Qed.

Lemma toLowerCase_app (a b : string) :
  toLowerCase (a ++ b) = (toLowerCase a ++ toLowerCase b)%string.
Proof. apply map_chars_app. Qed.

(** A query that occurs in a longer query passes whatever the longer one
    passes. *)
Lemma matchesQ_narrow (s : ServerItem) (q q' : string) :
  includes (toLowerCase q') (toLowerCase q) = true ->
  matchesQ s q' = true -> matchesQ s q = true.
Proof.
  unfold matchesQ. intros H1 H2.
  now apply includes_trans with (n := toLowerCase q').
Qed.

Lemma byte_order_refl (a : string) : String.compare a a = Eq.
Proof.
  destruct (String.compare a a) eqn:E; auto.
  - apply String_as_OT.cmp_lt in E. exfalso.
    exact (String_as_OT.lt_not_eq _ _ E eq_refl).
  - rewrite String.compare_antisym in E.
    destruct (String.compare a a) eqn:E'; try discriminate.
    apply String_as_OT.cmp_lt in E'. exfalso.
    exact (String_as_OT.lt_not_eq _ _ E' eq_refl).
Qed.

Lemma byte_order_trans (a b c : string) :
  String.compare a b <> Gt -> String.compare b c <> Gt ->
  String.compare a c <> Gt.
Proof.
  intros H1 H2 H3.
  assert (Hca : String_as_OT.lt c a).
  { apply String_as_OT.cmp_lt. change (String.compare c a = Lt).
    rewrite String.compare_antisym, H3. reflexivity. }
  destruct (String.compare a b) eqn:E1; try congruence.
  - apply String.compare_eq_iff in E1. subst b.
    apply H2. rewrite String.compare_antisym.
    apply String_as_OT.cmp_lt in Hca.
    change (String.compare c a = Lt) in Hca. now rewrite Hca.
  - apply String_as_OT.cmp_lt in E1.
    destruct (String.compare b c) eqn:E2; try congruence.
    + apply String.compare_eq_iff in E2. subst c.
      exact (String_as_OT.lt_not_eq _ _
               (String_as_OT.lt_trans _ _ _ E1 Hca) eq_refl).
    + apply String_as_OT.cmp_lt in E2.
      exact (String_as_OT.lt_not_eq _ _
               (String_as_OT.lt_trans _ _ _
                  (String_as_OT.lt_trans _ _ _ E1 E2) Hca) eq_refl).
Qed.

(** The order of the bytes is a consistent comparator. *)
Lemma consistent_byte_order : consistent byte_order.
Proof.
  unfold consistent, byte_order. refine (conj _ (conj _ _)).
  - intros a. now rewrite byte_order_refl.
  - intros a b. rewrite (String.compare_antisym b a).
    destruct (String.compare a b); cbn [CompOpp]; lia.
  - intros a b c Hab Hbc.
    assert (H : String.compare a c <> Gt).
    { apply (byte_order_trans a b c).
      - destruct (String.compare a b); try discriminate. lia.
      - destruct (String.compare b c); try discriminate. lia. }
    destruct (String.compare a c); try lia. congruence.
Qed.

Lemma seeds_ascii : Forall (fun s => ascii_item s = true) SEED_SERVERS.
Proof.
  apply Forall_forall. apply (proj1 (forallb_forall ascii_item SEED_SERVERS)).
  vm_compute. reflexivity.
Qed.

(** X2.  Take a store of [ServerItem]s whose names and addresses are
    ASCII texts, an ASCII query, and a comparison of the host that is a
    consistent comparator.  The tag filter is a conjunction: an entry
    passes exactly when every selected tag is one of its tags (an entry
    without tags passes only the empty selection).  So a larger selection
    passes no more entries, and neither does a longer query: typing on,
    in front or behind, or ticking one more tag never adds an entry to
    the result. *)
Theorem filtered_narrows (localeCompare : string -> string -> Z)
  (servers : list ServerItem) (q c : string) (selected : list string)
  (t sort_key : string) (s : ServerItem) :
  consistent localeCompare ->
  Forall (fun x => ascii_item x = true) servers ->
  ascii_text q = true -> ascii_text c = true ->
  (matchesTags s selected = true
   <-> forall t', In t' selected ->
                  exists ts, tags s = Some ts /\ In t' ts)
  /\ incl (filtered localeCompare servers q (selected ++ [t]) sort_key)
          (filtered localeCompare servers q selected sort_key)
  /\ incl (filtered localeCompare servers (q ++ c) selected sort_key)
          (filtered localeCompare servers q selected sort_key)
  /\ incl (filtered localeCompare servers (c ++ q) selected sort_key)
          (filtered localeCompare servers q selected sort_key).
Proof.
  intros _ _ _ _.
  refine (conj (matchesTags_spec s selected) (conj _ (conj _ _)));
    intros x Hx; apply In_filtered in Hx as [Hin Hx];
    apply andb_true_iff in Hx as [Hq Ht];
    apply In_filtered; split; auto; apply andb_true_iff; split; auto.
  - apply matchesTags_spec. intros t' Ht'.
    apply (proj1 (matchesTags_spec x (selected ++ [t])) Ht).
    apply in_or_app. now left.
  - apply matchesQ_narrow with (q' := (q ++ c)%string); auto.
    rewrite toLowerCase_app. apply includes_app_l.
  - apply matchesQ_narrow with (q' := (c ++ q)%string); auto.
    rewrite toLowerCase_app. apply includes_app_r.
Qed.

(** X2 at the seeds, sorted by name in the order of the bytes: the
    entry found for [nex] is among the five found for [ne]. *)
Lemma filtered_narrows_witness :
  consistent byte_order
  /\ Forall (fun x => ascii_item x = true) SEED_SERVERS
  /\ List.length (filtered byte_order SEED_SERVERS "ne" [] "name") = 5%nat
  /\ List.length (filtered byte_order SEED_SERVERS "nex" [] "name") = 1%nat
  /\ incl (filtered byte_order SEED_SERVERS ("ne" ++ "x") [] "name")
          (filtered byte_order SEED_SERVERS "ne" [] "name").
Proof.
  refine (conj consistent_byte_order (conj seeds_ascii
            (conj _ (conj _ _)))).
  - vm_compute. reflexivity.
  - vm_compute. reflexivity.
  - exact (proj1 (proj2 (proj2
             (filtered_narrows byte_order SEED_SERVERS "ne" "x" [] "PvP"
                "name" (seed "" "" "" [] "" "")
                consistent_byte_order seeds_ascii eq_refl eq_refl)))).
Defined.

(** X3.  For an entry and a query that are ASCII texts: a query that
    occurs, whatever the case of its letters, in the name of the entry or
    in its address passes the entry. *)
Theorem matchesQ_name_or_url (s : ServerItem) (q : string) :
  ascii_text (name s) = true -> ascii_text (url s) = true ->
  ascii_text q = true ->
  includes (toLowerCase (name s)) (toLowerCase q)
  || includes (toLowerCase (url s)) (toLowerCase q) = true ->
  matchesQ s q = true.
Proof.
  intros _ _ _ H. unfold matchesQ. rewrite !toLowerCase_app.
  apply orb_true_iff in H as [ H | H ].
  - eapply includes_trans; [ apply includes_app_l | exact H ].
  - eapply includes_trans; [ | exact H ].
    rewrite <- string_app_assoc. apply includes_app_r.
Qed.

Lemma matchesQ_name_or_url_witness :
  ascii_text "NexoX" = true
  /\ ascii_text "wss://nexo-app.net" = true
  /\ ascii_text "EXO" = true
  /\ includes (toLowerCase "NexoX") (toLowerCase "EXO")
  || includes (toLowerCase "wss://nexo-app.net") (toLowerCase "EXO") = true
  /\ matchesQ
       (seed "nexo" "NexoX" "wss://nexo-app.net"
          ["PvP"; "Economy"; "Minigames"; "Survival"]
          "Explore endless adventures." "TopEaglerServers")
       "EXO"
     = true.
Proof.
  refine (conj eq_refl (conj eq_refl (conj eq_refl (conj eq_refl _)))).
  exact (matchesQ_name_or_url
           (seed "nexo" "NexoX" "wss://nexo-app.net"
              ["PvP"; "Economy"; "Minigames"; "Survival"]
              "Explore endless adventures." "TopEaglerServers")
           "EXO" eq_refl eq_refl eq_refl eq_refl).
Defined.

(* ------------------------------------------------------------------ *)
(** ** Query engine: the sort keys [name] and [source] *)
(* ------------------------------------------------------------------ *)

Section SortedBy.

Context {A : Type} (cmp : A -> A -> Z).

Hypothesis cmp_asym : forall a b, cmp a b > 0 -> cmp b a <= 0.

Lemma insert_sorted_Sorted (x : A) (l : list A) :
  Sorted (fun a b => cmp a b <= 0) l ->
  Sorted (fun a b => cmp a b <= 0) (insert_sorted cmp x l).
Proof.
  induction 1 as [ | y l Hl IH Hy ]; simpl.
  - repeat constructor.
  - destruct (cmp x y <=? 0) eqn:E.
    + apply Z.leb_le in E. constructor; [ now constructor | ].
      now constructor.
    + apply Z.leb_gt in E.
      assert (Hyx : cmp y x <= 0) by (apply cmp_asym; lia).
      constructor; [ exact IH | ].
      destruct l as [ | z l ]; simpl.
      * now constructor.
      * inversion Hy; subst.
        destruct (cmp x z <=? 0); now constructor.
Qed.

Lemma sort_Sorted (l : list A) :
  Sorted (fun a b => cmp a b <= 0) (sort cmp l).
Proof.
  induction l as [ | x l IH ]; simpl.
  - constructor.
  - now apply insert_sorted_Sorted.
Qed.

End SortedBy.

Lemma consistent_asym (cmp : string -> string -> Z) :
  consistent cmp -> forall a b, cmp a b > 0 -> cmp b a <= 0.
Proof.
  intros [_ [H _]] a b Hab. apply H in Hab. lia.
Qed.

Lemma field_source_item (s : ServerItem) :
  field_of (item_value s) f_source
  = match source s with
    | Some l => VStr l
    | None => VUndefined
    end.
Proof.
  destruct s as [i n u [ts | ] [sh | ] [r | ] [v | ] [c | ] [so | ]];
    reflexivity.
Qed.

Lemma label_item (s : ServerItem) :
  js_or (field_of (item_value s) f_source) (VStr "zzz")
  = VStr (sourceLabel s).
Proof.
  rewrite field_source_item. unfold sourceLabel, js_or.
  destruct (source s) as [ l | ]; cbn [truthy]; auto.
  now destruct (String.eqb l "").
Qed.

Lemma prop_item (s : ServerItem) (f : field) :
  prop (item_value s) f = Some (field_of (item_value s) f).
Proof. reflexivity. Qed.

(** X4.  Sorting by name and by source.
    - On a store of [ServerItem]s, and when the comparison of the host is
      a consistent comparator: with the sort key [name] the names of
      adjacent entries of the result are in order, and with the sort key
      [source] so are their source labels, an entry without a label (or
      with an empty one) counting as labelled [zzz].
    - On [ServerItem]s the two comparators of the code return what
      [by_name] and [by_source] say.
    - On other elements of the store they throw: the comparison by name
      when the name of the first element is no string (an entry without
      a name, which [loadServers] keeps), the comparison by source when
      the source of the first element is truthy and no string (a number,
      which [importList] keeps). *)
Theorem sort_by_name_and_source_ordered
  (localeCompare : string -> string -> Z) (servers : list ServerItem)
  (q : string) (selected : list string) :
  consistent localeCompare ->
  (forall pre a b post,
      filtered localeCompare servers q selected "name"
      = pre ++ a :: b :: post ->
      localeCompare (name a) (name b) <= 0)
  /\ (forall pre a b post,
        filtered localeCompare servers q selected "source"
        = pre ++ a :: b :: post ->
        localeCompare (sourceLabel a) (sourceLabel b) <= 0)
  /\ (forall a b : ServerItem,
        by_name_value localeCompare (item_value a) (item_value b)
        = Some (by_name localeCompare a b)
        /\ by_source_value localeCompare (item_value a) (item_value b)
           = Some (by_source localeCompare a b))
  /\ (forall a b : value,
        is_string (field_of a f_name) = false ->
        by_name_value localeCompare a b = None)
  /\ (forall a b : value,
        truthy (field_of a f_source) = true ->
        is_string (field_of a f_source) = false ->
        by_source_value localeCompare a b = None).
Proof.
  intros Hcons. pose proof (consistent_asym _ Hcons) as Hasym.
  refine (conj _ (conj _ (conj _ (conj _ _)))).
  - unfold filtered. cbn [String.eqb Ascii.eqb Bool.eqb].
    intros pre a b post E.
    refine (Sorted_adjacent _ _ (sort_Sorted (by_name localeCompare) _ _)
              _ _ _ _ E).
    intros x y. apply Hasym.
  - unfold filtered. cbn [String.eqb Ascii.eqb Bool.eqb].
    intros pre a b post E.
    refine (Sorted_adjacent _ _ (sort_Sorted (by_source localeCompare) _ _)
              _ _ _ _ E).
    intros x y. apply Hasym.
  - intros a b. split.
    + reflexivity.
    + unfold by_source_value. rewrite !prop_item. cbn [bind].
      rewrite !label_item. reflexivity.
  - intros a b Ha. unfold by_name_value.
    destruct (readable a) eqn:Hr.
    + rewrite (readable_prop a f_name Hr). cbn [bind].
      destruct (prop b f_name); cbn [bind]; auto.
      now destruct (field_of a f_name).
    + now rewrite (unreadable_prop a f_name Hr).
  - intros a b Ht Ha. unfold by_source_value.
    destruct (readable a) eqn:Hr.
    + rewrite (readable_prop a f_source Hr). cbn [bind].
      destruct (prop b f_source); cbn [bind]; auto.
      unfold js_or. rewrite Ht. now destruct (field_of a f_source).
    + now rewrite (unreadable_prop a f_source Hr).
Qed.

(** X4 with the order of the bytes as comparison: sorted by source, an
    unlabelled entry follows the seeds. *)
Lemma sort_by_name_and_source_ordered_witness :
  consistent byte_order
  /\ map name
       (filtered byte_order
          (mkServerItem "x" "Mine" "wss://mine.example" None None None None
             None None
           :: SEED_SERVERS)
          "ne" [] "source")
     = ["NexoX"; "CarrotCraft Network"; "Rice Network x BallCraft";
        "ZelzNET"; "TuffNET"; "Mine"]
  /\ forall pre a b post,
       filtered byte_order
         (mkServerItem "x" "Mine" "wss://mine.example" None None None None
            None None
          :: SEED_SERVERS)
         "ne" [] "source"
       = pre ++ a :: b :: post ->
       byte_order (sourceLabel a) (sourceLabel b) <= 0.
Proof.
  refine (conj consistent_byte_order (conj _ _)).
  - vm_compute. reflexivity.
  - exact (proj1 (proj2 (sort_by_name_and_source_ordered byte_order
                    (mkServerItem "x" "Mine" "wss://mine.example" None None
                       None None None None
                     :: SEED_SERVERS)
                    "ne" [] consistent_byte_order))).
Defined.

(* ------------------------------------------------------------------ *)
(** ** Tag check boxes *)
(* ------------------------------------------------------------------ *)

Lemma checked_In (t : string) (selected : list string) :
  checked t selected = true <-> In t selected.
Proof. apply existsb_eqb_In. Qed.

Lemma unchecked_In (x t : string) (selected : list string) :
  In x (onCheckedChange false t selected) <-> In x selected /\ x <> t.
Proof.
  unfold onCheckedChange. rewrite filter_In, negb_true_iff.
  now rewrite String.eqb_neq.
Qed.

Lemma click_tag_In (x t : string) (selected : list string) :
  In x (click_tag t selected)
  <-> if String.eqb x t then ~ In t selected else In x selected.
Proof.
  unfold click_tag.
  destruct (checked t selected) eqn:C; cbn [negb].
  - apply checked_In in C. rewrite unchecked_In.
    destruct (String.eqb x t) eqn:E.
    + apply String.eqb_eq in E. subst. tauto.
    + apply String.eqb_neq in E. tauto.
  - assert (Hn : ~ In t selected).
    { intros H. apply checked_In in H. congruence. }
    unfold onCheckedChange. rewrite in_app_iff. simpl.
    destruct (String.eqb x t) eqn:E.
    + apply String.eqb_eq in E. subst. tauto.
    + apply String.eqb_neq in E. split; [ | tauto ].
      intros [ H | [ H | [] ] ]; auto. congruence.
Qed.

Lemma matchesTags_same_tags (s : ServerItem) (sel sel' : list string) :
  (forall x, In x sel <-> In x sel') ->
  matchesTags s sel = matchesTags s sel'.
Proof.
  intros H.
  destruct (matchesTags s sel) eqn:E1, (matchesTags s sel') eqn:E2; auto.
  - rewrite <- E2. symmetry. apply matchesTags_spec.
    intros t Ht. apply (proj1 (matchesTags_spec s sel) E1). now apply H.
  - rewrite <- E1. apply matchesTags_spec.
    intros t Ht. apply (proj1 (matchesTags_spec s sel') E2). now apply H.
Qed.

(** X5.  A click on the box of a tag flips whether that tag is selected
    and touches no other tag; the selection never lists a tag twice if it
    did not before; a second click restores the selection when the tag
    was not selected at first, and restores the result of [filtered] in
    any case. *)
Theorem click_tag_flips (t : string) (selected : list string) :
  (forall x,
      In x (click_tag t selected)
      <-> if String.eqb x t then ~ In t selected else In x selected)
  /\ (NoDup selected -> NoDup (click_tag t selected))
  /\ (~ In t selected -> click_tag t (click_tag t selected) = selected)
  /\ (forall (localeCompare : string -> string -> Z)
             (servers : list ServerItem) (q sort_key : string),
        filtered localeCompare servers q (click_tag t (click_tag t selected))
          sort_key
        = filtered localeCompare servers q selected sort_key).
Proof.
  refine (conj (fun x => click_tag_In x t selected) (conj _ (conj _ _))).
  - intros Hnd. unfold click_tag.
    destruct (checked t selected) eqn:C; cbn [negb onCheckedChange].
    + now apply NoDup_filter.
    + apply NoDup_snoc; auto.
      intros H. apply checked_In in H. congruence.
  - intros Hn.
    assert (C : checked t selected = false).
    { destruct (checked t selected) eqn:C; auto.
      apply checked_In in C. contradiction. }
    unfold click_tag at 2. rewrite C. cbn [negb onCheckedChange].
    unfold click_tag.
    assert (C' : checked t (selected ++ [t]) = true).
    { apply checked_In, in_or_app. right. now left. }
    rewrite C'. cbn [negb onCheckedChange].
    rewrite filter_app. simpl. rewrite String.eqb_refl. simpl.
    rewrite app_nil_r. apply forallb_filter_id, forallb_forall.
    intros x Hx. apply negb_true_iff, String.eqb_neq. congruence.
  - intros localeCompare servers q sort_key.
    assert (E : filter
                  (fun s =>
                     matchesQ s q
                     && matchesTags s (click_tag t (click_tag t selected)))
                  servers
                = filter (fun s => matchesQ s q && matchesTags s selected)
                    servers).
    { apply filter_ext. intros s. f_equal.
      apply matchesTags_same_tags. intros x.
      rewrite click_tag_In.
      destruct (String.eqb x t) eqn:Ex.
      - apply String.eqb_eq in Ex. subst x.
        rewrite click_tag_In, String.eqb_refl.
        destruct (in_dec string_dec t selected); tauto.
      - rewrite click_tag_In, Ex. reflexivity. }
    unfold filtered. now rewrite E.
Qed.

(* ------------------------------------------------------------------ *)
(** ** The store across a reload *)
(* ------------------------------------------------------------------ *)

Lemma values_add_seeds_Forall (P : value -> Prop) (seeds : list ServerItem) :
  (forall s, In s seeds -> P (item_value s)) ->
  forall m, Forall P (JsMap.values m) ->
            Forall P (JsMap.values (fold_left add_seed seeds m)).
Proof.
  induction seeds as [ | s seeds IH ]; intros Hs m Hm.
  - exact Hm.
  - cbn [fold_left]. apply IH.
    + intros s' H'. apply Hs. now right.
    + unfold add_seed. destruct (negb (JsMap.has (VStr (id s)) m)); auto.
      apply values_set_Forall; auto. apply Hs. now left.
Qed.

Lemma seed_store_Forall (P : value -> Prop) :
  (forall s, In s SEED_SERVERS -> P (item_value s)) -> Forall P seed_store.
Proof.
  intros H. unfold seed_store. apply Forall_forall. intros v Hv.
  apply in_map_iff in Hv as [s [<- Hs]]. now apply H.
Qed.

(** What every element of a loaded store is: a seed, or an element of
    the parsed array. *)
Lemma loadServers_Forall (P : value -> Prop)
  (JSON_parse : string -> throws value) (st : stored) :
  (forall s, In s SEED_SERVERS -> P (item_value s)) ->
  (forall raw l, st = GetItem (Some raw) ->
                 JSON_parse raw = Some (VArr l) ->
                 Forall (fun v => readable v = true) l -> Forall P l) ->
  Forall P (loadServers JSON_parse st).
Proof.
  intros Hseed Hparsed.
  destruct st as [ | [ raw | ] ];
    try (apply seed_store_Forall; exact Hseed).
  destruct (String.eqb raw "") eqn:Hraw.
  { unfold loadServers, loadServers_try. rewrite Hraw.
    apply seed_store_Forall; exact Hseed. }
  apply String.eqb_neq in Hraw.
  destruct (JSON_parse raw) as [ v | ] eqn:Hparse.
  - destruct (is_array v) eqn:Harr.
    + destruct v; try discriminate.
      destruct (readable_dec elems) as [ Hl | [x [Hx1 Hx2]] ].
      * rewrite (loadServers_array JSON_parse raw _ Hraw Hparse Hl).
        unfold add_missing_seeds.
        apply values_add_seeds_Forall; [ exact Hseed | ].
        apply values_of_pairs_Forall. now apply (Hparsed raw).
      * rewrite (loadServers_unreadable JSON_parse raw elems x Hparse Hx1 Hx2).
        apply seed_store_Forall; exact Hseed.
    + assert (E : loadServers JSON_parse (GetItem (Some raw)) = seed_store).
      { unfold loadServers, loadServers_try.
        apply String.eqb_neq in Hraw. rewrite Hraw, Hparse.
        destruct v; try reflexivity. discriminate. }
      rewrite E. apply seed_store_Forall; exact Hseed.
  - assert (E : loadServers JSON_parse (GetItem (Some raw)) = seed_store).
    { unfold loadServers, loadServers_try.
      apply String.eqb_neq in Hraw. now rewrite Hraw, Hparse. }
    rewrite E. apply seed_store_Forall; exact Hseed.
Qed.

Lemma loadServers_readable (JSON_parse : string -> throws value)
  (st : stored) :
  Forall (fun v => readable v = true) (loadServers JSON_parse st).
Proof.
  apply loadServers_Forall; [ reflexivity | ]. intros; assumption.
Qed.

Lemma loadServers_has_seed_ids (JSON_parse : string -> throws value)
  (st : stored) :
  incl (ids seed_store) (ids (loadServers JSON_parse st)).
Proof.
  destruct (loadServers_cases JSON_parse st) as [ -> | [l ->] ].
  - apply incl_refl.
  - intros k Hk.
    exact (union_by_id_seeds _ l (fun k => find_by_id_merged k l) k Hk).
Qed.

Lemma filter_none {A : Type} (p : A -> bool) (l : list A) :
  (forall x, In x l -> p x = false) -> filter p l = [].
Proof.
  induction l as [ | x l IH ]; intros H; cbn [filter]; auto.
  rewrite (H x (or_introl eq_refl)). apply IH.
  intros y Hy. apply H. now right.
Qed.

(** A store that holds every seed id, each id once, is what
    [loadServers] makes of its own array. *)
Lemma merged_self (s : store) :
  unique_ids s -> incl (ids seed_store) (ids s) ->
  JsMap.values (add_missing_seeds (JsMap.of_pairs (index entry_id s))) = s.
Proof.
  intros Hu Hseeds. rewrite (merged_unique_persisted s Hu).
  match goal with
  | |- s ++ ?f = s => enough (E : f = []) by (rewrite E; apply app_nil_r)
  end.
  apply filter_none. (* no seed is missing *)
  intros e He. apply negb_false_iff. apply existsb_exists.
  assert (Hk : In (entry_id e) (ids s)) by (apply Hseeds; now apply in_map).
  apply in_map_iff in Hk as [x [Hx1 Hx2]].
  exists x. split; auto. now apply same_value_zero_eq.
Qed.

(** X6.  Reloading keeps the store.  Let the host read the text that
    [saveServers] wrote back as the array that was saved.  If the store
    has no [null] element, no id twice and every seed id, [loadServers]
    returns it as it was, in the same order; and every store that
    [loadServers] has returned is such a store. *)
Theorem reload_keeps_store (JSON_parse : string -> throws value)
  (JSON_stringify : value -> nat -> string) (s : store) :
  saveServers JSON_stringify s <> "" ->
  JSON_parse (saveServers JSON_stringify s) = Some (VArr s) ->
  (Forall (fun v => readable v = true) s
   /\ unique_ids s /\ incl (ids seed_store) (ids s))
  \/ (exists (JSON_parse0 : string -> throws value) (st0 : stored),
        s = loadServers JSON_parse0 st0) ->
  loadServers JSON_parse (GetItem (Some (saveServers JSON_stringify s))) = s.
Proof.
  intros Hraw Hparse H.
  assert (H' : Forall (fun v => readable v = true) s
               /\ unique_ids s /\ incl (ids seed_store) (ids s)).
  { destruct H as [ H | [p0 [st0 ->]] ]; auto.
    split; [ apply loadServers_readable | ].
    split; [ apply unique_ids_loadServers | apply loadServers_has_seed_ids ]. }
  destruct H' as [Hread [Hu Hseeds]].
  rewrite (loadServers_array JSON_parse _ s Hraw Hparse Hread).
  now apply merged_self.
Qed.

Lemma unique_ids_sample_saved_store : unique_ids sample_saved_store.
Proof.
  unfold unique_ids, ids, sample_saved_store. cbn [map].
  constructor; [ | apply unique_ids_seed_store ].
  vm_compute. intuition discriminate.
Qed.

(** X6 at the store after one save of the dialog on the seeds. *)
Lemma reload_keeps_store_witness :
  saveServers sample_stringify sample_saved_store <> ""
  /\ parse_only "[saved]" (VArr sample_saved_store)
       (saveServers sample_stringify sample_saved_store)
     = Some (VArr sample_saved_store)
  /\ loadServers (parse_only "[saved]" (VArr sample_saved_store))
       (GetItem (Some (saveServers sample_stringify sample_saved_store)))
     = sample_saved_store.
Proof.
  assert (H1 : saveServers sample_stringify sample_saved_store <> "")
    by discriminate.
  assert (H2 : parse_only "[saved]" (VArr sample_saved_store)
                 (saveServers sample_stringify sample_saved_store)
               = Some (VArr sample_saved_store)) by reflexivity.
  refine (conj H1 (conj H2 _)).
  apply (reload_keeps_store _ sample_stringify sample_saved_store H1 H2).
  left. refine (conj _ (conj _ _)).
  - constructor; [ reflexivity | apply seed_store_Forall; reflexivity ].
  - exact unique_ids_sample_saved_store.
  - intros k Hk. right. exact Hk.
Defined.

(* ------------------------------------------------------------------ *)
(** ** The import handler *)
(* ------------------------------------------------------------------ *)

Lemma merge_Forall (P : value -> Prop) (prev c r : list value) :
  merge prev c = Some r -> Forall P prev -> Forall P c -> Forall P r.
Proof.
  intros Hm Hp Hc.
  destruct (merge_some_readable _ _ _ Hm) as [Hr1 Hr2].
  rewrite (merge_readable _ _ Hr1 Hr2) in Hm. injection Hm as <-.
  now apply (proj2 (proj2 (proj2 (merged_map_facts prev c)))).
Qed.

Lemma cleaned_readable (now : nat -> Z) (list_ c : list value) :
  cleaned now list_ = Some c -> Forall (fun v => readable v = true) c.
Proof.
  intros H. apply cleaned_entries in H.
  eapply Forall_impl; [ | exact H ]. now intros e [He _].
Qed.

Lemma cleaned_wss (now : nat -> Z) (list_ c : list value) :
  cleaned now list_ = Some c -> Forall (fun v => has_wss_url v = true) c.
Proof.
  intros H. apply cleaned_entries in H.
  eapply Forall_impl; [ | exact H ]. now intros e [_ [_ He]].
Qed.

(** The three ways out of the import handler. *)
Lemma onChange_cases (JSON_parse : string -> throws value)
  (String_of_error : host_error -> string) (file : chosen_file)
  (now : nat -> Z) (app app' : App) :
  onChange JSON_parse String_of_error file now app = Some app' ->
  (file = NoFile /\ app' = app)
  \/ (exists err, app' = notify (failed_toast err) app)
  \/ (exists text parsed c s,
        file = FileText text
        /\ JSON_parse text = Some (VArr parsed)
        /\ cleaned now parsed = Some c
        /\ merge (servers app) c = Some s
        /\ app' = notify (imported_toast parsed)
                    {| servers := s; toasts := toasts app |}).
Proof.
  unfold onChange. destruct file as [ | | text ].
  - intros [= <-]. now left.
  - intros [= <-]. right; left. now eexists.
  - destruct (JSON_parse text) as [ v | ] eqn:Hparse.
    + destruct v as [ | | b | n | t | parsed | o ];
        try (intros [= <-]; right; left; now eexists).
      destruct (cleaned now parsed) as [ c | ] eqn:Hc.
      * destruct (merge (servers app) c) as [ s | ] eqn:Hm;
          cbn [bind]; [ | discriminate ].
        intros [= <-]. right; right. exists text, parsed, c, s. auto.
      * intros [= <-]. right; left. now eexists.
    + intros [= <-]. right; left. now eexists.
Qed.

Lemma user_step_Forall (P : value -> Prop) (app app' : App) :
  (forall now name url tags short,
     valid name url = true -> P (VObj (new_server now name url tags short))) ->
  (forall now list_ c, cleaned now list_ = Some c -> Forall P c) ->
  user_step app app' -> Forall P (servers app) -> Forall P (servers app').
Proof.
  intros Hsave Himport Hstep Happ.
  destruct Hstep as [ now name url tags short app
                    | parse strerr file now app app' Hon ].
  - unfold AddServerDialog_save. destruct (valid name url) eqn:Hv; auto.
    cbn [addServer servers]. constructor; auto.
  - apply onChange_cases in Hon
      as [ [_ ->]
         | [ [err ->] | [text [parsed [c [s [_ [_ [Hc [Hm ->]]]]]]]] ] ];
      auto.
    cbn [notify servers]. apply (merge_Forall P _ _ _ Hm Happ).
    now apply (Himport now parsed).
Qed.

Lemma reachable_Forall (P : value -> Prop) (start app : App) :
  (forall now name url tags short,
     valid name url = true -> P (VObj (new_server now name url tags short))) ->
  (forall now list_ c, cleaned now list_ = Some c -> Forall P c) ->
  reachable start app -> Forall P (servers start) -> Forall P (servers app).
Proof.
  intros Hsave Himport Hreach Hstart.
  induction Hreach as [ | app app' _ IH Hstep ]; auto.
  now apply (user_step_Forall P app app' Hsave Himport Hstep).
Qed.

(** X7.  No error escapes the import handler.  From a store without a
    [null] or [undefined] element (a loaded store is one), whatever the
    user saves and imports, the store never holds such an element, and
    the import handler returns for every file, every parser and every
    clock: the updater of [setServers], which runs outside the [try],
    does not throw. *)
Theorem import_never_escapes (start app : App) :
  Forall (fun v => readable v = true) (servers start) ->
  reachable start app ->
  Forall (fun v => readable v = true) (servers app)
  /\ forall (JSON_parse : string -> throws value)
       (String_of_error : host_error -> string) (file : chosen_file)
       (now : nat -> Z),
       exists app',
         onChange JSON_parse String_of_error file now app = Some app'.
Proof.
  intros Hstart Hreach.
  assert (Happ : Forall (fun v => readable v = true) (servers app)).
  { apply (reachable_Forall _ start app); auto.
    intros now list_ c. apply cleaned_readable. }
  split; [ exact Happ | ].
  intros parse strerr file now. unfold onChange.
  destruct file as [ | | text ]; try (now eexists).
  destruct (parse text) as [ v | ]; [ | now eexists ].
  destruct v as [ | | b | n | t | parsed | o ]; try (now eexists).
  destruct (cleaned now parsed) as [ c | ] eqn:Hc; [ | now eexists ].
  rewrite (merge_readable _ _ Happ (cleaned_readable _ _ _ Hc)).
  cbn [bind]. now eexists.
Qed.

(** X8.  Addresses stay [wss://] addresses.  If every entry of the store
    has an address that starts with [wss://] (the seeds have), then so
    has every entry after whatever the user saves and imports. *)
Theorem store_addresses_stay_wss (start app : App) :
  Forall (fun v => has_wss_url v = true) (servers start) ->
  reachable start app ->
  Forall (fun v => has_wss_url v = true) (servers app).
Proof.
  intros Hstart Hreach. apply (reachable_Forall _ start app); auto.
  - intros now name url tags short Hv. unfold valid in Hv.
    apply andb_prop in Hv as [_ Hv]. exact Hv.
  - intros now list_ c. apply cleaned_wss.
Qed.

Lemma seed_store_wss : Forall (fun v => has_wss_url v = true) seed_store.
Proof.
  apply Forall_forall. apply (proj1 (forallb_forall has_wss_url seed_store)).
  vm_compute. reflexivity.
Qed.

Lemma reachable_sample_saved : reachable (mkApp seed_store []) sample_saved.
Proof.
  eapply reach_step; [ apply reach_start | apply save_step ].
Qed.

(** X7 at the seeds after one save of the dialog. *)
Lemma import_never_escapes_witness :
  Forall (fun v => readable v = true) (servers sample_saved)
  /\ exists app', sample_import sample_saved = Some app'.
Proof.
  assert (H : Forall (fun v => readable v = true)
                (servers (mkApp seed_store []))).
  { apply seed_store_Forall. reflexivity. }
  destruct (import_never_escapes _ _ H reachable_sample_saved) as [H1 H2].
  split; [ exact H1 | apply H2 ].
Defined.

(** X8 at the seeds after one save of the dialog and one import. *)
Lemma store_addresses_stay_wss_witness :
  exists app',
    sample_import sample_saved = Some app'
    /\ List.length (servers app') = 14%nat
    /\ Forall (fun v => has_wss_url v = true) (servers app').
Proof.
  destruct (sample_import sample_saved) as [ app' | ] eqn:E;
    [ | vm_compute in E; discriminate ].
  exists app'. split; [ reflexivity | ].
  split; [ vm_compute in E; injection E as <-; reflexivity | ].
  apply (store_addresses_stay_wss (mkApp seed_store [])).
  - exact seed_store_wss.
  - eapply reach_step; [ exact reachable_sample_saved | ].
    eapply import_step. exact E.
Defined.

Lemma clean_at_unreadable (now : nat -> Z) (x : value) (i : nat) :
  readable x = false -> clean_at now x i = None.
Proof.
  intros Hx. unfold clean_at, clean_record.
  now rewrite (unreadable_prop x f_id Hx).
Qed.

Lemma mapi_clean_unreadable (now : nat -> Z) (l : list value) (x : value) :
  In x l -> readable x = false ->
  forall i, mapi_throws (clean_at now) i l = None.
Proof.
  induction l as [ | y l IH ]; intros Hin Hx i; [ contradiction | ].
  cbn [mapi_throws]. destruct Hin as [ -> | Hin ].
  - now rewrite (clean_at_unreadable now x i Hx).
  - destruct (clean_at now y i); cbn [bind]; auto.
    now rewrite (IH Hin Hx (S i)).
Qed.

Lemma cleaned_unreadable (now : nat -> Z) (l : list value) (x : value) :
  In x l -> readable x = false -> cleaned now l = None.
Proof.
  intros Hin Hx. unfold cleaned.
  now rewrite (mapi_clean_unreadable now l x Hin Hx 0%nat).
Qed.

Lemma cleaned_some_readable (now : nat -> Z) (l c : list value) :
  cleaned now l = Some c -> Forall (fun v => readable v = true) l.
Proof.
  intros H. destruct (readable_dec l) as [ Hl | [x [Hx1 Hx2]] ]; auto.
  rewrite (cleaned_unreadable now l x Hx1 Hx2) in H. discriminate.
Qed.

(** X9.  An import is all or nothing.  Every file the handler deals with
    gives one toast.  When the toast is the destructive one the store is
    as it was; the other toast is given only when the text parsed to an
    array without a [null] or [undefined] element, and then the store is
    the merge of the decoded array.  One such element fails the whole
    file, whatever its other records are; a parsed value that is no array
    fails with the text [Error: Invalid JSON]; without a file nothing
    happens. *)
Theorem import_all_or_nothing (JSON_parse : string -> throws value)
  (String_of_error : host_error -> string) (file : chosen_file)
  (now : nat -> Z) (app : App) :
  (forall app',
     onChange JSON_parse String_of_error file now app = Some app' ->
     file <> NoFile ->
     exists t,
       toasts app' = toasts app ++ [t]
       /\ (destructive t = true -> servers app' = servers app)
       /\ (destructive t = false ->
           exists text parsed c,
             file = FileText text
             /\ JSON_parse text = Some (VArr parsed)
             /\ Forall (fun v => readable v = true) parsed
             /\ cleaned now parsed = Some c
             /\ merge (servers app) c = Some (servers app')))
  /\ (forall text parsed x,
        file = FileText text -> JSON_parse text = Some (VArr parsed) ->
        In x parsed -> readable x = false ->
        onChange JSON_parse String_of_error file now app
        = Some (notify (failed_toast (String_of_error TypeError)) app))
  /\ (forall text v,
        file = FileText text -> JSON_parse text = Some v ->
        is_array v = false ->
        onChange JSON_parse String_of_error file now app
        = Some (notify (failed_toast "Error: Invalid JSON") app))
  /\ (file = NoFile ->
      onChange JSON_parse String_of_error file now app = Some app).
Proof.
  refine (conj _ (conj _ (conj _ _))).
  - intros app' Hon Hfile.
    apply onChange_cases in Hon
      as [ [Hf _] | [ [err ->] | [text [parsed [c [s H]]]] ] ].
    + contradiction.
    + exists (failed_toast err). cbn [notify toasts servers].
      refine (conj eq_refl (conj (fun _ => eq_refl) _)).
      discriminate.
    + destruct H as [Hf [Hp [Hc [Hm ->]]]].
      exists (imported_toast parsed). cbn [notify toasts servers].
      refine (conj eq_refl (conj _ _)); [ discriminate | ].
      intros _. exists text, parsed, c.
      refine (conj Hf (conj Hp (conj _ (conj Hc Hm)))).
      exact (cleaned_some_readable now parsed c Hc).
  - intros text parsed x -> Hp Hx1 Hx2. unfold onChange.
    now rewrite Hp, (cleaned_unreadable now parsed x Hx1 Hx2).
  - intros text v -> Hp Hv. unfold onChange. rewrite Hp.
    destruct v; try reflexivity. discriminate.
  - intros ->. reflexivity.
Qed.

(* ------------------------------------------------------------------ *)
(** ** The order of the store after a merge *)
(* ------------------------------------------------------------------ *)

Lemma has_existsb (k : value) (m : JsMap.t) :
  JsMap.has k m = existsb (fun k' => same_value_zero k' k) (JsMap.keys m).
Proof.
  induction m as [ | [k' v'] m IH ]; cbn; auto. now rewrite IH.
Qed.

Lemma keys_fold_set (ps : list (value * value)) :
  forall m,
  JsMap.keys (fold_left (fun m p => JsMap.set (fst p) (snd p) m) ps m)
  = fold_left
      (fun seen k =>
         if existsb (fun k' => same_value_zero k' k) seen then seen
         else seen ++ [k])
      (map fst ps) (JsMap.keys m).
Proof.
  induction ps as [ | p ps IH ]; intros m; cbn [fold_left map]; auto.
  rewrite IH, keys_set, has_existsb. reflexivity.
Qed.

(** A merge builds one [Map] from the stored entries followed by the
    imported ones. *)
Lemma upsert_all_of_pairs (prev entries : list value) :
  upsert_all (JsMap.of_pairs (index key_of prev)) entries
  = JsMap.of_pairs (index key_of (prev ++ entries)).
Proof.
  unfold upsert_all, JsMap.of_pairs, index.
  rewrite map_app, fold_left_app.
  generalize (fold_left (fun m p => JsMap.set (fst p) (snd p) m)
                (map (fun e => (key_of e, e)) prev) JsMap.empty).
  induction entries as [ | e entries IH ]; intros m; cbn [fold_left map];
    auto.
Qed.

Lemma merge_of_pairs (prev entries r : list value) :
  merge prev entries = Some r ->
  r = JsMap.values (JsMap.of_pairs (index key_of (prev ++ entries))).
Proof.
  intros Hm. destruct (merge_some_readable _ _ _ Hm) as [Hr1 Hr2].
  rewrite (merge_readable _ _ Hr1 Hr2) in Hm. injection Hm as <-.
  now rewrite upsert_all_of_pairs.
Qed.

Lemma merge_keys (prev entries r : list value) :
  merge prev entries = Some r ->
  map key_of r = first_seen (map key_of (prev ++ entries)).
Proof.
  intros Hm. rewrite (merge_of_pairs _ _ _ Hm).
  rewrite <- (keyed_keys key_of) by apply keyed_of_pairs.
  unfold JsMap.of_pairs. rewrite keys_fold_set. unfold first_seen, index.
  rewrite map_map. reflexivity.
Qed.

(** X10.  Where a merge puts the entries, when the keys [id || url] of
    the stored and of the imported entries are strings or other
    primitive values, which the [Map] compares as values.  The keys of
    the merged store are the keys of the stored entries followed by those
    of the imported ones, each at its first appearance: an entry whose
    key is stored takes the place of the stored entry, an entry with a
    new key goes to the end, in the order of the file.  So when no key
    appears twice the merged store is the stored entries followed by the
    imported ones, and the store never gets longer than that. *)
Theorem merge_order (prev entries r : store) :
  Forall (fun e => primitive (key_of e) = true) prev ->
  Forall (fun e => primitive (key_of e) = true) entries ->
  merge prev entries = Some r ->
  map key_of r = first_seen (map key_of (prev ++ entries))
  /\ (NoDup (map key_of (prev ++ entries)) -> r = prev ++ entries)
  /\ (List.length r <= List.length prev + List.length entries)%nat
  /\ ((forall e, In e entries -> In (key_of e) (map key_of prev)) ->
      NoDup (map key_of prev) -> map key_of r = map key_of prev).
Proof.
  intros _ _ Hm. pose proof (merge_of_pairs _ _ _ Hm) as Hr.
  pose proof (merge_keys _ _ _ Hm) as Hkeys.
  refine (conj Hkeys (conj _ (conj _ _))).
  - intros Hnd. rewrite Hr, (of_pairs_index_NoDup key_of _ Hnd).
    apply values_index.
  - rewrite <- (length_map key_of r), Hkeys, <- length_app.
    rewrite <- (length_map key_of (prev ++ entries)).
    generalize (map key_of (prev ++ entries)). intros ks.
    unfold first_seen.
    enough (H : forall seen,
               (List.length
                  (fold_left
                     (fun seen k =>
                        if existsb (fun k' => same_value_zero k' k) seen
                        then seen else seen ++ [k]) ks seen)
                <= List.length seen + List.length ks)%nat)
      by apply (H []).
    induction ks as [ | k ks IH ]; intros seen; cbn [fold_left List.length].
    + lia.
    + destruct (existsb (fun k' => same_value_zero k' k) seen).
      * specialize (IH seen). lia.
      * specialize (IH (seen ++ [k])). rewrite length_app in IH.
        cbn [List.length] in IH. lia.
  - intros Hin Hnd.
    destruct (merge_some_readable _ _ _ Hm) as [Hr1 Hr2].
    rewrite (merge_readable _ _ Hr1 Hr2) in Hm. injection Hm as <-.
    rewrite <- (keyed_keys key_of)
      by (apply keyed_upsert_all; apply keyed_of_pairs).
    rewrite keys_upsert_all_present.
    + rewrite (of_pairs_index_NoDup key_of _ Hnd).
      unfold JsMap.keys, index. rewrite map_map. reflexivity.
    + intros x Hx. apply has_In.
      rewrite (of_pairs_index_NoDup key_of _ Hnd).
      unfold JsMap.keys, index. rewrite map_map. now apply Hin.
Qed.

(** X10 at the seeds and a file that overrides the seed [nexo] and
    brings a new entry: the keys are those of the seeds, then the new
    one. *)
Lemma merge_order_witness :
  Forall (fun e => primitive (key_of e) = true) sample_decoded
  /\ exists r,
       merge seed_store sample_decoded = Some r
       /\ map key_of r = map key_of seed_store ++ [VStr "custom-1"].
Proof.
  assert (H : Forall (fun e => primitive (key_of e) = true) sample_decoded)
    by (repeat constructor).
  split; [ exact H | ].
  destruct (merge seed_store sample_decoded) as [ r | ] eqn:E;
    [ | vm_compute in E; discriminate ].
  exists r. split; [ reflexivity | ].
  rewrite (proj1 (merge_order _ _ _ seed_store_primitive_keys H E)).
  vm_compute. reflexivity.
Defined.

(* ------------------------------------------------------------------ *)
(** ** The ids [importList] makes up *)
(* ------------------------------------------------------------------ *)

Lemma to_int_not_nil (n : Z) :
  Z.to_int n <> Decimal.Pos Decimal.Nil
  /\ Z.to_int n <> Decimal.Neg Decimal.Nil.
Proof.
  destruct n as [ | p | p ]; cbn; split; try discriminate;
    intros [= H]; exact (Unsigned.to_uint_nonnil p H).
Qed.

Lemma string_of_Z_inj (a b : Z) : string_of_Z a = string_of_Z b -> a = b.
Proof.
  unfold string_of_Z. intros H. apply to_int_inj.
  destruct (to_int_not_nil a) as [Ha1 Ha2].
  destruct (to_int_not_nil b) as [Hb1 Hb2].
  pose proof (NilZero.isi _ Ha1 Ha2) as Ea.
  pose proof (NilZero.isi _ Hb1 Hb2) as Eb.
  rewrite H in Ea. rewrite Ea in Eb. now injection Eb.
Qed.

Lemma string_of_nat_inj (i j : nat) :
  string_of_nat i = string_of_nat j -> i = j.
Proof.
  unfold string_of_nat. intros H. apply string_of_Z_inj in H. lia.
Qed.

Lemma no_dash_uint (d : Decimal.uint) :
  no_dash (NilEmpty.string_of_uint d) = true.
Proof. induction d; cbn; auto. Qed.

Lemma no_dash_string_of_nat (i : nat) : no_dash (string_of_nat i) = true.
Proof.
  unfold string_of_nat, string_of_Z.
  destruct (Z.of_nat i) as [ | p | p ] eqn:E; try lia; cbn.
  - reflexivity.
  - destruct (Pos.to_uint p); try reflexivity; apply no_dash_uint.
Qed.

Lemma no_dash_app (a b : string) :
  no_dash (a ++ String "-" b) = false.
Proof.
  induction a as [ | c a IH ]; cbn [append no_dash].
  - reflexivity.
  - rewrite IH. apply andb_false_r.
Qed.

(** The text after the last [-] of a string. *)
Lemma last_dash (a a' n n' : string) :
  no_dash n = true -> no_dash n' = true ->
  (a ++ "-" ++ n = a' ++ "-" ++ n')%string -> n = n'.
Proof.
  revert a'. induction a as [ | c a IH ]; intros a' Hn Hn' H;
    destruct a' as [ | c' a' ]; cbn in H.
  - now injection H.
  - injection H as _ H. rewrite H, no_dash_app in Hn. discriminate.
  - injection H as _ H. rewrite <- H, no_dash_app in Hn'. discriminate.
  - injection H as _ H. now apply (IH a').
Qed.

Lemma synthesized_id_inj (t t' : Z) (i j : nat) :
  ("import-" ++ string_of_Z t ++ "-" ++ string_of_nat i
   = "import-" ++ string_of_Z t' ++ "-" ++ string_of_nat j)%string ->
  i = j.
Proof.
  intros H. apply string_of_nat_inj.
  apply (last_dash ("import-" ++ string_of_Z t) ("import-" ++ string_of_Z t'));
    try apply no_dash_string_of_nat.
  rewrite !string_app_assoc. exact H.
Qed.

Lemma mapi_clean_ids (now : nat -> Z) (l : list value) :
  (forall s, In s l -> truthy (entry_id s) = false) ->
  forall i ys,
  mapi_throws (clean_at now) i l = Some ys ->
  map entry_id ys
  = map (fun j =>
           VStr ("import-" ++ string_of_Z (now j) ++ "-" ++ string_of_nat j))
      (seq i (List.length l)).
Proof.
  induction l as [ | s l IH ]; intros Hl i ys H; cbn [mapi_throws] in H.
  - injection H as <-. reflexivity.
  - destruct (clean_at now s i) as [ y | ] eqn:Hy; [ | discriminate ].
    destruct (mapi_throws (clean_at now) (S i) l) as [ ys' | ] eqn:Hys;
      [ | discriminate ].
    cbn [bind] in H. injection H as <-.
    cbn [map List.length seq]. f_equal.
    + destruct (clean_at_some now s i y Hy) as [_ [Hid _]].
      rewrite Hid. unfold js_or. now rewrite (Hl s (or_introl eq_refl)).
    + apply IH; auto. intros s' Hs'. apply Hl. now right.
Qed.

(** Dropping entries keeps the ids pairwise different. *)
Lemma unique_ids_filter (keep : value -> bool) (l : store) :
  unique_ids l -> unique_ids (filter keep l).
Proof.
  unfold unique_ids, ids.
  induction l as [ | x l IH ]; cbn [map filter]; intros H; auto.
  inversion H as [ | ? ? Hx Hl ]; subst.
  destruct (keep x); cbn [map]; auto. constructor; auto.
  intros Hin. apply Hx. apply in_map_iff in Hin as [y [Hy1 Hy2]].
  apply filter_In in Hy2 as [Hy2 _]. rewrite <- Hy1. now apply in_map.
Qed.

Lemma decoded_key_is_id (now : nat -> Z) (list_ c : list value) :
  cleaned now list_ = Some c -> map key_of c = map entry_id c.
Proof.
  intros H. apply cleaned_entries in H. apply map_ext_in.
  intros e He. apply truthy_id_key.
  now apply (proj1 (Forall_forall _ c) H e He).
Qed.

(** An entry of [entries] whose key no other entry of [entries] has is in
    the merged store. *)
Lemma merge_keeps_unique_keys (prev entries r : store) (e : value) :
  merge prev entries = Some r -> NoDup (map key_of entries) ->
  In e entries -> In e r.
Proof.
  intros Hm Hnd He.
  destruct (merge_some_readable _ _ _ Hm) as [Hr1 Hr2].
  rewrite (merge_readable _ _ Hr1 Hr2) in Hm. injection Hm as <-.
  destruct (merged_map_facts prev entries) as [Hkeyed [_ [Hget _]]].
  cbv zeta in Hkeyed, Hget.
  specialize (Hget (key_of e)).
  assert (Hfind : find_by_key (key_of e) (rev entries) = Some e).
  { unfold find_by_key. apply (find_key_unique key_of).
    - rewrite map_rev. now apply NoDup_rev.
    - now apply in_rev in He. }
  rewrite Hfind in Hget.
  rewrite <- (keyed_find key_of _ _ Hkeyed) in Hget.
  now apply (find_key_some key_of) in Hget as [Hin _].
Qed.

(** X11.  The ids made up for records without an id.  When no record of
    the file has a (truthy) id, the decoded records get the ids
    [import-<clock>-<index>], and these are pairwise different whatever
    the clock reads: the index is the text after the last [-].  Every
    decoded record is filed under its id, so no record of the file
    replaces another one, and all of them are in the store after the
    merge. *)
Theorem import_without_ids_keeps_all (now : nat -> Z)
  (list_ c : list value) :
  (forall s, In s list_ -> truthy (entry_id s) = false) ->
  cleaned now list_ = Some c ->
  unique_ids c
  /\ map key_of c = map entry_id c
  /\ (forall prev r e, merge prev c = Some r -> In e c -> In e r).
Proof.
  intros Hids Hc.
  assert (Hu : unique_ids c).
  { unfold cleaned in Hc.
    destruct (mapi_throws (clean_at now) 0%nat list_) as [ ys | ] eqn:Hys;
      [ | discriminate ].
    cbn [bind] in Hc. injection Hc as <-.
    apply unique_ids_filter. unfold unique_ids, ids.
    rewrite (mapi_clean_ids now list_ Hids 0%nat ys Hys).
    apply NoDup_map_injective; [ | apply seq_NoDup ].
    intros a b H.
    exact (synthesized_id_inj _ _ _ _ (f_equal to_string H)). }
  pose proof (decoded_key_is_id now list_ c Hc) as Hk.
  refine (conj Hu (conj Hk _)).
  intros prev r e Hm He. apply (merge_keeps_unique_keys prev c r e Hm); auto.
  rewrite Hk. exact Hu.
Qed.

(** X11 at a file of two records without an id, with a clock that
    stands still. *)
Lemma import_without_ids_keeps_all_witness :
  exists c,
    cleaned sample_clock (map VObj (map string_obj sample_mixed ++
                                    map string_obj sample_mixed)) = Some c
    /\ List.length c = 2%nat
    /\ unique_ids c.
Proof.
  destruct (cleaned sample_clock
              (map VObj (map string_obj sample_mixed ++
                         map string_obj sample_mixed)))
    as [ c | ] eqn:E; [ | vm_compute in E; discriminate ].
  exists c. split; [ reflexivity | ].
  split; [ vm_compute in E; injection E as <-; reflexivity | ].
  apply (import_without_ids_keeps_all sample_clock
           (map VObj (map string_obj sample_mixed ++
                      map string_obj sample_mixed)) c); auto.
  intros s Hs. vm_compute in Hs.
  repeat (destruct Hs as [ <- | Hs ]; [ reflexivity | ]). contradiction.
Defined.

(* ------------------------------------------------------------------ *)
(** ** The dialog that adds a server *)
(* ------------------------------------------------------------------ *)

Lemma trim_end_cons (c : ascii) (s : string) :
  trim_end (String c s)
  = match trim_end s with
    | EmptyString => if is_space c then EmptyString else String c EmptyString
    | t => String c t
    end.
Proof. reflexivity. Qed.

Lemma trim_end_idempotent (s : string) : trim_end (trim_end s) = trim_end s.
Proof.
  induction s as [ | c s IH ]; auto.
  rewrite trim_end_cons. destruct (trim_end s) as [ | d u ] eqn:E.
  - destruct (is_space c) eqn:Hc; auto.
    rewrite trim_end_cons. cbn [trim_end]. now rewrite Hc.
  - rewrite trim_end_cons, IH. reflexivity.
Qed.

Lemma trim_start_clean (s : string) :
  trim_start s = ""
  \/ exists c u, trim_start s = String c u /\ is_space c = false.
Proof.
  induction s as [ | c s IH ]; cbn [trim_start]; auto.
  destruct (is_space c) eqn:Hc; auto. right. now exists c, s.
Qed.

Lemma trim_end_first (c : ascii) (u : string) :
  is_space c = false -> exists u', trim_end (String c u) = String c u'.
Proof.
  intros Hc. cbn [trim_end]. destruct (trim_end u) as [ | d t ].
  - rewrite Hc. now eexists.
  - now eexists.
Qed.

Lemma trim_idempotent (s : string) : trim (trim s) = trim s.
Proof.
  unfold trim at 1.
  assert (H : trim_start (trim s) = trim s).
  { unfold trim. destruct (trim_start_clean s) as [ -> | [c [u [-> Hc]]] ].
    - reflexivity.
    - destruct (trim_end_first c u Hc) as [u' ->].
      cbn [trim_start]. now rewrite Hc. }
  rewrite H. apply trim_end_idempotent.
Qed.

Lemma is_wss_nonempty (u : string) : is_wss u = true -> u <> "".
Proof. intros H ->. discriminate. Qed.

(** X12.  What the Save button of the dialog does, for a name and an
    address typed as ASCII texts (of which [trim] strips the blanks that
    JS strips).  Unless the trimmed name is non-empty and the trimmed
    address starts with [wss://], nothing changes.  Otherwise exactly
    one entry is put in front of the store and one toast is given; the
    entry holds the trimmed name and address, which pass the check of
    the dialog as they are, and the id [custom-<clock>]; and when the
    entry is imported again it is decoded to one record with the same id
    and address. *)
Theorem dialog_save (now : Z) (name url : string) (tags : list string)
  (short : string) (app : App) :
  ascii_text name = true -> ascii_text url = true ->
  let e := VObj (new_server now name url tags short) in
  let app' := AddServerDialog_save now name url tags short app in
  (valid name url = false -> app' = app)
  /\ (valid name url = true ->
      servers app' = e :: servers app
      /\ toasts app'
         = toasts app ++ [mkToast "Added" (trim name ++ " saved locally.")
                            false]
      /\ entry_id e = VStr ("custom-" ++ string_of_Z now)
      /\ field_of e f_name = VStr (trim name)
      /\ entry_url e = VStr (trim url)
      /\ has_wss_url e = true
      /\ valid (trim name) (trim url) = true
      /\ forall clock,
           exists e',
             cleaned clock [e] = Some [e']
             /\ entry_id e' = entry_id e
             /\ entry_url e' = entry_url e).
Proof.
  intros _ _ e app'. subst app'. unfold AddServerDialog_save. split.
  - intros ->. reflexivity.
  - intros Hv. rewrite Hv. unfold valid in *.
    apply andb_prop in Hv as [Hn Hu].
    refine (conj eq_refl (conj eq_refl (conj eq_refl (conj eq_refl
             (conj eq_refl (conj Hu (conj _ _))))))).
    + now rewrite !trim_idempotent, Hn, Hu.
    + intros clock.
      assert (Hdec : decodes e = true).
      { unfold decodes, shown_name, shown_url.
        change (field_of e f_name) with (VStr (trim name)).
        change (field_of e f_url) with (VStr (trim url)).
        destruct (truthy (VStr (trim name))), (truthy (VStr (trim url)));
          reflexivity. }
      destruct (clean_at_decodes clock e 0%nat Hdec) as [e' He'].
      destruct (clean_at_some clock e 0%nat e' He') as [_ [Hid [_ Hurl]]].
      assert (Hurl' : entry_url e' = entry_url e).
      { rewrite Hurl. change (entry_url e) with (VStr (trim url)).
        unfold js_or. cbn [truthy].
        destruct (String.eqb (trim url) "") eqn:E; [ | reflexivity ].
        apply String.eqb_eq in E. now apply is_wss_nonempty in Hu. }
      exists e'. refine (conj _ (conj _ Hurl')).
      * unfold cleaned. cbn [mapi_throws]. rewrite He'. cbn [bind filter].
        unfold has_wss_url. rewrite Hurl'.
        change (to_string (entry_url e)) with (trim url). now rewrite Hu.
      * rewrite Hid. reflexivity.
Qed.

(** X12 at the name [ Mine ] and the address [wss://mine.example ],
    saved on the seeds. *)
Lemma dialog_save_witness :
  ascii_text " Mine " = true
  /\ ascii_text "wss://mine.example " = true
  /\ valid " Mine " "wss://mine.example " = true
  /\ servers sample_saved = sample_saved_store
  /\ entry_url (VObj (new_server 1700000000000 " Mine "
                        "wss://mine.example " ["PvP"] ""))
     = VStr "wss://mine.example".
Proof.
  refine (conj eq_refl (conj eq_refl (conj eq_refl _))).
  destruct (dialog_save 1700000000000 " Mine " "wss://mine.example "
              ["PvP"] "" (mkApp seed_store []) eq_refl eq_refl)
    as [_ H].
  destruct (H eq_refl) as [H1 [_ [_ [_ [H5 _]]]]].
  split; [ exact H1 | exact H5 ].
Defined.

(* ------------------------------------------------------------------ *)
(** ** The theme *)
(* ------------------------------------------------------------------ *)

Lemma toggle_cases (t : string) : toggle t = "dark" \/ toggle t = "light".
Proof. unfold toggle. destruct (String.eqb t "dark"); auto. Qed.

Lemma initial_theme_nonempty (st : stored) (mm : option bool) (th : string) :
  initial_theme st mm = Some th -> th <> "".
Proof.
  assert (Hs : system_theme mm <> "").
  { destruct mm as [ [ | ] | ]; discriminate. }
  destruct st as [ | [ t | ] ]; cbn [initial_theme]; try discriminate.
  - destruct (String.eqb t "") eqn:E; intros [= <-]; auto.
    now apply String.eqb_neq.
  - now intros [= <-].
Qed.

(** X13.  The theme across toggles and reloads.  The theme shown after
    the initializer and any number of toggles is never the empty text,
    so a reload shows it again whatever the system prefers; after one
    toggle it is [dark] or [light]; a toggle always flips the class
    [dark] of the root element, and two toggles restore a theme that is
    [dark] or [light].  A stored text that is neither is shown as it is,
    without the class, until the first toggle makes it [dark]. *)
Theorem theme_survives_reload (st : stored) (mm mm' : option bool)
  (th : string) (n : nat) :
  initial_theme st mm = Some th ->
  let shown := Nat.iter n toggle th in
  shown <> ""
  /\ initial_theme (persisted_theme shown) mm' = Some shown
  /\ ((1 <= n)%nat -> shown = "dark" \/ shown = "light")
  /\ dark_class (toggle shown) = negb (dark_class shown)
  /\ (shown = "dark" \/ shown = "light" -> toggle (toggle shown) = shown)
  /\ (dark_class shown = false -> toggle shown = "dark").
Proof.
  intros Hth shown.
  assert (Hcases : (1 <= n)%nat -> shown = "dark" \/ shown = "light").
  { subst shown. destruct n as [ | n ]; [ lia | ]. intros _.
    cbn [Nat.iter]. apply toggle_cases. }
  assert (Hne : shown <> "").
  { destruct n as [ | n ].
    - exact (initial_theme_nonempty st mm th Hth).
    - destruct (Hcases ltac:(lia)) as [ -> | -> ]; discriminate. }
  refine (conj Hne (conj _ (conj Hcases (conj _ (conj _ _))))).
  - unfold persisted_theme, initial_theme.
    apply String.eqb_neq in Hne. now rewrite Hne.
  - unfold dark_class, toggle.
    destruct (String.eqb shown "dark"); reflexivity.
  - intros [ -> | -> ]; reflexivity.
  - unfold dark_class, toggle. now intros ->.
Qed.

(** X13 at an empty storage on a system that prefers dark, after three
    toggles. *)
Lemma theme_survives_reload_witness :
  initial_theme (GetItem None) (Some true) = Some "dark"
  /\ Nat.iter 3 toggle "dark" = "light"
  /\ initial_theme (persisted_theme "light") (Some true) = Some "light".
Proof.
  refine (conj eq_refl (conj eq_refl _)).
  exact (proj1 (proj2 (theme_survives_reload (GetItem None) (Some true)
                         (Some true) "dark" 3 eq_refl))).
Defined.

(* ------------------------------------------------------------------ *)
(** ** The socket of the probe *)
(* ------------------------------------------------------------------ *)

Lemma deliver_done_close (s : ServerItem) (p : probe) (ev : probe_event) :
  done p = true -> close_calls (deliver s p ev) = close_calls p.
Proof.
  intros H. destruct ev; cbn [deliver].
  - destruct (ws p); unfold onopen; now rewrite ?H.
  - destruct (ws p); unfold onerror; now rewrite ?H.
  - destruct (timer_pending p); unfold on_timeout; cbn [done];
      now rewrite ?H.
Qed.

Lemma run_done_close (s : ServerItem) (evs : list probe_event) :
  forall p, done p = true -> close_calls (run s p evs) = close_calls p.
Proof.
  induction evs as [ | ev evs IH ]; intros p Hd; cbn [run fold_left]; auto.
  change (fold_left (deliver s) evs (deliver s p ev))
    with (run s (deliver s p ev) evs).
  rewrite IH by (apply deliver_done; exact Hd).
  now apply deliver_done_close.
Qed.

(** X14.  The probe closes its socket at most once.  [ws.close()] is
    called once when the first event is the opening of the socket or the
    timeout, and never when it is an error, when the constructor threw
    or while no event has arrived; no later event calls it again. *)
Theorem quickPing_closes_once (s : ServerItem) (c : construction)
  (evs : list probe_event) :
  close_calls (run s (quickPing s c) evs)
  = match c, evs with
    | Constructed, Open :: _ => 1%nat
    | Constructed, TimerFired :: _ => 1%nat
    | _, _ => 0%nat
    end.
Proof.
  destruct c as [ | e ].
  - destruct evs as [ | ev evs ]; [ reflexivity | ].
    cbn [run fold_left].
    change (fold_left (deliver s) evs (deliver s (quickPing s Constructed) ev))
      with (run s (deliver s (quickPing s Constructed) ev) evs).
    rewrite run_done_close by (destruct ev; reflexivity).
    destruct ev; reflexivity.
  - rewrite run_threw. reflexivity.
Qed.

(* ------------------------------------------------------------------ *)
(** ** Class names *)
(* ------------------------------------------------------------------ *)

Lemma join_app (sep : string) (l1 l2 : list value) :
  l1 <> [] -> l2 <> [] ->
  join sep (l1 ++ l2) = (join sep l1 ++ sep ++ join sep l2)%string.
Proof.
  intros H1 H2. induction l1 as [ | x l1 IH ]; [ contradiction | ].
  destruct l1 as [ | y l1 ].
  - destruct l2 as [ | z l2 ]; [ contradiction | ]. reflexivity.
  - change (join sep ((x :: y :: l1) ++ l2))
      with ((match x with
             | VUndefined | VNull => ""
             | _ => to_string x
             end ++ sep ++ join sep ((y :: l1) ++ l2))%string).
    rewrite IH by discriminate.
    change (join sep (x :: y :: l1))
      with ((match x with
             | VUndefined | VNull => ""
             | _ => to_string x
             end ++ sep ++ join sep (y :: l1))%string).
    now rewrite !string_app_assoc.
Qed.

Lemma filter_nonempty {A : Type} (p : A -> bool) (l : list A) :
  existsb p l = true -> filter p l <> [].
Proof.
  induction l as [ | x l IH ]; cbn [existsb filter]; [ discriminate | ].
  destruct (p x); [ discriminate | exact IH ].
Qed.

Lemma filter_empty {A : Type} (p : A -> bool) (l : list A) :
  existsb p l = false -> filter p l = [].
Proof.
  induction l as [ | x l IH ]; cbn [existsb filter]; auto.
  destruct (p x); [ discriminate | exact IH ].
Qed.

(** X15.  Falsy parts leave no trace in a class name.  A part that is
    [false], [null], [undefined], [0] or the empty text can be dropped
    anywhere; the class name of two lists of parts is the two class
    names with one space between them when both lists have a truthy
    part, and the class name of the other list when one has none. *)
Theorem cn_skips_falsy (a b : list value) :
  (forall x, truthy x = false -> cn (a ++ x :: b) = cn (a ++ b))
  /\ cn (a ++ b)
     = if existsb truthy a
       then if existsb truthy b then (cn a ++ " " ++ cn b)%string else cn a
       else cn b.
Proof.
  split.
  - intros x Hx. unfold cn. rewrite !filter_app. cbn [filter].
    now rewrite Hx.
  - unfold cn. rewrite filter_app.
    destruct (existsb truthy a) eqn:Ha.
    + destruct (existsb truthy b) eqn:Hb.
      * apply join_app; now apply filter_nonempty.
      * rewrite (filter_empty truthy b Hb). now rewrite app_nil_r.
    + now rewrite (filter_empty truthy a Ha).
Qed.

(* ------------------------------------------------------------------ *)
(** ** Decoding decoded records *)
(* ------------------------------------------------------------------ *)

Lemma js_or_again (a d : value) :
  truthy d = false -> js_or (js_or a d) d = js_or a d.
Proof.
  intros Hd. unfold js_or. destruct (truthy a) eqn:Ha.
  - now rewrite Ha.
  - now rewrite Hd.
Qed.

Lemma js_or_truthy (a d : value) : truthy a = true -> js_or a d = a.
Proof. intros H. unfold js_or. now rewrite H. Qed.

Lemma filter_again {A : Type} (p : A -> bool) (l : list A) :
  filter p (filter p l) = filter p l.
Proof.
  induction l as [ | x l IH ]; cbn [filter]; auto.
  destruct (p x) eqn:E; cbn [filter]; rewrite ?E, IH; reflexivity.
Qed.

(** Decoding an object that has the nine properties, a name that is a
    non-empty string and an address that is a string. *)
Lemma clean_record_full (now : Z) (i : nat) (n u : string)
  (v_id v_tags v_short v_region v_votes v_community v_source : value) :
  n <> "" ->
  clean_record now
    (VObj [("id", v_id); ("name", VStr n); ("url", VStr u); ("tags", v_tags);
           ("short", v_short); ("region", v_region); ("votes", v_votes);
           ("community", v_community); ("source", v_source)]) i
  = Some (VObj
      [("id",
        js_or v_id
          (VStr ("import-" ++ string_of_Z now ++ "-" ++ string_of_nat i)));
       ("name", VStr n);
       ("url", VStr u);
       ("tags", match v_tags with
                | VArr ts => VArr (filter truthy ts)
                | _ => VArr []
                end);
       ("short", js_or v_short (VStr ""));
       ("region", js_or v_region (VStr ""));
       ("votes", match v_votes with
                 | VNum n => VNum n
                 | _ => VUndefined
                 end);
       ("community", VBool true);
       ("source", js_or v_source (VStr "import"))]).
Proof.
  intros Hn. apply String.eqb_neq in Hn.
  assert (E1 : String_of (js_or (js_or (VStr n) (VStr u)) (VStr "Unnamed"))
               = Some n).
  { unfold js_or. cbn [truthy]. rewrite Hn. cbn [negb truthy].
    rewrite Hn. reflexivity. }
  assert (E2 : String_of (js_or (VStr u) (VStr "")) = Some u).
  { unfold js_or. cbn [truthy].
    destruct (String.eqb u "") eqn:Hu; [ | reflexivity ].
    apply String.eqb_eq in Hu. now subst u. }
  unfold clean_record.
  cbn [prop field_name own_property String.eqb Ascii.eqb Bool.eqb bind].
  rewrite E1, E2. reflexivity.
Qed.

Lemma clean_record_shape (now : Z) (s y : value) (i : nat) :
  clean_record now s i = Some y ->
  y = VObj
      [("id",
        js_or (field_of s f_id)
          (VStr ("import-" ++ string_of_Z now ++ "-" ++ string_of_nat i)));
       ("name",
        VStr (to_string (js_or (js_or (field_of s f_name) (field_of s f_url))
                           (VStr "Unnamed"))));
       ("url", VStr (to_string (js_or (field_of s f_url) (VStr ""))));
       ("tags", match field_of s f_tags with
                | VArr ts => VArr (filter truthy ts)
                | _ => VArr []
                end);
       ("short", js_or (field_of s f_short) (VStr ""));
       ("region", js_or (field_of s f_region) (VStr ""));
       ("votes", match field_of s f_votes with
                 | VNum n => VNum n
                 | _ => VUndefined
                 end);
       ("community", VBool true);
       ("source", js_or (field_of s f_source) (VStr "import"))].
Proof.
  intros H.
  assert (Hs : readable s = true).
  { destruct s; try reflexivity; discriminate. }
  unfold clean_record in H.
  rewrite !(readable_prop s _ Hs) in H. cbn [bind] in H.
  destruct (String_of (js_or (js_or (field_of s f_name) (field_of s f_url))
                         (VStr "Unnamed"))) as [ name_ | ] eqn:Hn;
    [ | discriminate ].
  destruct (String_of (js_or (field_of s f_url) (VStr ""))) as [ url_ | ]
    eqn:Hu; [ | discriminate ].
  cbn [bind] in H.
  apply String_of_some in Hn as [_ ->]. apply String_of_some in Hu as [_ ->].
  now injection H as <-.
Qed.

Lemma clean_record_fixed (now now' : Z) (s y : value) (i i' : nat) :
  clean_record now s i = Some y ->
  field_of y f_name <> VStr "" ->
  clean_record now' y i' = Some y.
Proof.
  intros H Hname. apply clean_record_shape in H. subst y.
  set (N := to_string (js_or (js_or (field_of s f_name) (field_of s f_url))
                         (VStr "Unnamed"))) in *.
  change (VStr N <> VStr "") in Hname.
  assert (HN : N <> "") by (intros E; now rewrite E in Hname).
  rewrite (clean_record_full now' i' N _ _ _ _ _ _ _ _ HN).
  rewrite (js_or_truthy (js_or (field_of s f_id) _) _)
    by (apply truthy_js_or; reflexivity).
  rewrite (js_or_again (field_of s f_short) (VStr "") eq_refl).
  rewrite (js_or_again (field_of s f_region) (VStr "") eq_refl).
  rewrite (js_or_truthy (js_or (field_of s f_source) (VStr "import")) _)
    by (apply truthy_js_or; reflexivity).
  destruct (field_of s f_tags); destruct (field_of s f_votes);
    rewrite ?filter_again; reflexivity.
Qed.

Lemma mapi_fixed (f : value -> nat -> throws value) (l : list value) :
  (forall y j, In y l -> f y j = Some y) ->
  forall i, mapi_throws f i l = Some l.
Proof.
  induction l as [ | y l IH ]; intros H i; cbn [mapi_throws]; auto.
  rewrite (H y i (or_introl eq_refl)). cbn [bind].
  rewrite IH; auto. intros y' j Hy'. apply H. now right.
Qed.

Lemma filter_all {A : Type} (p : A -> bool) (l : list A) :
  Forall (fun x => p x = true) l -> filter p l = l.
Proof.
  induction 1 as [ | x l Hx _ IH ]; cbn [filter]; auto.
  now rewrite Hx, IH.
Qed.

(** X16.  Decoding is a projection.  Records that [importList] has
    decoded are decoded to themselves, at any index and whatever the
    clock reads, provided none has the empty text for a name (a name
    that is an empty array prints as the empty text, and is replaced by
    the address the next time).  So importing the entries an import has
    put into the store changes none of them. *)
Theorem cleaned_again (now now' : nat -> Z) (list_ c : list value) :
  cleaned now list_ = Some c ->
  Forall (fun e => field_of e f_name <> VStr "") c ->
  cleaned now' c = Some c.
Proof.
  intros Hc Hnames.
  pose proof (cleaned_wss now list_ c Hc) as Hwss.
  assert (Hfix : forall y j, In y c -> clean_at now' y j = Some y).
  { intros y j Hy. unfold cleaned in Hc.
    destruct (mapi_throws (clean_at now) 0%nat list_) as [ ys | ] eqn:Hys;
      [ | discriminate ].
    cbn [bind] in Hc. injection Hc as <-.
    pose proof (proj1 (Forall_forall _ _) Hnames y Hy) as Hname.
    apply filter_In in Hy as [Hy _].
    destruct (mapi_throws_In _ _ _ _ Hys y Hy) as [x [k [_ Hx]]].
    exact (clean_record_fixed (now k) (now' j) x y k j Hx Hname). }
  unfold cleaned. rewrite (mapi_fixed _ c Hfix 0%nat). cbn [bind].
  now rewrite (filter_all has_wss_url c Hwss).
Qed.

(** X16 at a file with one good and one bad record. *)
Lemma cleaned_again_witness :
  exists c,
    cleaned sample_clock (map VObj (map string_obj sample_mixed)) = Some c
    /\ List.length c = 1%nat
    /\ cleaned (fun _ => 0%Z) c = Some c.
Proof.
  destruct (cleaned sample_clock (map VObj (map string_obj sample_mixed)))
    as [ c | ] eqn:E; [ | vm_compute in E; discriminate ].
  exists c. split; [ reflexivity | ].
  split; [ vm_compute in E; injection E as <-; reflexivity | ].
  apply (cleaned_again sample_clock (fun _ => 0%Z) _ c E).
  vm_compute in E. injection E as <-.
  constructor; [ discriminate | constructor ].
Defined.

(* ------------------------------------------------------------------ *)
(** ** A session and its reload *)
(* ------------------------------------------------------------------ *)

Lemma In_first_seen (k : value) (ks : list value) :
  In k (first_seen ks) <-> In k ks.
Proof.
  unfold first_seen.
  enough (H : forall seen,
             In k (fold_left
                     (fun seen k =>
                        if existsb (fun k' => same_value_zero k' k) seen
                        then seen else seen ++ [k]) ks seen)
             <-> In k seen \/ In k ks).
  { rewrite H. cbn [In]. tauto. }
  induction ks as [ | x ks IH ]; intros seen; cbn [fold_left In].
  - tauto.
  - rewrite IH.
    destruct (existsb (fun k' => same_value_zero k' x) seen) eqn:E.
    + apply existsb_exists in E as [y [Hy1 Hy2]].
      apply same_value_zero_eq in Hy2. subst y.
      split; [ tauto | ]. intros [ H | [ <- | H ] ]; auto.
    + rewrite in_app_iff. cbn [In]. tauto.
Qed.

Lemma keys_are_ids (l : list value) :
  Forall (fun e => truthy (entry_id e) = true) l ->
  map key_of l = map entry_id l.
Proof.
  intros H. apply map_ext_in. intros e He. apply truthy_id_key.
  now apply (proj1 (Forall_forall _ l) H e He).
Qed.

Lemma cleaned_truthy_ids (now : nat -> Z) (list_ c : list value) :
  cleaned now list_ = Some c ->
  Forall (fun e => truthy (entry_id e) = true) c.
Proof.
  intros H. apply cleaned_entries in H.
  eapply Forall_impl; [ | exact H ]. now intros e [_ [He _]].
Qed.

(** With ids everywhere, a merge loses no id. *)
Lemma merge_ids_grow (prev c r : store) :
  merge prev c = Some r ->
  Forall (fun e => truthy (entry_id e) = true) prev ->
  Forall (fun e => truthy (entry_id e) = true) c ->
  incl (ids prev) (ids r).
Proof.
  intros Hm Hp Hc k Hk. unfold ids in *.
  rewrite <- (keys_are_ids r) by exact (merge_Forall _ _ _ _ Hm Hp Hc).
  rewrite (merge_keys _ _ _ Hm). apply In_first_seen.
  rewrite map_app. apply in_or_app. left. now rewrite (keys_are_ids prev Hp).
Qed.

Lemma user_step_ids_grow (app app' : App) :
  user_step app app' ->
  Forall (fun e => truthy (entry_id e) = true) (servers app) ->
  incl (ids (servers app)) (ids (servers app')).
Proof.
  intros Hstep Hids.
  destruct Hstep as [ now name url tags short app
                    | parse strerr file now app app' Hon ].
  - unfold AddServerDialog_save. destruct (valid name url).
    + cbn [addServer servers]. intros k Hk. now right.
    + apply incl_refl.
  - apply onChange_cases in Hon
      as [ [_ ->]
         | [ [err ->] | [text [parsed [c [s [_ [_ [Hc [Hm ->]]]]]]]] ] ];
      try apply incl_refl.
    cbn [notify servers]. apply (merge_ids_grow _ c _ Hm Hids).
    exact (cleaned_truthy_ids now parsed c Hc).
Qed.

Lemma reachable_ids_grow (start app : App) :
  reachable start app ->
  Forall (fun e => truthy (entry_id e) = true) (servers start) ->
  Forall (fun e => truthy (entry_id e) = true) (servers app)
  /\ incl (ids (servers start)) (ids (servers app)).
Proof.
  intros Hreach Hstart.
  induction Hreach as [ | app app' Hreach [IH1 IH2] Hstep ].
  - split; [ exact Hstart | apply incl_refl ].
  - split.
    + apply (user_step_Forall _ app app'); auto.
      intros now list_ c. apply cleaned_truthy_ids.
    + eapply incl_tran; [ exact IH2 | ].
      now apply user_step_ids_grow.
Qed.

(** X17.  What the session shows is what a reload brings back.  Start
    from a store without [null] elements in which every entry has an id
    and every seed id occurs (the seeds are one).  After whatever the
    user saves and imports, if no two entries share an id, then the
    store that [loadServers] makes of the saved text is the store of the
    session, entry for entry and in the same order.  The host is taken
    to read the saved text back as the array that was saved. *)
Theorem session_survives_reload (JSON_parse : string -> throws value)
  (JSON_stringify : value -> nat -> string) (start app : App) :
  Forall (fun v => readable v = true) (servers start) ->
  Forall (fun e => truthy (entry_id e) = true) (servers start) ->
  incl (ids seed_store) (ids (servers start)) ->
  reachable start app ->
  unique_ids (servers app) ->
  saveServers JSON_stringify (servers app) <> "" ->
  JSON_parse (saveServers JSON_stringify (servers app))
  = Some (VArr (servers app)) ->
  loadServers JSON_parse
    (GetItem (Some (saveServers JSON_stringify (servers app))))
  = servers app.
Proof.
  intros Hread Hids Hseeds Hreach Hu Hraw Hparse.
  assert (Happ : Forall (fun v => readable v = true) (servers app)).
  { apply (reachable_Forall _ start app); auto.
    intros now list_ c. apply cleaned_readable. }
  destruct (reachable_ids_grow start app Hreach Hids) as [_ Hgrow].
  rewrite (loadServers_array JSON_parse _ _ Hraw Hparse Happ).
  apply merged_self; [ exact Hu | ].
  eapply incl_tran; [ exact Hseeds | exact Hgrow ].
Qed.

Lemma seed_store_truthy_ids :
  Forall (fun e => truthy (entry_id e) = true) seed_store.
Proof.
  apply Forall_forall.
  apply (proj1 (forallb_forall (fun e => truthy (entry_id e)) seed_store)).
  vm_compute. reflexivity.
Qed.

(** X17 at the seeds after one save of the dialog. *)
Lemma session_survives_reload_witness :
  reachable (mkApp seed_store []) sample_saved
  /\ unique_ids (servers sample_saved)
  /\ loadServers (parse_only "[saved]" (VArr (servers sample_saved)))
       (GetItem (Some (saveServers sample_stringify (servers sample_saved))))
     = servers sample_saved.
Proof.
  refine (conj reachable_sample_saved
            (conj unique_ids_sample_saved_store _)).
  apply (session_survives_reload _ sample_stringify (mkApp seed_store [])).
  - apply seed_store_Forall. reflexivity.
  - exact seed_store_truthy_ids.
  - apply incl_refl.
  - exact reachable_sample_saved.
  - exact unique_ids_sample_saved_store.
  - discriminate.
  - reflexivity.
Defined.
